(** * LLMChat: a shallow embedding of [llmchat.ts] and [validator.ts]

    Definitions first:

    - [JS]: the pieces of the JavaScript run time the program relies on:
      strings as sequences of UTF-16 code units, [String.prototype.trim],
      global regular-expression replacement, and [JSON.parse];
    - [Model]: messages, chats and replies; the object heap (chat objects
      have reference identity and are mutated in place); a virtual clock;
      the trace of the observable effects (backend invocations, console
      warnings, back-off delays) and the record of when each invocation
      was made and what the heap held then; the monad of computations that
      return or throw;
    - [Validator]: the functions of [validator.ts];
    - [LLMChat]: the class [LLMChat] of [llmchat.ts];
    - [View], [Run], [Text], [Demo], [Extra]: what the theorems are stated
      with: readers of the heap, sequences of operations and their
      invariants, properties of texts, sample backends and worlds, bounds
      on the waiting time, texts of objects with white space or a second
      member.

    Then the lemmas, and last the theorems: one per claim about the
    program, then further properties of the operations, of the attempt
    cycle and of the structural check; each theorem that has a premise is
    followed further down by an instance at a sample input. *)

From Stdlib Require Import NArith Ascii String.
From stdpp Require Import base tactics option list numbers sets.

Set Warnings "-register-all,-clear-no-such-hyp".

Local Open Scope N_scope.
Local Open Scope list_scope.

(** ** JavaScript strings *)

Module JS.

(** A JavaScript string is a finite sequence of 16-bit code units;
    [s.length] is the number of code units. *)
Definition jsstring := list N.

(** Code units of an ASCII literal. *)
Definition js (s : string) : jsstring :=
  map N_of_ascii (list_ascii_of_string s).

Definition dquote : N := 34.
Definition backslash : N := 92.
Definition backtick : N := 96.
Definition newline : N := 10.

Definition jsstring_eqb (a b : jsstring) : bool := bool_decide (a = b).

(** [s.startsWith(p)], used to match literal regular expressions. *)
Fixpoint starts_with (p s : jsstring) : bool :=
  match p, s with
  | [], _ => true
  | _ :: _, [] => false
  | a :: p', b :: s' => (a =? b) && starts_with p' s'
  end.

(** [s.replace(re, '')] for a global regular expression [re] that never
    matches the empty string.  [re s] is the length of the match of the
    expression anchored at the start of [s], if there is one.  The scan goes
    left to right; a match is dropped and the scan resumes right after it;
    a position without match keeps its code unit. *)
Fixpoint remove_all_go (re : jsstring -> option nat) (skip : nat)
    (s : jsstring) : jsstring :=
  match s with
  | [] => []
  | c :: r =>
      match skip with
      | S k => remove_all_go re k r
      | O =>
          match re s with
          | Some (S k) => remove_all_go re k r
          | _ => c :: remove_all_go re O r
          end
      end
  end.

Definition remove_all (re : jsstring -> option nat) (s : jsstring) : jsstring :=
  remove_all_go re O s.

(** ECMAScript [WhiteSpace] and [LineTerminator] code points, the ones
    [trim] strips. *)
Definition is_js_space (c : N) : bool :=
  (c =? 9) || (c =? 10) || (c =? 11) || (c =? 12) || (c =? 13) || (c =? 32)
  || (c =? 160) || (c =? 5760) || ((8192 <=? c) && (c <=? 8202))
  || (c =? 8232) || (c =? 8233) || (c =? 8239) || (c =? 8287)
  || (c =? 12288) || (c =? 65279).

Fixpoint trim_start (s : jsstring) : jsstring :=
  match s with
  | c :: r => if is_js_space c then trim_start r else s
  | [] => []
  end.

Definition trim_end (s : jsstring) : jsstring := rev (trim_start (rev s)).

Definition trim (s : jsstring) : jsstring := trim_end (trim_start s).

(** ** JSON values and [JSON.parse]

    A number keeps its source text: the program never looks at the value of
    a number, only at its type.  The properties of an object are kept in
    creation order, one entry per key. *)
Inductive JSON : Type :=
| JNull
| JBool (b : bool)
| JNumber (lexeme : jsstring)
| JString (s : jsstring)
| JArray (elems : list JSON)
| JObject (props : list (jsstring * JSON)).

(** [CreateDataProperty]: a repeated key overwrites the earlier value and
    keeps its place. *)
Fixpoint set_prop (k : jsstring) (v : JSON) (props : list (jsstring * JSON))
    : list (jsstring * JSON) :=
  match props with
  | [] => [(k, v)]
  | (k', v') :: rest =>
      if jsstring_eqb k' k then (k', v) :: rest
      else (k', v') :: set_prop k v rest
  end.

Fixpoint get_prop (k : jsstring) (props : list (jsstring * JSON)) : option JSON :=
  match props with
  | [] => None
  | (k', v') :: rest => if jsstring_eqb k' k then Some v' else get_prop k rest
  end.

(** JSON white space: tab, line feed, carriage return, space. *)
Definition is_json_ws (c : N) : bool :=
  (c =? 9) || (c =? 10) || (c =? 13) || (c =? 32).

Fixpoint skip_ws (s : jsstring) : jsstring :=
  match s with
  | c :: r => if is_json_ws c then skip_ws r else s
  | [] => []
  end.

Definition is_digit (c : N) : bool := (48 <=? c) && (c <=? 57).

Definition hex_value (c : N) : option N :=
  if is_digit c then Some (c - 48)
  else if (65 <=? c) && (c <=? 70) then Some (c - 55)
  else if (97 <=? c) && (c <=? 102) then Some (c - 87)
  else None.

Definition hex4 (a b c d : N) : option N :=
  match hex_value a, hex_value b, hex_value c, hex_value d with
  | Some x, Some y, Some z, Some w => Some (((x * 16 + y) * 16 + z) * 16 + w)
  | _, _, _, _ => None
  end.

(** The code unit named by a single-character escape. *)
Definition simple_escape (c : N) : option N :=
  if c =? 34 then Some 34            (* quotation mark *)
  else if c =? 92 then Some 92       (* reverse solidus *)
  else if c =? 47 then Some 47       (* solidus *)
  else if c =? 98 then Some 8        (* b: backspace *)
  else if c =? 102 then Some 12      (* f: form feed *)
  else if c =? 110 then Some 10      (* n: line feed *)
  else if c =? 114 then Some 13      (* r: carriage return *)
  else if c =? 116 then Some 9       (* t: tab *)
  else None.

(** The characters of a string literal after its opening quote, up to and
    including the closing quote.  Returns the string value and the rest of
    the input. *)
Fixpoint parse_string_chars (s : jsstring) : option (jsstring * jsstring) :=
  match s with
  | [] => None
  | c :: r =>
      if c =? dquote then Some ([], r)
      else if c =? backslash then
        match r with
        | [] => None
        | e :: r1 =>
            if e =? 117 then                       (* u and four hex digits *)
              match r1 with
              | a :: b :: x :: d :: r2 =>
                  match hex4 a b x d, parse_string_chars r2 with
                  | Some u, Some (v, rest) => Some (u :: v, rest)
                  | _, _ => None
                  end
              | _ => None
              end
            else
              match simple_escape e, parse_string_chars r1 with
              | Some u, Some (v, rest) => Some (u :: v, rest)
              | _, _ => None
              end
        end
      else if c <? 32 then None
      else
        match parse_string_chars r with
        | Some (v, rest) => Some (c :: v, rest)
        | None => None
        end
  end.

(** The longest prefix of decimal digits and what follows it. *)
Fixpoint span_digits (s : jsstring) : jsstring * jsstring :=
  match s with
  | c :: r =>
      if is_digit c then let '(ds, rest) := span_digits r in (c :: ds, rest)
      else ([], s)
  | [] => ([], [])
  end.

(** A number: an optional minus sign; an integer part that is a single zero
    or a non-zero digit followed by digits; an optional fraction (a point and
    one digit or more); an optional exponent (e or E, an optional sign, one
    digit or more). *)
Definition parse_int_part (s : jsstring) : option (jsstring * jsstring) :=
  match s with
  | c :: r =>
      if c =? 48 then Some ([c], r)
      else if is_digit c then let '(ds, rest) := span_digits r in Some (c :: ds, rest)
      else None
  | [] => None
  end.

Definition parse_frac_part (s : jsstring) : option (jsstring * jsstring) :=
  match s with
  | c :: r =>
      if c =? 46 then
        match span_digits r with
        | ([], _) => None
        | (ds, rest) => Some (c :: ds, rest)
        end
      else Some ([], s)
  | [] => Some ([], [])
  end.

Definition parse_exp_part (s : jsstring) : option (jsstring * jsstring) :=
  match s with
  | c :: r =>
      if (c =? 101) || (c =? 69) then
        let '(sign, r1) :=
          match r with
          | g :: r' => if (g =? 43) || (g =? 45) then ([g], r') else ([], r)
          | [] => ([], r)
          end in
        match span_digits r1 with
        | ([], _) => None
        | (ds, rest) => Some (c :: sign ++ ds, rest)
        end
      else Some ([], s)
  | [] => Some ([], [])
  end.

Definition parse_number (s : jsstring) : option (jsstring * jsstring) :=
  let '(sign, s1) :=
    match s with
    | c :: r => if c =? 45 then ([c], r) else ([], s)
    | [] => ([], s)
    end in
  match parse_int_part s1 with
  | None => None
  | Some (i, s2) =>
      match parse_frac_part s2 with
      | None => None
      | Some (f, s3) =>
          match parse_exp_part s3 with
          | None => None
          | Some (e, s4) => Some (sign ++ i ++ f ++ e, s4)
          end
      end
  end.

(** Outcome of a parsing function that runs on fuel. *)
Inductive parsed (A : Type) : Type :=
| POk (a : A) (rest : jsstring)
| PSyntaxError
| POutOfFuel.
Arguments POk {A} a rest.
Arguments PSyntaxError {A}.
Arguments POutOfFuel {A}.

(** Recursive descent over the JSON grammar.  [parse_value] expects its
    input to start at the value (leading white space already skipped);
    [parse_elements] and [parse_members] read the remainder of an array or
    object once its first element or member is known to exist. *)
Fixpoint parse_value (fuel : nat) (s : jsstring) : parsed JSON :=
  match fuel with
  | O => POutOfFuel
  | S fuel' =>
      match s with
      | [] => PSyntaxError
      | c :: r =>
          if c =? 123 then                             (* { *)
            match skip_ws r with
            | d :: r1 =>
                if d =? 125 then POk (JObject []) r1   (* } *)
                else
                  match parse_members fuel' [] (d :: r1) with
                  | POk props rest => POk (JObject props) rest
                  | PSyntaxError => PSyntaxError
                  | POutOfFuel => POutOfFuel
                  end
            | [] => PSyntaxError
            end
          else if c =? 91 then                         (* [ *)
            match skip_ws r with
            | d :: r1 =>
                if d =? 93 then POk (JArray []) r1     (* ] *)
                else
                  match parse_elements fuel' [] (d :: r1) with
                  | POk elems rest => POk (JArray elems) rest
                  | PSyntaxError => PSyntaxError
                  | POutOfFuel => POutOfFuel
                  end
            | [] => PSyntaxError
            end
          else if c =? dquote then
            match parse_string_chars r with
            | Some (v, rest) => POk (JString v) rest
            | None => PSyntaxError
            end
          else if starts_with (js "true") s then POk (JBool true) (drop 4 s)
          else if starts_with (js "false") s then POk (JBool false) (drop 5 s)
          else if starts_with (js "null") s then POk JNull (drop 4 s)
          else
            match parse_number s with
            | Some (lexeme, rest) => POk (JNumber lexeme) rest
            | None => PSyntaxError
            end
      end
  end

with parse_elements (fuel : nat) (acc : list JSON) (s : jsstring)
    : parsed (list JSON) :=
  match fuel with
  | O => POutOfFuel
  | S fuel' =>
      match parse_value fuel' s with
      | POk v rest =>
          match skip_ws rest with
          | c :: r =>
              if c =? 44 then parse_elements fuel' (acc ++ [v]) (skip_ws r)
              else if c =? 93 then POk (acc ++ [v]) r
              else PSyntaxError
          | [] => PSyntaxError
          end
      | PSyntaxError => PSyntaxError
      | POutOfFuel => POutOfFuel
      end
  end

with parse_members (fuel : nat) (acc : list (jsstring * JSON)) (s : jsstring)
    : parsed (list (jsstring * JSON)) :=
  match fuel with
  | O => POutOfFuel
  | S fuel' =>
      match s with
      | c :: r =>
          if c =? dquote then
            match parse_string_chars r with
            | Some (k, r1) =>
                match skip_ws r1 with
                | d :: r2 =>
                    if d =? 58 then                       (* : *)
                      match parse_value fuel' (skip_ws r2) with
                      | POk v rest =>
                          match skip_ws rest with
                          | e :: r3 =>
                              if e =? 44 then
                                parse_members fuel' (set_prop k v acc) (skip_ws r3)
                              else if e =? 125 then POk (set_prop k v acc) r3
                              else PSyntaxError
                          | [] => PSyntaxError
                          end
                      | PSyntaxError => PSyntaxError
                      | POutOfFuel => POutOfFuel
                      end
                    else PSyntaxError
                | [] => PSyntaxError
                end
            | None => PSyntaxError
            end
          else PSyntaxError
      | [] => PSyntaxError
      end
  end.

(** [JSON.parse(text)]: [None] stands for the [SyntaxError] it throws.  The
    fuel is enough for every input ([JSON_parse_fuel] below), so running out
    of it never shows.  The limit that an engine puts on the depth of nesting
    is not part of the model. *)
Definition JSON_parse (text : jsstring) : option JSON :=
  let s := skip_ws text in
  match parse_value (2 * length s + 1) s with
  | POk v rest => match skip_ws rest with [] => Some v | _ :: _ => None end
  | PSyntaxError => None
  | POutOfFuel => None
  end.

(** [typeof v] for a value that [JSON.parse] returned. *)
Inductive type_tag := TObject | TString | TNumber | TBoolean.

Definition typeof (v : JSON) : type_tag :=
  match v with
  | JNull | JArray _ | JObject _ => TObject
  | JBool _ => TBoolean
  | JNumber _ => TNumber
  | JString _ => TString
  end.

(** [k in v], for [k] that is neither an array index nor a name found on
    [Object.prototype] or [Array.prototype] (the program asks for ["reply"]):
    the own properties of an object decide. *)
Definition has_property (k : jsstring) (v : JSON) : bool :=
  match v with
  | JObject props => bool_decide (is_Some (get_prop k props))
  | _ => false
  end.

(** [v.k]: [None] stands for [undefined]. *)
Definition get_property (k : jsstring) (v : JSON) : option JSON :=
  match v with
  | JObject props => get_prop k props
  | _ => None
  end.

(** [Object.keys(v)] of an object, each key once.  (JavaScript lists
    integer-like keys first; the program only counts the keys.) *)
Definition Object_keys (v : JSON) : list jsstring :=
  match v with
  | JObject props => map fst props
  | _ => []
  end.

End JS.

(** ** Data model, object heap and effects *)

Module Model.
Import JS.

(** [role: "user" | "llm"] *)
Inductive Role := Role_user | Role_llm.

Definition role_text (r : Role) : jsstring :=
  match r with
  | Role_user => js "user"
  | Role_llm => js "llm"
  end.

(** [s.toUpperCase()] on the basic Latin letters; the program applies it to
    role names only. *)
Definition toUpperCase (s : jsstring) : jsstring :=
  map (fun c => if (97 <=? c) && (c <=? 122) then c - 32 else c) s.

(** Objects are referred to by their address in the heap. *)
Abbreviation addr := nat (only parsing).

Record Message := {
  role : Role;
  content : jsstring;
  timestamp : N
}.

(** [messages] refers to an array object, whose elements refer to message
    objects. *)
Record Chat := {
  name : jsstring;
  messages : addr;
  summary : jsstring;
  historyString : jsstring
}.

Record LLMReply := { reply : jsstring }.

Inductive Obj :=
| OMessage (m : Message)
| OArray (elems : list addr)
| OChat (c : Chat).

(** What the program can throw, by throw site.  The message texts are left
    out, except the numbers quoted by the summary check. *)
Inductive Error :=
| InvalidJSON
| NotAnObject
| MissingReply
| ReplyNotString
| UnexpectedFields
| SummaryTooLong (summaryLength totalLength : nat)
| EmptyChat
| TimedOut
| UnexpectedFailure (maxRetries : nat)
| BackendError (message : jsstring)
| TypeError.

Inductive Result (A : Type) :=
| Ok (a : A)
| Throw (e : Error).
Arguments Ok {A} a.
Arguments Throw {A} e.

(** The backend: [llm.executeLLM(prompt)] returns a promise that resolves
    with the raw text after some milliseconds, rejects with an error object
    after some milliseconds, or never settles.  The outcome may depend on
    the prompt and on how many invocations came before. *)
Inductive Settlement :=
| Resolves (raw : jsstring)
| Rejects (e : Error).

Inductive LLMOutcome :=
| Settles (after : N) (s : Settlement)
| Pending.

Record GeminiLLM := { executeLLM : nat -> jsstring -> LLMOutcome }.

(** Observable effects besides the heap. *)
Inductive Event :=
| EvCall (prompt : jsstring)
| EvWarn (attempt : nat) (e : Error)
| EvSleep (ms : N).

(** The state of the run: the heap, the field [chats] of the one [LLMChat]
    instance, the clock that [Date.now()] reads (milliseconds), the number
    of backend invocations made, the trace of events, oldest first, and,
    for each backend invocation, the time at which it was made and the heap
    as it was then: what the backend, or anyone who holds a reference to a
    chat, can see while the call is pending.  The clock advances while the
    program waits, for the backend or in a back-off delay, and stands still
    otherwise. *)
Record World := {
  heap : list Obj;
  chats : list addr;
  now : N;
  calls : nat;
  trace : list Event;
  seen : list (N * list Obj)
}.

Definition init : World :=
  {| heap := []; chats := []; now := 0; calls := O; trace := [];
     seen := [] |}.

Definition set_heap (h : list Obj) (w : World) : World :=
  {| heap := h; chats := chats w; now := now w; calls := calls w;
     trace := trace w; seen := seen w |}.

Definition set_chats (cs : list addr) (w : World) : World :=
  {| heap := heap w; chats := cs; now := now w; calls := calls w;
     trace := trace w; seen := seen w |}.

(** A computation reads and changes the world and returns or throws; what
    it changed before it threw stays changed. *)
Definition M (A : Type) : Type := World -> Result A * World.

Definition ret {A} (a : A) : M A := fun w => (Ok a, w).

Definition throw {A} (e : Error) : M A := fun w => (Throw e, w).

Definition bind {A B} (m : M A) (k : A -> M B) : M B :=
  fun w =>
    match m w with
    | (Ok a, w') => k a w'
    | (Throw e, w') => (Throw e, w')
    end.

Definition try_catch {A} (m : M A) (handler : Error -> M A) : M A :=
  fun w =>
    match m w with
    | (Ok a, w') => (Ok a, w')
    | (Throw e, w') => handler e w'
    end.

Definition lift {A} (r : Result A) : M A := fun w => (r, w).

Declare Scope monad_scope.
Delimit Scope monad_scope with monad.
Notation "'let*' x ':=' m 'in' k" := (bind m (fun x => k))
  (at level 10, x name, m at level 100, k at level 200, only parsing)
  : monad_scope.
Local Open Scope monad_scope.

Fixpoint mapM {A B} (f : A -> M B) (l : list A) : M (list B) :=
  match l with
  | [] => ret []
  | a :: l' => let* b := f a in let* bs := mapM f l' in ret (b :: bs)
  end.

Fixpoint forEach {A} (f : A -> M unit) (l : list A) : M unit :=
  match l with
  | [] => ret tt
  | a :: l' => let* _ := f a in forEach f l'
  end.

(** Heap access.  A reference that does not lead to an object of the
    expected kind raises [TypeError]; typed callers never see it. *)
Definition alloc (o : Obj) : M addr :=
  fun w => (Ok (length (heap w)), set_heap (heap w ++ [o]) w).

Definition load (a : addr) : M Obj :=
  fun w =>
    match heap w !! a with
    | Some o => (Ok o, w)
    | None => (Throw TypeError, w)
    end.

Definition store (a : addr) (o : Obj) : M unit :=
  fun w => (Ok tt, set_heap (<[a:=o]> (heap w)) w).

Definition load_chat (a : addr) : M Chat :=
  let* o := load a in
  match o with OChat c => ret c | _ => throw TypeError end.

Definition load_array (a : addr) : M (list addr) :=
  let* o := load a in
  match o with OArray elems => ret elems | _ => throw TypeError end.

Definition load_message (a : addr) : M Message :=
  let* o := load a in
  match o with OMessage m => ret m | _ => throw TypeError end.

(** [chat.messages]: the message objects of a chat, in order. *)
Definition chat_messages (chat : addr) : M (list Message) :=
  let* c := load_chat chat in
  let* elems := load_array (messages c) in
  mapM load_message elems.

(** [array.push(x)] *)
Definition push (array : addr) (x : addr) : M unit :=
  let* elems := load_array array in
  store array (OArray (elems ++ [x])).

Definition Date_now : M N := fun w => (Ok (now w), w).

Definition log (ev : Event) : M unit :=
  fun w =>
    (Ok tt,
     {| heap := heap w; chats := chats w; now := now w; calls := calls w;
        trace := trace w ++ [ev]; seen := seen w |}).

Definition elapse (ms : N) : M unit :=
  fun w =>
    (Ok tt,
     {| heap := heap w; chats := chats w; now := now w + ms;
        calls := calls w; trace := trace w; seen := seen w |}).

(** [await new Promise(res => setTimeout(res, ms))] *)
Definition sleep (ms : N) : M unit := let* _ := log (EvSleep ms) in elapse ms.

(** [console.warn] of a failed attempt. *)
Definition console_warn (attempt : nat) (e : Error) : M unit :=
  log (EvWarn attempt e).

(** One invocation of the backend: the outcome that the backend gives to
    this prompt at this point of its history.  The time and the heap at the
    moment of the call go on record. *)
Definition invoke (llm : GeminiLLM) (prompt : jsstring) : M LLMOutcome :=
  fun w =>
    (Ok (executeLLM llm (calls w) prompt),
     {| heap := heap w; chats := chats w; now := now w;
        calls := S (calls w); trace := trace w ++ [EvCall prompt];
        seen := seen w ++ [(now w, heap w)] |}).

End Model.

(** ** validator.ts *)

Module Validator.
Import JS Model.
Local Open Scope monad_scope.

(** The match of [```(?:json)?] at the start of [s]. *)
Definition fence_with_label (s : jsstring) : option nat :=
  if starts_with (js "```json") s then Some 7%nat
  else if starts_with (js "```") s then Some 3%nat
  else None.

(** The match of [```] at the start of [s]. *)
Definition fence (s : jsstring) : option nat :=
  if starts_with (js "```") s then Some 3%nat else None.

Definition cleanJSON (raw : jsstring) : jsstring :=
  trim (remove_all fence (remove_all fence_with_label raw)).

Definition is_null (v : JSON) : bool :=
  match v with JNull => true | _ => false end.

Definition is_object_tag (t : type_tag) : bool :=
  match t with TObject => true | _ => false end.

Definition validateLLMResponse (raw : jsstring) : Result LLMReply :=
  match JSON_parse (cleanJSON raw) with
  | None => Throw InvalidJSON
  | Some parsed =>
      if negb (is_object_tag (typeof parsed)) || is_null parsed then
        Throw NotAnObject
      else if negb (has_property (js "reply") parsed) then
        Throw MissingReply
      else
        match get_property (js "reply") parsed with
        | Some (JString text) =>
            if (1 <? length (Object_keys parsed))%nat then Throw UnexpectedFields
            else Ok {| reply := text |}
        | _ => Throw ReplyNotString
        end
  end.

(** [chat.messages.reduce((sum, m) => sum + m.content.length, 0)] *)
Definition total_length (msgs : list Message) : nat :=
  fold_left (fun sum m => (sum + length (content m))%nat) msgs O.

Definition validateSummaryLength (summary : jsstring) (chat : addr) : M unit :=
  let* msgs := chat_messages chat in
  let totalLength := total_length msgs in
  let maxLength := (Nat.max totalLength 1 * 2)%nat in
  if (maxLength <? length summary)%nat then
    throw (SummaryTooLong (length summary) totalLength)
  else ret tt.

End Validator.

(** ** llmchat.ts *)

Module LLMChat.
Import JS Model Validator.
Local Open Scope monad_scope.

Definition summary_prompt_before_history : jsstring :=
  concat
    [ [newline];
      js "        SYSTEM INSTRUCTIONS" ++ [newline];
      js "        You are summarizing a conversation between a user and an assistant.  " ++ [newline];
      js "        " ++ [newline];
      js "        CRITICAL REQUIREMENTS:  " ++ [newline];
      js "        - Be shorter than the original text.  " ++ [newline];
      js "        - Capture only the key points needed for context.  " ++ [newline];
      js "        - Not include details about future messages that have not yet occurred.  " ++ [newline];
      js "        - Avoid hallucinating or inventing content.  " ++ [newline];
      js "        - Avoid copying entire messages verbatim.  " ++ [newline];
      [newline];
      js "        CONVERSATION SO FAR:  " ++ [newline];
      js "        " ].

Definition summary_prompt_after_history : jsstring :=
  concat
    [ [newline];
      [newline];
      js "        TASK:  " ++ [newline];
      js "        Summarize the above conversation in 3" ++ [8218; 196; 236] ++ js "6 sentences, focusing only on the essential topics, decisions, or user requests that may be relevant later." ++ [newline];
      js "        Return your next response in strict JSON format:  " ++ [newline];
      js "        {" ++ [newline];
      js "        " ++ [dquote] ++ js "reply" ++ [dquote] ++ js ": " ++ [dquote] ++ js "..." ++ [dquote] ++ [newline];
      js "        }" ++ [newline];
      js "        " ].

Definition conversation_prompt_before_history : jsstring :=
  concat
    [ [newline];
      js "        SYSTEM INSTRUCTIONS:" ++ [newline];
      js "        You are an AI assistant continuing a chat conversation.  " ++ [newline];
      js "        - Respond naturally in the style of a helpful assistant.  " ++ [newline];
      js "        - Use only the information from the conversation so far and your general knowledge.  " ++ [newline];
      js "        - Do not repeat the entire history in your response.  " ++ [newline];
      js "        - Do not reference this prompt or the system instructions.  " ++ [newline];
      js "        - Keep the response concise and directly relevant to the user" ++ [8218; 196; 244] ++ js "s last message.  " ++ [newline];
      [newline];
      js "        CONVERSATION SO FAR:" ++ [newline];
      js "        " ].

Definition conversation_prompt_before_message : jsstring :=
  concat
    [ [newline];
      [newline];
      js "        USER'S LAST MESSAGE:" ++ [newline];
      js "        " ].

Definition conversation_prompt_after_message : jsstring :=
  concat
    [ [newline];
      [newline];
      js "        TASK:  " ++ [newline];
      js "        Write the assistant" ++ [8218; 196; 244] ++ js "s next reply." ++ [newline];
      js "        Return your next response in strict JSON format:  " ++ [newline];
      js "        {" ++ [newline];
      js "        " ++ [dquote] ++ js "reply" ++ [dquote] ++ js ": " ++ [dquote] ++ js "..." ++ [dquote] ++ [newline];
      js "        }" ++ [newline];
      js "        " ].

Definition createSummaryPrompt (chatHistory : jsstring) : jsstring :=
  summary_prompt_before_history ++ chatHistory ++ summary_prompt_after_history.

Definition createConversationPrompt (chatHistory lastMessage : jsstring)
    : jsstring :=
  conversation_prompt_before_history ++ chatHistory
  ++ conversation_prompt_before_message ++ lastMessage
  ++ conversation_prompt_after_message.

(** The line that [appendToHistory] adds for a message. *)
Definition history_line (m : Message) : jsstring :=
  js "[" ++ toUpperCase (role_text (role m)) ++ js "] " ++ content m
  ++ [newline].

Definition appendToHistory (chat : addr) (message : addr) : M unit :=
  let* m := load_message message in
  let* c := load_chat chat in
  store chat
    (OChat {| name := name c; messages := messages c; summary := summary c;
              historyString := historyString c ++ history_line m |}).

Definition makeChat (name : jsstring) : M addr :=
  let* msgs := alloc (OArray []) in
  let* newChat := alloc (OChat {| name := name; messages := msgs;
                             summary := []; historyString := [] |}) in
  let* _ := (fun w => (Ok tt, set_chats (chats w ++ [newChat]) w)) in
  ret newChat.

Definition deleteChat (chat : addr) : M unit :=
  fun w =>
    (Ok tt, set_chats (filter (fun c => c <> chat) (chats w)) w).

(** [chat.name = newName].  On a chat object the field is overwritten.  On
    an object of another kind the assignment succeeds as well: the object
    gains a property [name] that no code of the program reads there, and
    that the objects of this model do not record.  Only a reference that
    leads to no object makes the assignment throw. *)
Definition renameChat (chat : addr) (newName : jsstring) : M unit :=
  let* o := load chat in
  match o with
  | OChat c =>
      store chat
        (OChat {| name := newName; messages := messages c;
                  summary := summary c; historyString := historyString c |})
  | OMessage _ | OArray _ => ret tt
  end.

(** The promise settles before the timer fires when it settles in less than
    [timeoutMs]; otherwise the timer rejects with the time-out error and the
    late outcome is dropped. *)
Definition executeWithTimeout (llm : GeminiLLM) (prompt : jsstring)
    (timeoutMs : N) : M jsstring :=
  let* outcome := invoke llm prompt in
  match outcome with
  | Settles after s =>
      if after <? timeoutMs then
        let* _ := elapse after in
        match s with
        | Resolves raw => ret raw
        | Rejects err => throw err
        end
      else let* _ := elapse timeoutMs in throw TimedOut
  | Pending => let* _ := elapse timeoutMs in throw TimedOut
  end.

Definition validator := jsstring -> addr -> M unit.

(** The body of the [try] block of one attempt. *)
Definition attempt_once (llm : GeminiLLM) (prompt : jsstring)
    (validators : list validator) (chat : addr) (timeoutMs : N) : M LLMReply :=
  let* raw := executeWithTimeout llm prompt timeoutMs in
  let* response := lift (validateLLMResponse raw) in
  let* _ := forEach (fun v : validator => v (reply response) chat) validators in
  ret response.

(** The [for] loop from [attempt] on, with [remaining] iterations left
    ([attempt <= maxRetries] exactly when [remaining] is not zero). *)
Fixpoint attempts (remaining : nat) (attempt : nat) (llm : GeminiLLM)
    (prompt : jsstring) (validators : list validator) (chat : addr)
    (maxRetries : nat) (timeoutMs : N) : M LLMReply :=
  match remaining with
  | O => throw (UnexpectedFailure maxRetries)
  | S remaining' =>
      try_catch (attempt_once llm prompt validators chat timeoutMs)
        (fun error =>
           let* _ := console_warn attempt error in
           if (attempt =? maxRetries)%nat then throw error
           else
             let* _ := sleep (500 * N.of_nat attempt) in
             attempts remaining' (S attempt) llm prompt validators chat
               maxRetries timeoutMs)
  end.

Definition callLLMWithValidation (llm : GeminiLLM) (prompt : jsstring)
    (validators : list validator) (chat : addr) (maxRetries : nat)
    (timeoutMs : N) : M LLMReply :=
  attempts maxRetries 1 llm prompt validators chat maxRetries timeoutMs.

Definition default_maxRetries : nat := 3.
Definition default_timeoutMs : N := 10000.

Definition sendMessage (chat : addr) (content : jsstring) (llm : GeminiLLM)
    : M LLMReply :=
  let* t := Date_now in
  let* userMsg := alloc (OMessage {| role := Role_user; content := content;
                                timestamp := t |}) in
  let* c := load_chat chat in
  let* _ := push (messages c) userMsg in
  let* _ := appendToHistory chat userMsg in
  let* c := load_chat chat in
  let prompt := createConversationPrompt (historyString c) content in
  let* response := callLLMWithValidation llm prompt [] chat
                default_maxRetries default_timeoutMs in
  let* t := Date_now in
  let* llmMsg := alloc (OMessage {| role := Role_llm; content := reply response;
                               timestamp := t |}) in
  let* c := load_chat chat in
  let* _ := push (messages c) llmMsg in
  let* _ := appendToHistory chat llmMsg in
  ret response.

Definition updateSummary (chat : addr) (llm : GeminiLLM) : M LLMReply :=
  let* c := load_chat chat in
  let* elems := load_array (messages c) in
  if (length elems =? 0)%nat then throw EmptyChat
  else
    let prompt := createSummaryPrompt (historyString c) in
    let* response := callLLMWithValidation llm prompt [validateSummaryLength] chat
                  default_maxRetries default_timeoutMs in
    let* c := load_chat chat in
    let* _ := store chat
      (OChat {| name := name c; messages := messages c;
                summary := reply response;
                historyString := historyString c |}) in
    ret response.

(** The copy that [getChats] makes of one chat: a new chat object with a new
    array of new message objects. *)
Definition copy_message (msg : addr) : M addr :=
  let* m := load_message msg in
  alloc (OMessage m).

Definition copy_chat (chat : addr) : M addr :=
  let* c := load_chat chat in
  let* elems := load_array (messages c) in
  let* copies := mapM copy_message elems in
  let* msgs := alloc (OArray copies) in
  alloc (OChat {| name := name c; messages := msgs; summary := summary c;
                  historyString := historyString c |}).

Definition getChats : M (list addr) :=
  fun w => mapM copy_chat (chats w) w.

End LLMChat.

(** ** Reading the heap

    Pure readers of the heap, used to state what the operations do.  They
    follow references the way the program does. *)

Module View.
Import JS Model Validator LLMChat.

Definition heap_chat (h : list Obj) (a : addr) : option Chat :=
  match h !! a with Some (OChat c) => Some c | _ => None end.

Definition heap_array (h : list Obj) (a : addr) : option (list addr) :=
  match h !! a with Some (OArray elems) => Some elems | _ => None end.

Definition heap_message (h : list Obj) (a : addr) : option Message :=
  match h !! a with Some (OMessage m) => Some m | _ => None end.

Fixpoint heap_messages (h : list Obj) (elems : list addr)
    : option (list Message) :=
  match elems with
  | [] => Some []
  | e :: elems' =>
      match heap_message h e, heap_messages h elems' with
      | Some m, Some ms => Some (m :: ms)
      | _, _ => None
      end
  end.

(** The fields of the chat at [chat] and the messages that its array
    leads to. *)
Definition chat_view (h : list Obj) (chat : addr)
    : option (Chat * list Message) :=
  match heap_chat h chat with
  | Some c =>
      match heap_array h (messages c) with
      | Some elems =>
          match heap_messages h elems with
          | Some ms => Some (c, ms)
          | None => None
          end
      | None => None
      end
  | None => None
  end.

(** The transcript that the messages of a chat spell out. *)
Definition transcript (ms : list Message) : jsstring :=
  concat (map history_line ms).

Definition set_historyString (c : Chat) (s : jsstring) : Chat :=
  {| name := name c; messages := messages c; summary := summary c;
     historyString := s |}.

Definition set_summary (c : Chat) (s : jsstring) : Chat :=
  {| name := name c; messages := messages c; summary := s;
     historyString := historyString c |}.

Definition set_name (c : Chat) (s : jsstring) : Chat :=
  {| name := s; messages := messages c; summary := summary c;
     historyString := historyString c |}.

(** The heap after a message object is created, pushed on the array of the
    chat and added to its transcript. *)
Definition heap_with_message (h : list Obj) (chat : addr) (c : Chat)
    (elems : list addr) (m : Message) : list Obj :=
  <[chat := OChat (set_historyString c (historyString c ++ history_line m))]>
    (<[messages c := OArray (elems ++ [length h])]> (h ++ [OMessage m])).

(** The three statements with which [sendMessage] records a message: create
    the object, push it on [chat.messages], append it to the history. *)
Definition record_message (chat : addr) (m : Message) : M unit :=
  (let* msg := alloc (OMessage m) in
   let* c := load_chat chat in
   let* _ := push (messages c) msg in
   appendToHistory chat msg)%monad.

(** What one attempt yields when no extra validator is attached, and the
    time it takes, as functions of the outcome that the backend gives. *)
Definition settled_in_time (o : LLMOutcome) (timeoutMs : N)
    : option Settlement :=
  match o with
  | Settles after s => if after <? timeoutMs then Some s else None
  | Pending => None
  end.

Definition attempt_time (o : LLMOutcome) (timeoutMs : N) : N :=
  match o with
  | Settles after _ => if after <? timeoutMs then after else timeoutMs
  | Pending => timeoutMs
  end.

Definition raw_result (o : LLMOutcome) (timeoutMs : N) : Result jsstring :=
  match settled_in_time o timeoutMs with
  | Some (Resolves raw) => Ok raw
  | Some (Rejects e) => Throw e
  | None => Throw TimedOut
  end.

Definition attempt_result (o : LLMOutcome) (timeoutMs : N) : Result LLMReply :=
  match raw_result o timeoutMs with
  | Ok raw => validateLLMResponse raw
  | Throw e => Throw e
  end.

(** The world after one backend invocation that took [ms] milliseconds. *)
Definition after_call (prompt : jsstring) (ms : N) (w : World) : World :=
  {| heap := heap w; chats := chats w; now := now w + ms;
     calls := S (calls w); trace := trace w ++ [EvCall prompt];
     seen := seen w ++ [(now w, heap w)] |}.

(** A validator that only reads the world. *)
Definition read_only (v : validator) : Prop :=
  forall (text : jsstring) (chat : addr) (w : World), snd (v text chat w) = w.

(** The verdict of the extra validators on a structurally valid reply. *)
Definition checked (validators : list validator) (chat : addr) (w : World)
    (r : Result LLMReply) : Result LLMReply :=
  match r with
  | Ok response =>
      match fst (forEach (fun v : validator => v (reply response) chat)
                   validators w) with
      | Ok _ => Ok response
      | Throw e => Throw e
      end
  | Throw e => Throw e
  end.

(** The events of the failed attempts that are followed by another attempt:
    invocation, warning, back-off delay of 500 ms times the attempt number.
    [first] is the number of the first of these attempts. *)
Fixpoint failed_rounds (prompt : jsstring) (first : nat) (errors : list Error)
    : list Event :=
  match errors with
  | [] => []
  | e :: errors' =>
      [EvCall prompt; EvWarn first e; EvSleep (500 * N.of_nat first)]
      ++ failed_rounds prompt (S first) errors'
  end.

(** The time that each of [n] consecutive attempts takes, the first of them
    making the invocation number [first_call] of the backend. *)
Definition attempt_waits (llm : GeminiLLM) (prompt : jsstring)
    (timeoutMs : N) (first_call n : nat) : list N :=
  map (fun i =>
         attempt_time (executeLLM llm (first_call + i)%nat prompt) timeoutMs)
    (seq 0 n).

(** The times at which the attempts of a cycle invoke the backend, given the
    time each attempt takes: the first at [start], every further one when
    the attempt before it has taken its time and the back-off delay of
    500 ms times the number of that attempt has passed. *)
Fixpoint call_times (start : N) (attempt : nat) (waits : list N) : list N :=
  match waits with
  | [] => []
  | t :: waits' =>
      start :: call_times (start + t + 500 * N.of_nat attempt) (S attempt)
                 waits'
  end.

(** The time at which the cycle ends: when its last attempt has taken its
    time; no delay follows the last attempt. *)
Fixpoint cycle_end (start : N) (attempt : nat) (waits : list N) : N :=
  match waits with
  | [] => start
  | t :: waits' =>
      match waits' with
      | [] => start + t
      | _ :: _ =>
          cycle_end (start + t + 500 * N.of_nat attempt) (S attempt) waits'
      end
  end.

(** The reference does not lead to a chat object whose [messages] is an
    array. *)
Definition chat_fields_missing (h : list Obj) (chat : addr) : Prop :=
  match heap_chat h chat with
  | Some c => heap_array h (messages c) = None
  | None => True
  end.

(** The message objects that [sendMessage] creates. *)
Definition user_message (content : jsstring) (t : N) : Message :=
  {| role := Role_user; content := content; timestamp := t |}.

Definition llm_message (content : jsstring) (t : N) : Message :=
  {| role := Role_llm; content := content; timestamp := t |}.

(** [sendMessage] after the user message is recorded: the rest of its
    body. *)
Definition await_reply (chat : addr) (content : jsstring) (llm : GeminiLLM)
    : M LLMReply :=
  (let* c := load_chat chat in
   let prompt := createConversationPrompt (historyString c) content in
   let* response := callLLMWithValidation llm prompt [] chat
                      default_maxRetries default_timeoutMs in
   let* t := Date_now in
   let* _ := record_message chat (llm_message (reply response) t) in
   ret response)%monad.

(** The total that the summary check compares with, as the specification
    words it: the sum of [content.length] over the messages. *)
Definition content_total (ms : list Message) : nat :=
  sum_list (map (fun m => length (content m)) ms).

(** The chat object that [makeChat] creates, given its array. *)
Definition new_chat (name : jsstring) (msgs : addr) : Chat :=
  {| name := name; messages := msgs; summary := []; historyString := [] |}.

(** The raw text [{"reply":"X"}], and a text wrapped in a fence labelled
    [json], each fence on a line of its own. *)
Definition reply_json (X : jsstring) : jsstring :=
  js "{" ++ [dquote] ++ js "reply" ++ [dquote] ++ js ":" ++ [dquote] ++ X
  ++ [dquote] ++ js "}".

Definition fenced (body : jsstring) : jsstring :=
  js "```json" ++ [newline] ++ body ++ [newline] ++ js "```".

End View.

(** ** Sequences of operations *)

Module Run.
Import JS Model Validator LLMChat View.

(** A call of a public method of [LLMChat], with its arguments. *)
Inductive Op :=
| OpMakeChat (name : jsstring)
| OpDeleteChat (chat : addr)
| OpRenameChat (chat : addr) (newName : jsstring)
| OpSendMessage (chat : addr) (content : jsstring) (llm : GeminiLLM)
| OpUpdateSummary (chat : addr) (llm : GeminiLLM)
| OpGetChats.

(** The world after the call, whether it returned or threw. *)
Definition run_op (op : Op) (w : World) : World :=
  match op with
  | OpMakeChat name => snd (makeChat name w)
  | OpDeleteChat chat => snd (deleteChat chat w)
  | OpRenameChat chat newName => snd (renameChat chat newName w)
  | OpSendMessage chat content llm => snd (sendMessage chat content llm w)
  | OpUpdateSummary chat llm => snd (updateSummary chat llm w)
  | OpGetChats => snd (getChats w)
  end.

Definition run_ops (ops : list Op) (w : World) : World :=
  fold_left (fun w op => run_op op w) ops w.

(** The history of a chat spells out the messages that its array holds. *)
Definition chat_consistent (h : list Obj) (c : Chat) : Prop :=
  exists (es : list addr) (ms : list Message),
    heap_array h (messages c) = Some es
    /\ heap_messages h es = Some ms
    /\ historyString c = transcript ms.

(** Every chat object is consistent and no two chat objects share their
    array. *)
Definition heap_consistent (h : list Obj) : Prop :=
  (forall a c, heap_chat h a = Some c -> chat_consistent h c)
  /\ (forall a b ca cb,
        heap_chat h a = Some ca -> heap_chat h b = Some cb ->
        messages ca = messages cb -> a = b).

(** The heap is consistent and the registered references are chats. *)
Definition world_consistent (w : World) : Prop :=
  heap_consistent (heap w)
  /\ Forall (fun a => is_Some (heap_chat (heap w) a)) (chats w).

(** What a caller can observe of a chat: its name, summary, history and
    messages. *)
Definition snapshot (h : list Obj) (chat : addr)
    : option (jsstring * jsstring * jsstring * list Message) :=
  match chat_view h chat with
  | Some (c, ms) => Some (name c, summary c, historyString c, ms)
  | None => None
  end.

(** The objects that make up a chat: the chat object, its array, the
    message objects. *)
Definition footprint (h : list Obj) (chat : addr) : list addr :=
  match heap_chat h chat with
  | Some c =>
      chat :: messages c
      :: match heap_array h (messages c) with Some es => es | None => [] end
  | None => [chat]
  end.

(** The objects that [getChats] creates for the copy of a chat. *)
Definition copy_objects (h : list Obj) (c : Chat) (ms : list Message)
    : list Obj :=
  map OMessage ms
  ++ [OArray (seq (length h) (length ms));
      OChat {| name := name c; messages := (length h + length ms)%nat;
               summary := summary c; historyString := historyString c |}].

(** The second heap has, below [n], what the first has there. *)
Definition agree_below (n : nat) (h h' : list Obj) : Prop :=
  forall i, (i < n)%nat -> h' !! i = h !! i.

(** [copy] is, in [h'], a copy of the chat [chat] of [h] made of objects
    that [h] does not have. *)
Definition is_copy (h h' : list Obj) (chat copy : addr) : Prop :=
  is_Some (snapshot h chat)
  /\ snapshot h' copy = snapshot h chat
  /\ Forall (fun x => (length h <= x)%nat) (footprint h' copy).

(** The first world's heap is a prefix of the second's. *)
Definition grows (w w' : World) : Prop :=
  exists ext, heap w' = heap w ++ ext.

(** A computation that, whatever it does, leaves the objects there are in
    place. *)
Definition only_grows {A} (m : M A) : Prop :=
  forall w, grows w (snd (m w)).

End Run.

(** ** Properties of texts and parse results *)

Module Text.
Import JS Model Validator.

(** A parsing function did not run out of fuel and, when it succeeded, left
    less input than it was given. *)
Definition consumes {A} (r : parsed A) (s : jsstring) : Prop :=
  r <> POutOfFuel
  /\ forall a rest, r = POk a rest -> (length rest < length s)%nat.

(** Three backticks in a row occur somewhere in the text. *)
Fixpoint has_fence (s : jsstring) : bool :=
  match s with
  | [] => false
  | _ :: r => starts_with (js "```") s || has_fence r
  end.

(** A code unit that stands for itself inside a JSON string literal. *)
Definition plain (c : N) : Prop := (32 <= c)%N /\ c <> dquote /\ c <> backslash.

Definition is_JSON_object (v : JSON) : Prop :=
  match v with JObject _ => True | _ => False end.

Definition is_JSON_string (v : JSON) : Prop :=
  match v with JString _ => True | _ => False end.

End Text.

(** ** Sample backends and worlds *)

Module Demo.
Import JS Model Validator LLMChat View.

(** Answers every prompt with [{"reply":"Hello!"}] after 120 ms. *)
Definition hello_llm : GeminiLLM :=
  {| executeLLM := fun _ _ => Settles 120 (Resolves (reply_json (js "Hello!"))) |}.

(** Rejects the first invocation, answers the second with text that is not
    JSON, and answers properly from then on. *)
Definition flaky_llm : GeminiLLM :=
  {| executeLLM := fun n _ =>
       match n with
       | O => Settles 50 (Rejects (BackendError (js "quota exceeded")))
       | S O => Settles 80 (Resolves (js "Sure! Hello"))
       | _ => Settles 120 (Resolves (fenced (reply_json (js "Hello!"))))
       end |}.

(** Never answers properly: a rejection, an invocation that never settles,
    another rejection, and so on. *)
Definition dead_llm : GeminiLLM :=
  {| executeLLM := fun n _ =>
       match n with
       | S O => Pending
       | _ => Settles 10 (Rejects
                (BackendError (js "service unavailable " ++ [48 + N.of_nat n])))
       end |}.

(** One chat named X, no message yet; the chat object is at address 1 and
    its array at address 0. *)
Definition fresh_world : World := snd (makeChat (js "X") init).

(** The same chat after one exchange with [hello_llm]. *)
Definition greeted_world : World :=
  snd (sendMessage 1%nat (js "Hi") hello_llm fresh_world).

Definition greeted_chat : Chat :=
  {| name := js "X"; messages := 0%nat; summary := [];
     historyString :=
       js "[USER] Hi" ++ [newline] ++ js "[LLM] Hello!" ++ [newline] |}.

Definition greeted_messages : list Message :=
  [user_message (js "Hi") 0; llm_message (js "Hello!") 120].

(** A chat whose two messages total ten code units. *)
Definition ten_world : World :=
  snd (sendMessage 1%nat (js "Hiya") hello_llm fresh_world).

Definition ten_chat : Chat :=
  {| name := js "X"; messages := 0%nat; summary := [];
     historyString :=
       js "[USER] Hiya" ++ [newline] ++ js "[LLM] Hello!" ++ [newline] |}.

Definition ten_messages : list Message :=
  [user_message (js "Hiya") 0; llm_message (js "Hello!") 120].

(** Two chats, the first one with an exchange. *)
Definition two_chats : list Run.Op :=
  [Run.OpMakeChat (js "X"); Run.OpSendMessage 1%nat (js "Hi") hello_llm;
   Run.OpMakeChat (js "Y")].

End Demo.


(** ** Further notions: the time an attempt cycle may take, late answers,
    the target of an operation, objects with two members *)

Module Extra.
Import JS Model Validator LLMChat View Run Text.

Definition is_JSON_array (v : JSON) : Prop :=
  match v with JArray _ => True | _ => False end.

(** The text ["k":"v"] of one member and the text of an object with two
    members, written without white space. *)
Definition member_json (k v : jsstring) : jsstring :=
  [dquote] ++ k ++ [dquote] ++ js ":" ++ [dquote] ++ v ++ [dquote].

Definition object2_json (k1 v1 k2 v2 : jsstring) : jsstring :=
  js "{" ++ member_json k1 v1 ++ js "," ++ member_json k2 v2 ++ js "}".

(** A text made of JSON white space. *)
Definition all_json_ws (s : jsstring) : Prop :=
  Forall (fun c => is_json_ws c = true) s.

(** The text [{"reply":"X"}] with white space after the opening brace,
    around the colon and before the closing brace. *)
Definition spaced_reply_json (w1 w2 w3 w4 X : jsstring) : jsstring :=
  js "{" ++ w1 ++ [dquote] ++ js "reply" ++ [dquote] ++ w2 ++ js ":" ++ w3
  ++ [dquote] ++ X ++ [dquote] ++ w4 ++ js "}".


(** A text made of code units that [trim] strips. *)
Definition all_js_space (s : jsstring) : Prop :=
  Forall (fun c => is_js_space c = true) s.

(** The back-off delays of an attempt cycle that is at attempt number
    [attempt] with [remaining] attempts left: 500 ms times the attempt
    number after every attempt but the last. *)
Fixpoint backoff (attempt remaining : nat) : N :=
  match remaining with
  | O => 0
  | S O => 0
  | S remaining' => 500 * N.of_nat attempt + backoff (S attempt) remaining'
  end.

(** The longest that an attempt cycle can take: every attempt runs into the
    time-out and is followed by its back-off delay. *)
Definition cycle_time (maxRetries : nat) (timeoutMs : N) : N :=
  N.of_nat maxRetries * timeoutMs + backoff 1 maxRetries.



(** The result of a cycle of three attempts whose individual results are
    [r0], [r1], [r2], and the number of attempts it makes. *)
Definition first_reply (r0 r1 r2 : Result LLMReply) : Result LLMReply :=
  match r0 with
  | Ok response => Ok response
  | Throw _ => match r1 with Ok response => Ok response | Throw _ => r2 end
  end.

Definition attempts_made (r0 r1 : Result LLMReply) : nat :=
  match r0 with
  | Ok _ => 1
  | Throw _ => match r1 with Ok _ => 2 | Throw _ => 3 end
  end.


(** The event is not an invocation, or it is one with this prompt. *)
Definition call_with (prompt : jsstring) (ev : Event) : Prop :=
  match ev with EvCall p => p = prompt | _ => True end.

(** A computation that neither reads nor writes the field [chats] of the
    store: it runs the same whatever the registered chats are. *)
Definition registry_blind {A} (m : M A) : Prop :=
  forall (cs : list addr) (w : World),
    m (set_chats cs w) = (fst (m w), set_chats cs (snd (m w))).

End Extra.
Import JS Model Validator LLMChat View Run Text Demo Extra.
Local Open Scope monad_scope.
Local Open Scope nat_scope.

(** ** Running the primitives *)

Lemma run_bind {A B} (m : M A) (k : A -> M B) (w : World) :
  bind m k w =
  match m w with
  | (Ok a, w') => k a w'
  | (Throw e, w') => (Throw e, w')
  end.
Proof. reflexivity. Qed.

Lemma run_load_chat (a : addr) (w : World) :
  load_chat a w =
  (match heap_chat (heap w) a with Some c => Ok c | None => Throw TypeError end,
   w).
Proof.
  unfold load_chat, load, heap_chat, bind.
  destruct (heap w !! a) as [[ | | ]|]; reflexivity.
Qed.

Lemma run_load_array (a : addr) (w : World) :
  load_array a w =
  (match heap_array (heap w) a with
   | Some es => Ok es
   | None => Throw TypeError
   end, w).
Proof.
  unfold load_array, load, heap_array, bind.
  destruct (heap w !! a) as [[ | | ]|]; reflexivity.
Qed.

Lemma run_load_message (a : addr) (w : World) :
  load_message a w =
  (match heap_message (heap w) a with
   | Some m => Ok m
   | None => Throw TypeError
   end, w).
Proof.
  unfold load_message, load, heap_message, bind.
  destruct (heap w !! a) as [[ | | ]|]; reflexivity.
Qed.

Lemma run_load_messages (es : list addr) (w : World) :
  mapM load_message es w =
  (match heap_messages (heap w) es with
   | Some ms => Ok ms
   | None => Throw TypeError
   end, w).
Proof.
  induction es as [|e es IH]; simpl; [reflexivity|].
  rewrite run_bind, run_load_message.
  destruct (heap_message (heap w) e); [|reflexivity].
  rewrite run_bind, IH.
  destruct (heap_messages (heap w) es); reflexivity.
Qed.

Lemma run_chat_messages (chat : addr) (w : World) :
  chat_messages chat w =
  (match chat_view (heap w) chat with
   | Some (_, ms) => Ok ms
   | None => Throw TypeError
   end, w).
Proof.
  unfold chat_messages, chat_view.
  rewrite run_bind, run_load_chat.
  destruct (heap_chat (heap w) chat) as [c|]; [|reflexivity].
  rewrite run_bind, run_load_array.
  destruct (heap_array (heap w) (messages c)) as [es|]; [|reflexivity].
  rewrite run_load_messages.
  destruct (heap_messages (heap w) es); reflexivity.
Qed.

(** ** Heap lookups after an update *)

Lemma heap_chat_Some (h : list Obj) (a : addr) (c : Chat) :
  heap_chat h a = Some c <-> h !! a = Some (OChat c).
Proof.
  unfold heap_chat. destruct (h !! a) as [[ | | ]|]; naive_solver.
Qed.

Lemma heap_array_Some (h : list Obj) (a : addr) (es : list addr) :
  heap_array h a = Some es <-> h !! a = Some (OArray es).
Proof.
  unfold heap_array. destruct (h !! a) as [[ | | ]|]; naive_solver.
Qed.

Lemma heap_message_Some (h : list Obj) (a : addr) (m : Message) :
  heap_message h a = Some m <-> h !! a = Some (OMessage m).
Proof.
  unfold heap_message. destruct (h !! a) as [[ | | ]|]; naive_solver.
Qed.

Lemma heap_messages_Some (h : list Obj) (es : list addr) (ms : list Message) :
  heap_messages h es = Some ms <->
  Forall2 (fun e m => h !! e = Some (OMessage m)) es ms.
Proof.
  revert ms. induction es as [|e es IH]; intros ms; simpl.
  - split; [intros [= <-]; constructor | intros H; inversion H; reflexivity].
  - destruct (heap_message h e) as [m|] eqn:Hm.
    + apply heap_message_Some in Hm.
      destruct (heap_messages h es) as [ms'|] eqn:Hms.
      * split.
        -- intros [= <-]. constructor; [assumption | by apply IH].
        -- intros H. inversion H as [|? m' ? ms'' Hm' Hrest]; subst.
           apply IH in Hrest. congruence.
      * split; [discriminate|].
        intros H. inversion H as [|? m' ? ms'' Hm' Hrest]; subst.
        apply IH in Hrest. discriminate.
    + split; [discriminate|].
      intros H. inversion H as [|? m' ? ms'' Hm' Hrest]; subst.
      apply heap_message_Some in Hm'. congruence.
Qed.

(** Reading messages depends only on the cells read. *)
Lemma heap_messages_ext (h h' : list Obj) (es : list addr) :
  (forall e, e ∈ es -> h' !! e = h !! e) ->
  heap_messages h' es = heap_messages h es.
Proof.
  induction es as [|e es IH]; intros Hext; simpl; [reflexivity|].
  unfold heap_message. rewrite Hext by set_solver.
  rewrite IH; [reflexivity|]. intros e' He'. apply Hext. set_solver.
Qed.

Lemma heap_messages_app (h : list Obj) (es1 es2 : list addr) :
  heap_messages h (es1 ++ es2) =
  match heap_messages h es1, heap_messages h es2 with
  | Some ms1, Some ms2 => Some (ms1 ++ ms2)
  | _, _ => None
  end.
Proof.
  induction es1 as [|e es1 IH]; simpl.
  - destruct (heap_messages h es2); reflexivity.
  - rewrite IH. destruct (heap_message h e); [|reflexivity].
    destruct (heap_messages h es1); [|reflexivity].
    destruct (heap_messages h es2); reflexivity.
Qed.

Lemma heap_messages_elem (h : list Obj) (es : list addr) (ms : list Message) e :
  heap_messages h es = Some ms -> e ∈ es ->
  exists m, h !! e = Some (OMessage m).
Proof.
  intros H He. apply heap_messages_Some in H.
  apply list_elem_of_lookup in He as [i Hi].
  destruct (Forall2_lookup_l _ _ _ _ _ H Hi) as (m & _ & Hm). eauto.
Qed.

Lemma lookup_snoc (h : list Obj) (o : Obj) (a : addr) :
  (h ++ [o]) !! a = if decide (a = length h) then Some o else h !! a.
Proof.
  case_decide as Ha.
  - subst a. by rewrite list_lookup_middle.
  - destruct (decide (a < length h)) as [Hlt|Hge].
    + by rewrite lookup_app_l.
    + rewrite !lookup_ge_None_2; [done | lia | rewrite length_app; simpl; lia].
Qed.

Lemma heap_chat_snoc (h : list Obj) (o : Obj) (a : addr) :
  heap_chat (h ++ [o]) a =
  if decide (a = length h) then match o with OChat c => Some c | _ => None end
  else heap_chat h a.
Proof. unfold heap_chat. rewrite lookup_snoc. by case_decide. Qed.

Lemma heap_array_snoc (h : list Obj) (o : Obj) (a : addr) :
  heap_array (h ++ [o]) a =
  if decide (a = length h) then match o with OArray es => Some es | _ => None end
  else heap_array h a.
Proof. unfold heap_array. rewrite lookup_snoc. by case_decide. Qed.

Lemma heap_message_snoc (h : list Obj) (o : Obj) (a : addr) :
  heap_message (h ++ [o]) a =
  if decide (a = length h) then match o with OMessage m => Some m | _ => None end
  else heap_message h a.
Proof. unfold heap_message. rewrite lookup_snoc. by case_decide. Qed.

Lemma heap_chat_lt (h : list Obj) (a : addr) (c : Chat) :
  heap_chat h a = Some c -> a < length h.
Proof. intros H%heap_chat_Some. by eapply lookup_lt_Some. Qed.

Lemma heap_array_lt (h : list Obj) (a : addr) (es : list addr) :
  heap_array h a = Some es -> a < length h.
Proof. intros H%heap_array_Some. by eapply lookup_lt_Some. Qed.

(** Past the end of the heap there is nothing to read. *)
Lemma heap_chat_snoc_message (h : list Obj) (m : Message) (a : addr) :
  heap_chat (h ++ [OMessage m]) a = heap_chat h a.
Proof.
  rewrite heap_chat_snoc. case_decide as Ha; [|done]. subst a.
  unfold heap_chat. by rewrite lookup_ge_None_2.
Qed.

Lemma heap_array_snoc_message (h : list Obj) (m : Message) (a : addr) :
  heap_array (h ++ [OMessage m]) a = heap_array h a.
Proof.
  rewrite heap_array_snoc. case_decide as Ha; [|done]. subst a.
  unfold heap_array. by rewrite lookup_ge_None_2.
Qed.

Lemma heap_chat_insert_ne (h : list Obj) (a b : addr) (o : Obj) :
  a <> b -> heap_chat (<[a:=o]> h) b = heap_chat h b.
Proof. intros. unfold heap_chat. by rewrite list_lookup_insert_ne. Qed.

Lemma heap_array_insert_ne (h : list Obj) (a b : addr) (o : Obj) :
  a <> b -> heap_array (<[a:=o]> h) b = heap_array h b.
Proof. intros. unfold heap_array. by rewrite list_lookup_insert_ne. Qed.

Lemma heap_message_insert_ne (h : list Obj) (a b : addr) (o : Obj) :
  a <> b -> heap_message (<[a:=o]> h) b = heap_message h b.
Proof. intros. unfold heap_message. by rewrite list_lookup_insert_ne. Qed.

Lemma heap_chat_insert_eq (h : list Obj) (a : addr) (c : Chat) :
  a < length h -> heap_chat (<[a:=OChat c]> h) a = Some c.
Proof. intros. unfold heap_chat. by rewrite list_lookup_insert_eq. Qed.

Lemma heap_array_insert_eq (h : list Obj) (a : addr) (es : list addr) :
  a < length h -> heap_array (<[a:=OArray es]> h) a = Some es.
Proof. intros. unfold heap_array. by rewrite list_lookup_insert_eq. Qed.

Lemma heap_message_snoc_new (h : list Obj) (m : Message) :
  heap_message (h ++ [OMessage m]) (length h) = Some m.
Proof. rewrite heap_message_snoc. by case_decide. Qed.

Lemma run_record_message (chat : addr) (m : Message) (w : World) :
  record_message chat m w =
  match heap_chat (heap w) chat with
  | Some c =>
      match heap_array (heap w) (messages c) with
      | Some es => (Ok tt, set_heap (heap_with_message (heap w) chat c es m) w)
      | None => (Throw TypeError, set_heap (heap w ++ [OMessage m]) w)
      end
  | None => (Throw TypeError, set_heap (heap w ++ [OMessage m]) w)
  end.
Proof.
  unfold record_message. rewrite run_bind. cbn [alloc].
  rewrite run_bind, run_load_chat. cbn [heap set_heap].
  rewrite heap_chat_snoc_message.
  destruct (heap_chat (heap w) chat) as [c|] eqn:Hc; [|reflexivity].
  unfold push. rewrite !run_bind, run_load_array. cbn [heap set_heap].
  rewrite heap_array_snoc_message.
  destruct (heap_array (heap w) (messages c)) as [es|] eqn:Ha; [|reflexivity].
  cbn [store heap set_heap].
  pose proof (heap_chat_lt _ _ _ Hc) as Hclt.
  pose proof (heap_array_lt _ _ _ Ha) as Halt.
  assert (chat <> messages c) as Hne.
  { intros E. apply heap_chat_Some in Hc. apply heap_array_Some in Ha.
    rewrite E in Hc. congruence. }
  unfold appendToHistory. rewrite run_bind, run_load_message.
  cbn [heap set_heap].
  rewrite heap_message_insert_ne by lia. rewrite heap_message_snoc_new.
  rewrite run_bind, run_load_chat. cbn [heap set_heap].
  rewrite heap_chat_insert_ne by done. rewrite heap_chat_snoc_message, Hc.
  reflexivity.
Qed.

(** ** The JSON parser: fuel *)

Lemma skip_ws_length (s : jsstring) : length (skip_ws s) <= length s.
Proof.
  induction s as [|c r IH]; simpl; [lia|].
  destruct (is_json_ws c); simpl; lia.
Qed.

Lemma parse_string_chars_length (s v rest : jsstring) :
  parse_string_chars s = Some (v, rest) -> length rest < length s.
Proof.
  remember (length s) as n eqn:Hn. revert s Hn v rest.
  induction n as [n IH] using lt_wf_ind. intros s -> v rest.
  assert (forall s' v' rest', length s' < length s ->
            parse_string_chars s' = Some (v', rest') ->
            length rest' < length s') as IH'
    by (intros s' v' rest' Hlt; by apply (IH (length s'))).
  clear IH. rename IH' into IH.
  destruct s as [|c r]; [discriminate|].
  cbn [parse_string_chars].
  destruct (c =? dquote)%N.
  { intros [= <- <-]. simpl. lia. }
  destruct (c =? backslash)%N.
  - destruct r as [|e r1]; [discriminate|].
    destruct (e =? 117)%N.
    + destruct r1 as [|a [|b [|x [|d r2]]]]; try discriminate.
      destruct (hex4 a b x d); [|discriminate].
      destruct (parse_string_chars r2) as [[v' rest']|] eqn:Hrec; [|discriminate].
      intros [= <- <-]. apply IH in Hrec; simpl in *; lia.
    + destruct (simple_escape e); [|discriminate].
      destruct (parse_string_chars r1) as [[v' rest']|] eqn:Hrec; [|discriminate].
      intros [= <- <-]. apply IH in Hrec; simpl in *; lia.
  - destruct (c <? 32)%N; [discriminate|].
    destruct (parse_string_chars r) as [[v' rest']|] eqn:Hrec; [|discriminate].
    intros [= <- <-]. apply IH in Hrec; simpl in *; lia.
Qed.

Lemma span_digits_length (s ds rest : jsstring) :
  span_digits s = (ds, rest) -> length rest <= length s.
Proof.
  revert ds rest. induction s as [|c r IH]; intros ds rest; simpl.
  - intros [= <- <-]. simpl. lia.
  - destruct (is_digit c).
    + destruct (span_digits r) as [ds' rest'] eqn:Hrec.
      intros [= <- <-]. specialize (IH _ _ eq_refl). lia.
    + intros [= <- <-]. simpl. lia.
Qed.

Lemma parse_number_length (s lexeme rest : jsstring) :
  parse_number s = Some (lexeme, rest) -> length rest < length s.
Proof.
  unfold parse_number.
  set (p := match s with
            | c :: r => if (c =? 45)%N then ([c], r) else ([], s)
            | [] => ([], s)
            end).
  assert (length (snd p) <= length s) as Hp.
  { subst p. destruct s as [|c r]; [simpl; lia|].
    destruct (c =? 45)%N; simpl; lia. }
  destruct p as [sign s1]. cbn [snd] in Hp.
  destruct (parse_int_part s1) as [[i s2]|] eqn:Hi; [|discriminate].
  assert (length s2 < length s1) as H2.
  { unfold parse_int_part in Hi. destruct s1 as [|c r]; [discriminate|].
    destruct (c =? 48)%N; [injection Hi as <- <-; simpl; lia|].
    destruct (is_digit c); [|discriminate].
    destruct (span_digits r) as [ds rest'] eqn:Hs.
    injection Hi as <- <-. apply span_digits_length in Hs. simpl. lia. }
  destruct (parse_frac_part s2) as [[f s3]|] eqn:Hf; [|discriminate].
  assert (length s3 <= length s2) as H3.
  { unfold parse_frac_part in Hf. destruct s2 as [|c r].
    - injection Hf as <- <-. simpl. lia.
    - destruct (c =? 46)%N.
      + destruct (span_digits r) as [ds rest'] eqn:Hs.
        apply span_digits_length in Hs.
        destruct ds; [discriminate|]. injection Hf as <- <-. simpl. lia.
      + injection Hf as <- <-. simpl. lia. }
  destruct (parse_exp_part s3) as [[e s4]|] eqn:He; [|discriminate].
  assert (length s4 <= length s3) as H4.
  { unfold parse_exp_part in He. destruct s3 as [|c r].
    - injection He as <- <-. simpl. lia.
    - destruct ((c =? 101)%N || (c =? 69)%N).
      + set (q := match r with
                  | g :: r' =>
                      if (g =? 43)%N || (g =? 45)%N then ([g], r') else ([], r)
                  | [] => ([], r)
                  end) in He.
        assert (length (snd q) <= length r) as Hq.
        { subst q. destruct r as [|g r']; [simpl; lia|].
          destruct ((g =? 43)%N || (g =? 45)%N); simpl; lia. }
        destruct q as [sg r1]. cbn [snd] in Hq.
        destruct (span_digits r1) as [ds rest'] eqn:Hs.
        apply span_digits_length in Hs.
        destruct ds; [discriminate|]. injection He as <- <-. simpl. lia.
      + injection He as <- <-. simpl. lia. }
  intros [= <- <-]. lia.
Qed.

Lemma parse_value_S (fuel : nat) (s : jsstring) :
  parse_value (S fuel) s =
  match s with
  | [] => PSyntaxError
  | c :: r =>
      if (c =? 123)%N then
        match skip_ws r with
        | d :: r1 =>
            if (d =? 125)%N then POk (JObject []) r1
            else
              match parse_members fuel [] (d :: r1) with
              | POk props rest => POk (JObject props) rest
              | PSyntaxError => PSyntaxError
              | POutOfFuel => POutOfFuel
              end
        | [] => PSyntaxError
        end
      else if (c =? 91)%N then
        match skip_ws r with
        | d :: r1 =>
            if (d =? 93)%N then POk (JArray []) r1
            else
              match parse_elements fuel [] (d :: r1) with
              | POk elems rest => POk (JArray elems) rest
              | PSyntaxError => PSyntaxError
              | POutOfFuel => POutOfFuel
              end
        | [] => PSyntaxError
        end
      else if (c =? dquote)%N then
        match parse_string_chars r with
        | Some (v, rest) => POk (JString v) rest
        | None => PSyntaxError
        end
      else if starts_with (js "true") s then POk (JBool true) (drop 4 s)
      else if starts_with (js "false") s then POk (JBool false) (drop 5 s)
      else if starts_with (js "null") s then POk JNull (drop 4 s)
      else
        match parse_number s with
        | Some (lexeme, rest) => POk (JNumber lexeme) rest
        | None => PSyntaxError
        end
  end.
Proof. reflexivity. Qed.

Lemma parse_elements_S (fuel : nat) (acc : list JSON) (s : jsstring) :
  parse_elements (S fuel) acc s =
  match parse_value fuel s with
  | POk v rest =>
      match skip_ws rest with
      | c :: r =>
          if (c =? 44)%N then parse_elements fuel (acc ++ [v]) (skip_ws r)
          else if (c =? 93)%N then POk (acc ++ [v]) r
          else PSyntaxError
      | [] => PSyntaxError
      end
  | PSyntaxError => PSyntaxError
  | POutOfFuel => POutOfFuel
  end.
Proof. reflexivity. Qed.

Lemma parse_members_S (fuel : nat) (acc : list (jsstring * JSON))
    (s : jsstring) :
  parse_members (S fuel) acc s =
  match s with
  | c :: r =>
      if (c =? dquote)%N then
        match parse_string_chars r with
        | Some (k, r1) =>
            match skip_ws r1 with
            | d :: r2 =>
                if (d =? 58)%N then
                  match parse_value fuel (skip_ws r2) with
                  | POk v rest =>
                      match skip_ws rest with
                      | e :: r3 =>
                          if (e =? 44)%N then
                            parse_members fuel (set_prop k v acc) (skip_ws r3)
                          else if (e =? 125)%N then POk (set_prop k v acc) r3
                          else PSyntaxError
                      | [] => PSyntaxError
                      end
                  | PSyntaxError => PSyntaxError
                  | POutOfFuel => POutOfFuel
                  end
                else PSyntaxError
            | [] => PSyntaxError
            end
        | None => PSyntaxError
        end
      else PSyntaxError
  | [] => PSyntaxError
  end.
Proof. reflexivity. Qed.

Lemma parse_fuel (fuel : nat) :
  (forall s, 2 * length s + 1 <= fuel -> consumes (parse_value fuel s) s)
  /\ (forall acc s, 2 * length s + 2 <= fuel ->
        consumes (parse_elements fuel acc s) s)
  /\ (forall acc s, 2 * length s + 2 <= fuel ->
        consumes (parse_members fuel acc s) s).
Proof.
  induction fuel as [|fuel (IHv & IHe & IHm)].
  { repeat split; intros; lia. }
  split; [|split].
  - intros s Hfuel. rewrite parse_value_S.
    destruct s as [|c r]; [split; [done|discriminate]|].
    cbn [length] in Hfuel.
    destruct (c =? 123)%N.
    { pose proof (skip_ws_length r) as Hws.
      destruct (skip_ws r) as [|d r1]; [split; [done|discriminate]|].
      cbn [length] in Hws.
      destruct (d =? 125)%N.
      - split; [done|]. intros a rest [= <- <-]. cbn [length]. lia.
      - destruct (IHm [] (d :: r1)) as [Hne Hlen]; [cbn [length]; lia|].
        destruct (parse_members fuel [] (d :: r1)) as [props rest| |];
          [|split; [done|discriminate]|done].
        split; [done|]. intros a rest' [= <- <-].
        specialize (Hlen _ _ eq_refl). cbn [length] in *. lia. }
    destruct (c =? 91)%N.
    { pose proof (skip_ws_length r) as Hws.
      destruct (skip_ws r) as [|d r1]; [split; [done|discriminate]|].
      cbn [length] in Hws.
      destruct (d =? 93)%N.
      - split; [done|]. intros a rest [= <- <-]. cbn [length]. lia.
      - destruct (IHe [] (d :: r1)) as [Hne Hlen]; [cbn [length]; lia|].
        destruct (parse_elements fuel [] (d :: r1)) as [elems rest| |];
          [|split; [done|discriminate]|done].
        split; [done|]. intros a rest' [= <- <-].
        specialize (Hlen _ _ eq_refl). cbn [length] in *. lia. }
    destruct (c =? dquote)%N.
    { destruct (parse_string_chars r) as [[v rest]|] eqn:Hs;
        [|split; [done|discriminate]].
      apply parse_string_chars_length in Hs.
      split; [done|]. intros a rest' [= <- <-]. cbn [length]. lia. }
    destruct (starts_with (js "true") (c :: r)).
    { split; [done|]. intros a rest' [= <- <-].
      rewrite length_drop. cbn [length]. lia. }
    destruct (starts_with (js "false") (c :: r)).
    { split; [done|]. intros a rest' [= <- <-].
      rewrite length_drop. cbn [length]. lia. }
    destruct (starts_with (js "null") (c :: r)).
    { split; [done|]. intros a rest' [= <- <-].
      rewrite length_drop. cbn [length]. lia. }
    destruct (parse_number (c :: r)) as [[lexeme rest]|] eqn:Hn;
      [|split; [done|discriminate]].
    apply parse_number_length in Hn.
    split; [done|]. intros a rest' [= <- <-]. done.
  - intros acc s Hfuel. rewrite parse_elements_S.
    destruct (IHv s) as [Hne Hlen]; [lia|].
    destruct (parse_value fuel s) as [v rest| |];
      [|split; [done|discriminate]|done].
    specialize (Hlen _ _ eq_refl).
    pose proof (skip_ws_length rest) as Hws.
    destruct (skip_ws rest) as [|c r]; [split; [done|discriminate]|].
    cbn [length] in Hws.
    destruct (c =? 44)%N.
    + pose proof (skip_ws_length r) as Hws2.
      destruct (IHe (acc ++ [v]) (skip_ws r)) as [Hne' Hlen']; [lia|].
      split; [done|]. intros a rest' Heq.
      specialize (Hlen' _ _ Heq). lia.
    + destruct (c =? 93)%N; [|split; [done|discriminate]].
      split; [done|]. intros a rest' [= <- <-]. lia.
  - intros acc s Hfuel. rewrite parse_members_S.
    destruct s as [|c r]; [split; [done|discriminate]|].
    cbn [length] in Hfuel.
    destruct (c =? dquote)%N; [|split; [done|discriminate]].
    destruct (parse_string_chars r) as [[k r1]|] eqn:Hs;
      [|split; [done|discriminate]].
    apply parse_string_chars_length in Hs.
    pose proof (skip_ws_length r1) as Hws1.
    destruct (skip_ws r1) as [|d r2]; [split; [done|discriminate]|].
    cbn [length] in Hws1.
    destruct (d =? 58)%N; [|split; [done|discriminate]].
    pose proof (skip_ws_length r2) as Hws2.
    destruct (IHv (skip_ws r2)) as [Hne Hlen]; [lia|].
    destruct (parse_value fuel (skip_ws r2)) as [v rest| |];
      [|split; [done|discriminate]|done].
    specialize (Hlen _ _ eq_refl).
    pose proof (skip_ws_length rest) as Hws3.
    destruct (skip_ws rest) as [|e r3]; [split; [done|discriminate]|].
    cbn [length] in Hws3.
    destruct (e =? 44)%N.
    + pose proof (skip_ws_length r3) as Hws4.
      destruct (IHm (set_prop k v acc) (skip_ws r3)) as [Hne' Hlen']; [lia|].
      split; [done|]. intros a rest' Heq.
      specialize (Hlen' _ _ Heq). cbn [length]. lia.
    + destruct (e =? 125)%N; [|split; [done|discriminate]].
      split; [done|]. intros a rest' [= <- <-]. cbn [length]. lia.
Qed.

(** The fuel that [JSON_parse] provides is never used up. *)
Lemma JSON_parse_fuel (text : jsstring) :
  parse_value (2 * length (skip_ws text) + 1) (skip_ws text) <> POutOfFuel.
Proof. apply parse_fuel. lia. Qed.

(** ** The JSON parser: objects have each key once *)

Lemma set_prop_keys (k : jsstring) (v : JSON) (props : list (jsstring * JSON)) :
  map fst (set_prop k v props) =
  if bool_decide (k ∈ map fst props) then map fst props
  else map fst props ++ [k].
Proof.
  induction props as [|[k' v'] props IH]; [reflexivity|].
  cbn [set_prop map fst]. unfold jsstring_eqb.
  destruct (decide (k' = k)) as [->|Hne].
  - rewrite bool_decide_eq_true_2 by done. cbn [map fst].
    by rewrite bool_decide_eq_true_2 by (left).
  - rewrite bool_decide_eq_false_2 by done. cbn [map fst]. rewrite IH.
    destruct (decide (k ∈ map fst props)) as [Hin|Hnin].
    + rewrite !bool_decide_eq_true_2; [done | by right | done].
    + rewrite !bool_decide_eq_false_2; [done | | done].
      rewrite elem_of_cons. naive_solver.
Qed.

Lemma set_prop_NoDup (k : jsstring) (v : JSON)
    (props : list (jsstring * JSON)) :
  NoDup (map fst props) -> NoDup (map fst (set_prop k v props)).
Proof.
  intros Hnd. rewrite set_prop_keys. case_bool_decide as Hin; [done|].
  apply NoDup_app. split; [done|]. split; [|apply NoDup_singleton].
  intros x Hx ->%list_elem_of_singleton. done.
Qed.

Lemma parse_members_NoDup (fuel : nat) :
  forall (acc : list (jsstring * JSON)) (s : jsstring)
         (props : list (jsstring * JSON)) (rest : jsstring),
  NoDup (map fst acc) ->
  parse_members fuel acc s = POk props rest -> NoDup (map fst props).
Proof.
  induction fuel as [|fuel IH]; intros acc s props rest Hnd; [discriminate|].
  rewrite parse_members_S.
  destruct s as [|c r]; [discriminate|].
  destruct (c =? dquote)%N; [|discriminate].
  destruct (parse_string_chars r) as [[k r1]|]; [|discriminate].
  destruct (skip_ws r1) as [|d r2]; [discriminate|].
  destruct (d =? 58)%N; [|discriminate].
  destruct (parse_value fuel (skip_ws r2)) as [v rest'| |]; try discriminate.
  destruct (skip_ws rest') as [|e r3]; [discriminate|].
  destruct (e =? 44)%N.
  - apply IH. by apply set_prop_NoDup.
  - destruct (e =? 125)%N; [|discriminate].
    intros [= <- <-]. by apply set_prop_NoDup.
Qed.

Lemma parse_value_object_NoDup (fuel : nat) (s rest : jsstring)
    (props : list (jsstring * JSON)) :
  parse_value fuel s = POk (JObject props) rest -> NoDup (map fst props).
Proof.
  destruct fuel as [|fuel]; [discriminate|]. rewrite parse_value_S.
  destruct s as [|c r]; [discriminate|].
  destruct (c =? 123)%N.
  { destruct (skip_ws r) as [|d r1]; [discriminate|].
    destruct (d =? 125)%N.
    - intros [= <- <-]. constructor.
    - destruct (parse_members fuel [] (d :: r1)) as [props' rest'| |] eqn:Hm;
        try discriminate.
      intros [= <- <-]. eapply parse_members_NoDup; [|exact Hm]. constructor. }
  destruct (c =? 91)%N.
  { destruct (skip_ws r) as [|d r1]; [discriminate|].
    destruct (d =? 93)%N; [discriminate|].
    destruct (parse_elements fuel [] (d :: r1)); discriminate. }
  destruct (c =? dquote)%N.
  { destruct (parse_string_chars r) as [[v rest']|]; discriminate. }
  destruct (starts_with (js "true") (c :: r)); [discriminate|].
  destruct (starts_with (js "false") (c :: r)); [discriminate|].
  destruct (starts_with (js "null") (c :: r)); [discriminate|].
  destruct (parse_number (c :: r)) as [[lexeme rest']|]; discriminate.
Qed.

Lemma JSON_parse_object_NoDup (text : jsstring)
    (props : list (jsstring * JSON)) :
  JSON_parse text = Some (JObject props) -> NoDup (map fst props).
Proof.
  unfold JSON_parse.
  destruct (parse_value _ _) as [v rest| |] eqn:Hp; try discriminate.
  destruct (skip_ws rest); [|discriminate].
  intros [= ->]. by eapply parse_value_object_NoDup.
Qed.

Lemma get_prop_Some_elem (k : jsstring) (props : list (jsstring * JSON)) :
  is_Some (get_prop k props) <-> k ∈ map fst props.
Proof.
  induction props as [|[k' v'] props IH]; cbn [get_prop map fst].
  - split; [by intros [? ?] | by intros ?%elem_of_nil].
  - unfold jsstring_eqb. rewrite elem_of_cons.
    destruct (decide (k' = k)) as [->|Hne].
    + rewrite bool_decide_eq_true_2 by done. naive_solver.
    + rewrite bool_decide_eq_false_2 by done. naive_solver.
Qed.

(** With each key once and [k] among the keys: more than one key means a key
    other than [k]. *)
Lemma other_key (k : jsstring) (keys : list jsstring) :
  NoDup keys -> k ∈ keys ->
  (1 < length keys <-> exists k', k' ∈ keys /\ k' <> k).
Proof.
  intros Hnd Hin. split.
  - destruct keys as [|a [|b keys]]; cbn [length]; [lia | lia |]. intros _.
    destruct (decide (a = k)) as [->|Hne].
    + exists b. split; [set_solver|].
      apply NoDup_cons in Hnd as [Hnin _]. set_solver.
    + exists a. split; [set_solver | done].
  - intros (k' & Hin' & Hne).
    destruct keys as [|a [|b keys]]; cbn [length]; [set_solver | | lia].
    apply list_elem_of_singleton in Hin, Hin'. congruence.
Qed.

(** With each key once: [k] is the only key exactly when the properties are
    a single one, named [k]. *)
Lemma only_key (k : jsstring) (v : JSON) (props : list (jsstring * JSON)) :
  get_prop k props = Some v -> length (map fst props) <= 1 ->
  props = [(k, v)].
Proof.
  destruct props as [|[k' v'] [|p props]]; cbn [get_prop map length];
    [discriminate | | lia].
  unfold jsstring_eqb. case_bool_decide as Hk; [|discriminate].
  intros [= ->] _. by subst.
Qed.

(** ** The structural check *)

Lemma validateLLMResponse_Ok (raw : jsstring) (r : LLMReply) :
  validateLLMResponse raw = Ok r <->
  JSON_parse (cleanJSON raw) = Some (JObject [(js "reply", JString (reply r))]).
Proof.
  unfold validateLLMResponse.
  destruct (JSON_parse (cleanJSON raw)) as [parsed|] eqn:Hp; [|done].
  destruct parsed as [ |b|n|s|elems|props]; try done.
  cbn [typeof is_object_tag negb orb is_null has_property get_property
       Object_keys].
  destruct (get_prop (js "reply") props) as [v|] eqn:Hget.
  2:{ rewrite bool_decide_eq_false_2 by (by intros [? ?]). cbn [negb].
      split; [done|]. intros [= ->]. by vm_compute in Hget. }
  rewrite bool_decide_eq_true_2 by done. cbn [negb].
  destruct v as [ |b|n|text|elems|props'];
    try (split; [done|]; intros [= ->]; by vm_compute in Hget).
  destruct (Nat.ltb_spec 1 (length (map fst props))) as [Hlt|Hle].
  - split; [done|]. intros [= ->]. cbn in Hlt. lia.
  - split.
    + intros [= <-]. f_equal. f_equal. cbn [reply]. by apply only_key.
    + intros [= ->]. vm_compute in Hget. destruct r. cbn [reply] in *.
      congruence.
Qed.

Lemma validateLLMResponse_Throw (raw : jsstring) :
  (exists e, validateLLMResponse raw = Throw e) <->
  JSON_parse (cleanJSON raw) = None
  \/ exists parsed,
       JSON_parse (cleanJSON raw) = Some parsed
       /\ (~ is_JSON_object parsed
           \/ get_property (js "reply") parsed = None
           \/ (exists v, get_property (js "reply") parsed = Some v
                         /\ ~ is_JSON_string v)
           \/ exists k, k ∈ Object_keys parsed /\ k <> js "reply").
Proof.
  unfold validateLLMResponse.
  destruct (JSON_parse (cleanJSON raw)) as [parsed|] eqn:Hp.
  2:{ split; [by left | by exists InvalidJSON]. }
  split.
  - intros [e He]. right. exists parsed. split; [done|].
    destruct parsed as [ |b|n|s|elems|props];
      try (left; cbn; tauto).
    pose proof (JSON_parse_object_NoDup _ _ Hp) as Hnd.
    cbn [typeof is_object_tag negb orb is_null has_property get_property
         Object_keys] in *.
    destruct (get_prop (js "reply") props) as [v|] eqn:Hget;
      [|right; by left].
    rewrite bool_decide_eq_true_2 in He by done. cbn [negb] in He.
    destruct v as [ |b|n|text|elems|props'];
      try (right; right; left; eexists; split; [reflexivity|]; cbn; tauto).
    destruct (1 <? length (map fst props)) eqn:Hlt; [|discriminate].
    apply Nat.ltb_lt in Hlt.
    right. right. right. apply (other_key (js "reply")); [done| |done].
    apply get_prop_Some_elem. by rewrite Hget.
  - intros [|(parsed' & [= <-] & Hcases)]; [done|].
    destruct parsed as [ |b|n|s|elems|props];
      try (by eexists); cbn [typeof is_object_tag negb orb is_null
                             has_property get_property Object_keys] in *.
    pose proof (JSON_parse_object_NoDup _ _ Hp) as Hnd.
    destruct (get_prop (js "reply") props) as [v|] eqn:Hget.
    2:{ rewrite bool_decide_eq_false_2 by (by intros [? ?]). by eexists. }
    rewrite bool_decide_eq_true_2 by done. cbn [negb].
    destruct v as [ |b|n|text|elems|props']; try (by eexists).
    destruct Hcases as [Hno|[Hnone|[(v & [= <-] & Hns)|Hother]]];
      [by destruct Hno | done | by destruct Hns |].
    apply (other_key (js "reply")) in Hother; [|done|].
    2:{ apply get_prop_Some_elem. by rewrite Hget. }
    apply Nat.ltb_lt in Hother. rewrite Hother. by eexists.
Qed.

(** ** String literals without escapes *)

Lemma parse_string_chars_plain (X rest : jsstring) :
  Forall plain X ->
  parse_string_chars (X ++ dquote :: rest) = Some (X, rest).
Proof.
  induction 1 as [|c X (Hge & Hq & Hb) _ IH]; cbn [app parse_string_chars].
  - by rewrite N.eqb_refl.
  - apply N.eqb_neq in Hq, Hb. rewrite Hq, Hb.
    apply N.ltb_ge in Hge. rewrite Hge. by rewrite IH.
Qed.

Lemma reply_json_cons (X : jsstring) :
  reply_json X =
  (123 :: 34 :: 114 :: 101 :: 112 :: 108 :: 121 :: 34 :: 58 :: 34
   :: X ++ [34; 125])%N.
Proof. reflexivity. Qed.

(** The text [{"reply":"X"}] parses to the object with the one property
    [reply], of value X. *)
Lemma JSON_parse_reply_json (X : jsstring) :
  Forall plain X ->
  JSON_parse (reply_json X) = Some (JObject [(js "reply", JString X)]).
Proof.
  intros HX. unfold JSON_parse. rewrite reply_json_cons.
  cbn [skip_ws is_json_ws N.eqb Pos.eqb orb].
  set (s := (123 :: _)%N).
  assert (exists n, 2 * length s + 1 = S (S (S n))) as [n ->].
  { exists (2 * length s - 2). subst s. cbn [length]. lia. }
  subst s. rewrite parse_value_S.
  cbn [N.eqb Pos.eqb skip_ws is_json_ws orb].
  rewrite parse_members_S.
  cbn [N.eqb Pos.eqb dquote parse_string_chars backslash N.ltb N.compare
       Pos.compare Pos.compare_cont skip_ws is_json_ws orb].
  rewrite parse_value_S.
  cbn [N.eqb Pos.eqb dquote].
  change (34 :: 125 :: [])%N with (dquote :: [125%N]).
  rewrite (parse_string_chars_plain X [125%N] HX).
  reflexivity.
Qed.

(** ** Fences *)

Lemma js_fence : js "```" = [96; 96; 96]%N.
Proof. reflexivity. Qed.

Lemma starts_with_fence3 (c d e : N) (r : jsstring) :
  starts_with (js "```") (c :: d :: e :: r)
  = ((96 =? c) && ((96 =? d) && (96 =? e)))%N.
Proof. rewrite js_fence. cbn [starts_with]. by rewrite andb_true_r. Qed.

Lemma starts_with_fence_not_backtick (c : N) (r : jsstring) :
  c <> backtick -> starts_with (js "```") (c :: r) = false.
Proof.
  intros Hc. rewrite js_fence. cbn [starts_with].
  destruct (N.eqb_spec 96 c) as [E|]; [|done]. by subst c.
Qed.

Lemma starts_with_app (p q s : jsstring) :
  starts_with (p ++ q) s = true -> starts_with p s = true.
Proof.
  revert s. induction p as [|a p IH]; intros s; [done|].
  destruct s as [|b s]; [done|]. cbn [app starts_with].
  intros [-> H]%andb_true_iff. by rewrite (IH _ H).
Qed.

Lemma fence_with_label_None (s : jsstring) :
  starts_with (js "```") s = false -> fence_with_label s = None.
Proof.
  intros H. unfold fence_with_label. rewrite H.
  destruct (starts_with (js "```json") s) eqn:E; [|done].
  change (js "```json") with (js "```" ++ js "json") in E.
  apply starts_with_app in E. congruence.
Qed.

Lemma fence_None (s : jsstring) :
  starts_with (js "```") s = false -> fence s = None.
Proof. intros H. unfold fence. by rewrite H. Qed.

(** A match needs three backticks: if the text up to and including a code
    unit that is not a backtick has no fence, nothing is removed there. *)
Lemma starts_with_fence_snoc (A B : jsstring) (d : N) :
  d <> backtick ->
  starts_with (js "```") (A ++ d :: B) = starts_with (js "```") (A ++ [d]).
Proof.
  intros Hd.
  destruct A as [|a [|b [|c A]]]; cbn [app].
  - by rewrite !starts_with_fence_not_backtick.
  - rewrite js_fence. cbn [starts_with].
    destruct (N.eqb_spec 96 d) as [E|]; [by subst d|].
    by rewrite !andb_false_r.
  - rewrite js_fence. cbn [starts_with].
    destruct (N.eqb_spec 96 d) as [E|]; [by subst d|].
    by rewrite !andb_false_r.
  - by rewrite !starts_with_fence3.
Qed.

Lemma remove_all_go_keep (re : jsstring -> option nat) (A B : jsstring)
    (d : N) :
  (forall s, starts_with (js "```") s = false -> re s = None) ->
  d <> backtick -> has_fence (A ++ [d]) = false ->
  remove_all_go re 0 (A ++ d :: B) = A ++ d :: remove_all_go re 0 B.
Proof.
  intros Hre Hd. induction A as [|a A IH]; cbn [app has_fence remove_all_go].
  - intros _. by rewrite Hre by (by apply starts_with_fence_not_backtick).
  - intros [Hhere Hrest]%orb_false_iff.
    change (a :: A ++ d :: B) with ((a :: A) ++ d :: B).
    rewrite Hre.
    + cbn [app]. by rewrite IH.
    + rewrite starts_with_fence_snoc by done. exact Hhere.
Qed.

Lemma has_fence_cons_not_backtick (c : N) (r : jsstring) :
  c <> backtick -> has_fence (c :: r) = has_fence r.
Proof.
  intros Hc. cbn [has_fence].
  by rewrite starts_with_fence_not_backtick.
Qed.

Lemma has_fence_snoc (A : jsstring) (d : N) (B : jsstring) :
  d <> backtick -> has_fence A = false -> has_fence (d :: B) = false ->
  has_fence (A ++ d :: B) = false.
Proof.
  intros Hd. induction A as [|a A IH]; intros HA HB; [done|].
  cbn [app has_fence] in *. apply orb_false_iff in HA as [Hhere Hrest].
  rewrite IH by done. rewrite orb_false_r.
  change (a :: A ++ d :: B) with ((a :: A) ++ d :: B).
  rewrite starts_with_fence_snoc by done.
  destruct A as [|b [|c A]]; cbn [app].
  - rewrite js_fence. cbn [starts_with].
    destruct (N.eqb_spec 96 d) as [E|]; [by subst d|].
    by rewrite !andb_false_r.
  - rewrite js_fence. cbn [starts_with].
    destruct (N.eqb_spec 96 d) as [E|]; [by subst d|].
    by rewrite !andb_false_r.
  - rewrite starts_with_fence3 in *. exact Hhere.
Qed.

(** The text [{"reply":"X"}] has a fence only if X has one. *)
Lemma has_fence_reply_json (X : jsstring) (B : jsstring) :
  has_fence X = false -> has_fence B = false ->
  has_fence (reply_json X ++ B) = false.
Proof.
  intros HX HB. rewrite reply_json_cons. cbn [app].
  rewrite !has_fence_cons_not_backtick by done.
  rewrite <- app_assoc. cbn [app].
  apply has_fence_snoc; [done | done |].
  by rewrite !has_fence_cons_not_backtick by done.
Qed.

Lemma reply_json_snoc (X : jsstring) :
  reply_json X =
  (123 :: 34 :: 114 :: 101 :: 112 :: 108 :: 121 :: 34 :: 58 :: 34
   :: X ++ [34])%N ++ [125%N].
Proof. rewrite reply_json_cons. cbn [app]. by rewrite <- app_assoc. Qed.

(** Cleaning leaves [{"reply":"X"}] alone when X has no fence. *)
Lemma remove_all_reply_json (re : jsstring -> option nat) (X : jsstring)
    (B : jsstring) :
  (forall s, starts_with (js "```") s = false -> re s = None) ->
  has_fence X = false ->
  remove_all_go re 0 (reply_json X ++ B)
  = reply_json X ++ remove_all_go re 0 B.
Proof.
  intros Hre HX.
  set (A := (123 :: 34 :: 114 :: 101 :: 112 :: 108 :: 121 :: 34 :: 58 :: 34
             :: X ++ [34])%N).
  assert (reply_json X = A ++ [125%N]) as HA by apply reply_json_snoc.
  rewrite HA, <- app_assoc. cbn [app].
  rewrite (remove_all_go_keep re A B 125%N Hre);
    [by rewrite <- app_assoc | done |].
  rewrite <- HA, <- (app_nil_r (reply_json X)).
  by apply has_fence_reply_json.
Qed.

Lemma trim_start_not_space (c : N) (r : jsstring) :
  is_js_space c = false -> trim_start (c :: r) = c :: r.
Proof. intros H. cbn [trim_start]. by rewrite H. Qed.

Lemma trim_end_snoc_space (s : jsstring) (c : N) :
  is_js_space c = true -> trim_end (s ++ [c]) = trim_end s.
Proof.
  intros H. unfold trim_end. rewrite rev_unit. cbn [trim_start].
  by rewrite H.
Qed.

Lemma trim_end_snoc_not_space (s : jsstring) (c : N) :
  is_js_space c = false -> trim_end (s ++ [c]) = s ++ [c].
Proof.
  intros H. unfold trim_end. rewrite rev_unit.
  rewrite trim_start_not_space by done.
  by rewrite <- rev_unit, rev_involutive.
Qed.

Lemma trim_start_reply_json (X B : jsstring) :
  trim_start (reply_json X ++ B) = reply_json X ++ B.
Proof. reflexivity. Qed.

Lemma trim_end_reply_json (X : jsstring) :
  trim_end (reply_json X) = reply_json X.
Proof. rewrite reply_json_snoc. by apply trim_end_snoc_not_space. Qed.

Lemma trim_reply_json (X : jsstring) : trim (reply_json X) = reply_json X.
Proof.
  unfold trim. rewrite <- (app_nil_r (reply_json X)) at 1.
  rewrite trim_start_reply_json, app_nil_r. apply trim_end_reply_json.
Qed.

Lemma trim_reply_json_lines (X : jsstring) :
  trim (newline :: reply_json X ++ [newline]) = reply_json X.
Proof.
  unfold trim. cbn [trim_start is_js_space newline N.eqb Pos.eqb orb].
  rewrite trim_start_reply_json.
  rewrite trim_end_snoc_space by done.
  apply trim_end_reply_json.
Qed.

Lemma cleanJSON_reply_json (X : jsstring) :
  has_fence X = false -> cleanJSON (reply_json X) = reply_json X.
Proof.
  intros HX. unfold cleanJSON, remove_all.
  rewrite <- (app_nil_r (reply_json X)) at 1.
  rewrite (remove_all_reply_json _ X [] fence_with_label_None HX).
  cbn [remove_all_go].
  rewrite (remove_all_reply_json _ X [] fence_None HX).
  cbn [remove_all_go]. rewrite app_nil_r. apply trim_reply_json.
Qed.

Lemma cleanJSON_fenced_reply_json (X : jsstring) :
  has_fence X = false -> cleanJSON (fenced (reply_json X)) = reply_json X.
Proof.
  intros HX. unfold cleanJSON, remove_all, fenced.
  change (js "```json" ++ [newline] ++ reply_json X ++ [newline] ++ js "```")
    with (96 :: 96 :: 96 :: 106 :: 115 :: 111 :: 110 :: newline
          :: reply_json X ++ [newline; 96; 96; 96])%N.
  cbn [remove_all_go]. unfold fence_with_label at 1.
  replace (starts_with (js "```json") _) with true by reflexivity.
  cbn [remove_all_go].
  rewrite fence_with_label_None by done.
  rewrite (remove_all_reply_json _ X _ fence_with_label_None HX).
  replace (remove_all_go fence_with_label 0 [newline; 96; 96; 96]%N)
    with [newline] by reflexivity.
  cbn [remove_all_go]. rewrite fence_None by done.
  rewrite (remove_all_reply_json _ X _ fence_None HX).
  replace (remove_all_go fence 0 [newline]) with [newline] by reflexivity.
  apply trim_reply_json_lines.
Qed.

(** ** No fence survives the cleaning *)

Lemma starts_with_fence_inv (s : jsstring) :
  starts_with (js "```") s = true ->
  exists r, s = (96 :: 96 :: 96 :: r)%N.
Proof.
  rewrite js_fence. destruct s as [|c [|d [|e r]]]; cbn [starts_with];
    rewrite ?andb_false_r; try discriminate.
  intros (->%N.eqb_eq & (->%N.eqb_eq & (->%N.eqb_eq & _)%andb_true_iff)
            %andb_true_iff)%andb_true_iff.
  by exists r.
Qed.

Lemma starts_with_app_r (p s t : jsstring) :
  starts_with p s = true -> starts_with p (s ++ t) = true.
Proof.
  revert s. induction p as [|a p IH]; intros s; [done|].
  destruct s as [|b s]; [done|]. cbn [app starts_with].
  intros [-> H]%andb_true_iff. by rewrite (IH _ H).
Qed.

Lemma has_fence_app_inv (A B : jsstring) :
  has_fence (A ++ B) = false -> has_fence A = false /\ has_fence B = false.
Proof.
  induction A as [|a A IH]; [done|]. cbn [app has_fence].
  intros [Hhere Hrest]%orb_false_iff. destruct (IH Hrest) as [HA HB].
  split; [|done]. rewrite HA, orb_false_r.
  destruct (starts_with (js "```") (a :: A)) eqn:E; [|done].
  apply (starts_with_app_r _ _ B) in E. cbn [app] in E. congruence.
Qed.

Lemma trim_start_suffix (s : jsstring) : exists A, s = A ++ trim_start s.
Proof.
  induction s as [|c r [A IH]]; [by exists []|]. cbn [trim_start].
  destruct (is_js_space c); [|by exists []].
  exists (c :: A). cbn [app]. by rewrite <- IH.
Qed.

Lemma trim_end_prefix (s : jsstring) : exists B, s = trim_end s ++ B.
Proof.
  unfold trim_end. destruct (trim_start_suffix (rev s)) as [A HA].
  exists (rev A). rewrite <- rev_app_distr, <- HA. by rewrite rev_involutive.
Qed.

Lemma has_fence_trim (s : jsstring) :
  has_fence s = false -> has_fence (trim s) = false.
Proof.
  intros Hs. unfold trim.
  destruct (trim_start_suffix s) as [A HA]. rewrite HA in Hs.
  apply has_fence_app_inv in Hs as [_ Hs].
  destruct (trim_end_prefix (trim_start s)) as [B HB]. rewrite HB in Hs.
  by apply has_fence_app_inv in Hs as [Hs _].
Qed.

Lemma remove_fence_cons (c : N) (r : jsstring) :
  remove_all_go fence 0 (c :: r) =
  if starts_with (js "```") (c :: r) then remove_all_go fence 2 r
  else c :: remove_all_go fence 0 r.
Proof.
  cbn [remove_all_go]. unfold fence.
  by destruct (starts_with (js "```") (c :: r)).
Qed.

Lemma remove_fence_not_backtick (c : N) (r : jsstring) :
  c <> backtick ->
  remove_all_go fence 0 (c :: r) = c :: remove_all_go fence 0 r.
Proof.
  intros Hc. rewrite remove_fence_cons.
  by rewrite starts_with_fence_not_backtick.
Qed.

(** After the pass [replace(/```/g, '')] no three backticks are left in a
    row. *)
Lemma has_fence_remove_fence (s : jsstring) :
  has_fence (remove_all_go fence 0 s) = false.
Proof.
  remember (length s) as n eqn:Hn. revert s Hn.
  induction n as [n IH] using lt_wf_ind. intros s ->.
  assert (forall s', length s' < length s ->
            has_fence (remove_all_go fence 0 s') = false) as IH'
    by (intros s' Hlt; by apply (IH (length s'))).
  clear IH. destruct s as [|c r]; [done|].
  rewrite remove_fence_cons.
  destruct (starts_with (js "```") (c :: r)) eqn:Hfence.
  { apply starts_with_fence_inv in Hfence as [r3 [= -> ->]].
    cbn [remove_all_go]. apply IH'. cbn [length]. lia. }
  cbn [has_fence]. rewrite (IH' r) by (cbn [length]; lia).
  rewrite orb_false_r.
  destruct (N.eqb_spec c backtick) as [->|Hc];
    [|by apply starts_with_fence_not_backtick].
  (* [c] is a backtick: at most one more backtick follows it in [r] *)
  destruct r as [|d r1]; [done|].
  destruct (N.eqb_spec d backtick) as [->|Hd].
  2:{ rewrite remove_fence_not_backtick by done.
      rewrite js_fence. cbn [starts_with].
      destruct (N.eqb_spec 96 d) as [E|]; [by subst d|].
      by rewrite andb_false_r. }
  destruct r1 as [|e r2]; [done|].
  destruct (N.eqb_spec e backtick) as [->|He]; [done|].
  assert (starts_with (js "```") (backtick :: e :: r2) = false) as Hno.
  { rewrite js_fence. cbn [starts_with].
    destruct (N.eqb_spec 96 e) as [E|]; [by subst e|].
    by rewrite andb_false_r. }
  rewrite remove_fence_cons, Hno.
  rewrite remove_fence_not_backtick by done.
  rewrite js_fence. cbn [starts_with].
  destruct (N.eqb_spec 96 e) as [E|]; [by subst e|].
  by rewrite !andb_false_r.
Qed.

Lemma has_fence_cleanJSON (raw : jsstring) : has_fence (cleanJSON raw) = false.
Proof. apply has_fence_trim, has_fence_remove_fence. Qed.

(** ** A fence is removed wherever it stands *)

Lemma starts_with_json_inv (b : jsstring) :
  starts_with (js "json") b = true ->
  exists b', b = (106 :: 115 :: 111 :: 110 :: b')%N.
Proof.
  change (js "json") with [106; 115; 111; 110]%N.
  destruct b as [|c1 [|c2 [|c3 [|c4 b']]]]; cbn [starts_with];
    rewrite ?andb_false_r; try discriminate.
  intros (->%N.eqb_eq & (->%N.eqb_eq & (->%N.eqb_eq & (->%N.eqb_eq & _)
            %andb_true_iff)%andb_true_iff)%andb_true_iff)%andb_true_iff.
  by exists b'.
Qed.

Lemma remove_fence_with_label_anywhere (a b : jsstring) :
  backtick ∉ a ->
  remove_all fence_with_label (a ++ js "```" ++ b) =
  a ++ remove_all fence_with_label
         (if starts_with (js "json") b then drop 4 b else b).
Proof.
  unfold remove_all. induction a as [|c a IH]; intros Hnotin.
  - cbn [app]. rewrite js_fence. cbn [app remove_all_go].
    unfold fence_with_label at 1.
    change (starts_with (js "```json") (96 :: 96 :: 96 :: b)%N)
      with (starts_with (js "json") b).
    destruct (starts_with (js "json") b) eqn:Hjson.
    + apply starts_with_json_inv in Hjson as [b' ->]. reflexivity.
    + replace (starts_with (js "```") (96 :: 96 :: 96 :: b)%N) with true
        by reflexivity.
      reflexivity.
  - apply not_elem_of_cons in Hnotin as [Hc Hnotin].
    cbn [app remove_all_go].
    rewrite fence_with_label_None
      by (apply starts_with_fence_not_backtick; congruence).
    cbn [app] in IH. by rewrite IH.
Qed.

(** ** The attempt cycle *)

Lemma run_executeWithTimeout (llm : GeminiLLM) (prompt : jsstring)
    (timeoutMs : N) (w : World) :
  executeWithTimeout llm prompt timeoutMs w =
  let o := executeLLM llm (calls w) prompt in
  (raw_result o timeoutMs, after_call prompt (attempt_time o timeoutMs) w).
Proof.
  unfold executeWithTimeout, raw_result, settled_in_time, attempt_time.
  rewrite run_bind. cbn [invoke]. cbv zeta.
  destruct (executeLLM llm (calls w) prompt) as [after s|]; [|reflexivity].
  destruct (after <? timeoutMs)%N; [|reflexivity].
  destruct s; reflexivity.
Qed.

Lemma run_forEach_read_only (validators : list validator) (text : jsstring)
    (chat : addr) (w : World) :
  Forall read_only validators ->
  snd (forEach (fun v : validator => v text chat) validators w) = w.
Proof.
  induction 1 as [|v vs Hv _ IH]; [reflexivity|].
  simpl. rewrite run_bind.
  specialize (Hv text chat w).
  destruct (v text chat w) as [[[]|e] w1]; simpl in Hv; subst w1; [|reflexivity].
  exact IH.
Qed.

Lemma run_attempt_once (llm : GeminiLLM) (prompt : jsstring)
    (validators : list validator) (chat : addr) (timeoutMs : N) (w : World) :
  Forall read_only validators ->
  attempt_once llm prompt validators chat timeoutMs w =
  let o := executeLLM llm (calls w) prompt in
  let w1 := after_call prompt (attempt_time o timeoutMs) w in
  (checked validators chat w1 (attempt_result o timeoutMs), w1).
Proof.
  intros Hro. unfold attempt_once, checked, attempt_result.
  rewrite run_bind, run_executeWithTimeout. cbv zeta.
  destruct (raw_result (executeLLM llm (calls w) prompt) timeoutMs)
    as [raw|e]; [|reflexivity].
  rewrite run_bind. unfold lift at 1.
  destruct (validateLLMResponse raw) as [response|e]; [|reflexivity].
  rewrite run_bind.
  pose proof (run_forEach_read_only validators (reply response) chat
                (after_call prompt
                   (attempt_time (executeLLM llm (calls w) prompt) timeoutMs) w)
                Hro) as Hsnd.
  destruct (forEach _ validators _) as [[[]|e] w2]; simpl in Hsnd; subst w2;
    reflexivity.
Qed.

(** One turn of the loop, for validators that only read. *)
Lemma run_attempts_S (remaining attempt : nat) (llm : GeminiLLM)
    (prompt : jsstring) (validators : list validator) (chat : addr)
    (maxRetries : nat) (timeoutMs : N) (w : World) :
  Forall read_only validators ->
  attempts (S remaining) attempt llm prompt validators chat maxRetries
    timeoutMs w =
  let o := executeLLM llm (calls w) prompt in
  let w1 := after_call prompt (attempt_time o timeoutMs) w in
  match checked validators chat w1 (attempt_result o timeoutMs) with
  | Ok response => (Ok response, w1)
  | Throw e =>
      let w2 := snd (console_warn attempt e w1) in
      if attempt =? maxRetries then (Throw e, w2)
      else
        attempts remaining (S attempt) llm prompt validators chat maxRetries
          timeoutMs (snd (sleep (500 * N.of_nat attempt) w2))
  end.
Proof.
  intros Hro. cbn [attempts]. unfold try_catch.
  rewrite run_attempt_once by done. cbv zeta.
  destruct (checked _ _ _ _) as [response|e]; [reflexivity|].
  rewrite run_bind. cbn [console_warn log].
  destruct (attempt =? maxRetries); [reflexivity|].
  rewrite run_bind. reflexivity.
Qed.

(** The attempt cycle leaves the heap and the list of chats alone. *)
Lemma attempts_heap (remaining attempt : nat) (llm : GeminiLLM)
    (prompt : jsstring) (validators : list validator) (chat : addr)
    (maxRetries : nat) (timeoutMs : N) (w : World) :
  Forall read_only validators ->
  let w' := snd (attempts remaining attempt llm prompt validators chat
                   maxRetries timeoutMs w) in
  heap w' = heap w /\ chats w' = chats w.
Proof.
  intros Hro. revert attempt w.
  induction remaining as [|remaining IH]; intros attempt w; [done|].
  cbv zeta. rewrite run_attempts_S by done. cbv zeta.
  destruct (checked _ _ _ _) as [response|e]; [done|].
  destruct (attempt =? maxRetries); [done|].
  specialize (IH (S attempt)
    (snd (sleep (500 * N.of_nat attempt)
       (snd (console_warn attempt e
          (after_call prompt
             (attempt_time (executeLLM llm (calls w) prompt) timeoutMs) w)))))).
  cbv zeta in IH. destruct IH as [-> ->]. done.
Qed.

(** The protocol of the attempt cycle, read off the trace: every attempt
    invokes the backend once; a failed attempt that is not the last one is
    followed by its warning and a delay of 500 ms times its number; the last
    attempt allowed, when it fails, is followed by its warning only and its
    error is the one thrown. *)
Lemma attempt_waits_S (llm : GeminiLLM) (prompt : jsstring) (timeoutMs : N)
    (first_call n : nat) :
  attempt_waits llm prompt timeoutMs first_call (S n) =
  attempt_time (executeLLM llm first_call prompt) timeoutMs
  :: attempt_waits llm prompt timeoutMs (S first_call) n.
Proof.
  unfold attempt_waits. cbn [seq map]. rewrite Nat.add_0_r. f_equal.
  rewrite <- seq_shift, map_map. apply map_ext. intros i.
  by rewrite Nat.add_succ_r.
Qed.

Lemma attempts_protocol (llm : GeminiLLM) (prompt : jsstring)
    (validators : list validator) (chat : addr) (maxRetries : nat)
    (timeoutMs : N) :
  Forall read_only validators ->
  forall (remaining attempt : nat) (w : World),
  attempt + remaining = S maxRetries -> 1 <= attempt -> 1 <= remaining ->
  exists errors : list Error,
    let waits :=
      attempt_waits llm prompt timeoutMs (calls w) (S (length errors)) in
    let '(r, w') := attempts remaining attempt llm prompt validators chat
                      maxRetries timeoutMs w in
    calls w' = calls w + S (length errors)
    /\ attempt + length errors <= maxRetries
    /\ now w' = cycle_end (now w) attempt waits
    /\ seen w' =
       seen w ++ map (fun t => (t, heap w)) (call_times (now w) attempt waits)
    /\ match r with
       | Ok _ =>
           trace w' =
           trace w ++ failed_rounds prompt attempt errors ++ [EvCall prompt]
       | Throw e =>
           attempt + length errors = maxRetries
           /\ trace w' =
              trace w ++ failed_rounds prompt attempt errors
              ++ [EvCall prompt; EvWarn maxRetries e]
       end.
Proof.
  intros Hro remaining.
  induction remaining as [|remaining IH]; intros attempt w Hsum Hat Hrem; [lia|].
  rewrite run_attempts_S by done. cbv zeta.
  destruct (checked _ _ _ _) as [response|e].
  - exists []. cbn [length]. rewrite attempt_waits_S.
    cbn. rewrite Nat.add_0_r. split; [lia|]. split; [lia|]. done.
  - destruct (attempt =? maxRetries) eqn:Hlast.
    + apply Nat.eqb_eq in Hlast. subst attempt.
      exists []. cbn [length]. rewrite attempt_waits_S.
      cbn. rewrite Nat.add_0_r. split; [lia|]. split; [lia|].
      split; [done|]. split; [done|]. split; [lia|].
      by rewrite <- app_assoc.
    + apply Nat.eqb_neq in Hlast.
      set (w3 := snd (sleep _ _)).
      destruct (IH (S attempt) w3) as [errors Hrest]; [lia | lia | lia |].
      exists (e :: errors). cbv zeta in Hrest |- *.
      destruct (attempts remaining (S attempt) llm prompt validators chat
                  maxRetries timeoutMs w3) as [r w'].
      destruct Hrest as (Hcalls & Hle & Hnow & Hseen & Htrace).
      subst w3.
      cbn [sleep console_warn log bind elapse snd after_call calls heap now
           seen trace] in Hcalls, Hnow, Hseen, Htrace.
      cbn [length failed_rounds].
      rewrite (attempt_waits_S llm prompt timeoutMs (calls w)).
      rewrite attempt_waits_S in Hnow, Hseen |- *.
      split; [lia|]. split; [lia|].
      split; [exact Hnow|].
      split.
      { rewrite Hseen. cbn [call_times map]. by rewrite <- app_assoc. }
      destruct r as [response|e'].
      * rewrite Htrace. by rewrite <- !app_assoc.
      * destruct Htrace as [Hn Htrace]. split; [lia|].
        rewrite Htrace. by rewrite <- !app_assoc.
Qed.

Lemma call_times_length (start : N) (attempt : nat) (waits : list N) :
  length (call_times start attempt waits) = length waits.
Proof.
  revert start attempt. induction waits as [|t waits IH]; intros; [done|].
  cbn [call_times length]. by rewrite IH.
Qed.

Lemma attempt_waits_length (llm : GeminiLLM) (prompt : jsstring)
    (timeoutMs : N) (first_call n : nat) :
  length (attempt_waits llm prompt timeoutMs first_call n) = n.
Proof. unfold attempt_waits. by rewrite length_map, length_seq. Qed.

(** What the invocations of a cycle find: the heap as the cycle found it. *)
Lemma callLLM_seen (llm : GeminiLLM) (prompt : jsstring)
    (validators : list validator) (chat : addr) (maxRetries : nat)
    (timeoutMs : N) (w : World) :
  Forall read_only validators -> 1 <= maxRetries ->
  let w' := snd (callLLMWithValidation llm prompt validators chat maxRetries
                   timeoutMs w) in
  exists times : list N,
    times <> []
    /\ length times = calls w' - calls w
    /\ seen w' = seen w ++ map (fun t => (t, heap w)) times.
Proof.
  intros Hro Hmax.
  destruct (attempts_protocol llm prompt validators chat maxRetries timeoutMs
              Hro maxRetries 1 w) as [errors H]; [lia | lia | lia |].
  cbv zeta in H |- *. unfold callLLMWithValidation.
  destruct (attempts _ _ _ _ _ _ _ _ _) as [r w'].
  destruct H as (Hcalls & _ & _ & Hseen & _). cbn [snd].
  exists (call_times (now w) 1
            (attempt_waits llm prompt timeoutMs (calls w) (S (length errors)))).
  split; [|split; [|exact Hseen]].
  - intros E. apply (f_equal length) in E.
    rewrite call_times_length, attempt_waits_length in E. discriminate E.
  - rewrite call_times_length, attempt_waits_length. lia.
Qed.

(** ** What the operations do to a chat *)

Lemma sendMessage_record (chat : addr) (content : jsstring) (llm : GeminiLLM)
    (w : World) :
  sendMessage chat content llm w =
  match record_message chat (user_message content (now w)) w with
  | (Ok _, w1) =>
      match load_chat chat w1 with
      | (Ok c, _) =>
          match callLLMWithValidation llm
                  (createConversationPrompt (historyString c) content) []
                  chat default_maxRetries default_timeoutMs w1 with
          | (Ok response, w2) =>
              match record_message chat
                      (llm_message (reply response) (now w2)) w2 with
              | (Ok _, w3) => (Ok response, w3)
              | (Throw e, w3) => (Throw e, w3)
              end
          | (Throw e, w2) => (Throw e, w2)
          end
      | (Throw e, w1') => (Throw e, w1')
      end
  | (Throw e, w1) => (Throw e, w1)
  end.
Proof.
  cbv beta iota zeta delta
    [sendMessage record_message bind Date_now alloc ret user_message
     llm_message].
  destruct (load_chat chat (set_heap _ w)) as [[c|e] w1]; [|reflexivity].
  destruct (push (messages c) (length (heap w)) w1) as [[[]|e] w2]; [|reflexivity].
  destruct (appendToHistory chat (length (heap w)) w2) as [[[]|e] w3]; [|reflexivity].
  rewrite run_load_chat.
  destruct (heap_chat (heap w3) chat) as [c3|]; [|reflexivity].
  destruct (callLLMWithValidation _ _ _ _ _ _ w3) as [[response|e] w4]; [|reflexivity].
  destruct (load_chat chat (set_heap _ w4)) as [[c4|e] w5]; [|reflexivity].
  destruct (push (messages c4) (length (heap w4)) w5) as [[[]|e] w6]; [|reflexivity].
  destruct (appendToHistory chat (length (heap w4)) w6) as [[[]|e] w7]; reflexivity.
Qed.

Section with_message.
Context (h : list Obj) (chat : addr) (c : Chat) (es : list addr)
  (m : Message).
Hypothesis Hchat : heap_chat h chat = Some c.
Hypothesis Harray : heap_array h (messages c) = Some es.

Let h' := heap_with_message h chat c es m.

Lemma with_message_distinct : chat <> messages c.
Proof using Hchat Harray.
  intros E. apply heap_chat_Some in Hchat. apply heap_array_Some in Harray.
  rewrite <- E in Harray. congruence.
Qed.

Lemma with_message_length : length h' = S (length h).
Proof.
  unfold h', heap_with_message. rewrite !length_insert, length_app.
  simpl. lia.
Qed.

Lemma with_message_other (a : addr) :
  a <> chat -> a <> messages c -> a <> length h -> h' !! a = h !! a.
Proof.
  intros H1 H2 H3. unfold h', heap_with_message.
  rewrite !list_lookup_insert_ne by done.
  rewrite lookup_snoc. by case_decide.
Qed.

Lemma with_message_chat :
  heap_chat h' chat =
  Some (set_historyString c (historyString c ++ history_line m)).
Proof using Hchat.
  unfold h', heap_with_message. apply heap_chat_insert_eq.
  rewrite length_insert, length_app.
  pose proof (heap_chat_lt _ _ _ Hchat). lia.
Qed.

Lemma with_message_array :
  heap_array h' (messages c) = Some (es ++ [length h]).
Proof using Hchat Harray.
  unfold h', heap_with_message.
  rewrite heap_array_insert_ne by apply with_message_distinct.
  apply heap_array_insert_eq. rewrite length_app.
  pose proof (heap_array_lt _ _ _ Harray). lia.
Qed.

Lemma with_message_new : heap_message h' (length h) = Some m.
Proof using Hchat Harray.
  pose proof (heap_chat_lt _ _ _ Hchat).
  pose proof (heap_array_lt _ _ _ Harray).
  unfold h', heap_with_message.
  rewrite !heap_message_insert_ne by lia.
  apply heap_message_snoc_new.
Qed.

(** Message objects that were there are still there. *)
Lemma with_message_old (es0 : list addr) (ms : list Message) :
  heap_messages h es0 = Some ms -> heap_messages h' es0 = Some ms.
Proof using Hchat Harray.
  intros Hms. rewrite <- Hms. apply heap_messages_ext. intros e He.
  destruct (heap_messages_elem _ _ _ _ Hms He) as [m0 Hm0].
  apply heap_chat_Some in Hchat. apply heap_array_Some in Harray.
  apply with_message_other; [congruence | congruence |].
  apply lookup_lt_Some in Hm0. lia.
Qed.

Lemma with_message_view (ms : list Message) :
  heap_messages h es = Some ms ->
  chat_view h' chat =
  Some (set_historyString c (historyString c ++ history_line m), ms ++ [m]).
Proof using Hchat Harray.
  intros Hms. unfold chat_view.
  rewrite with_message_chat. cbn [messages set_historyString].
  rewrite with_message_array, heap_messages_app.
  rewrite (with_message_old _ _ Hms). cbn [heap_messages].
  by rewrite with_message_new.
Qed.
End with_message.

Lemma chat_view_Some (h : list Obj) (chat : addr) (c : Chat)
    (ms : list Message) :
  chat_view h chat = Some (c, ms) <->
  heap_chat h chat = Some c
  /\ exists es, heap_array h (messages c) = Some es
                /\ heap_messages h es = Some ms.
Proof.
  unfold chat_view. split.
  - destruct (heap_chat h chat) as [c'|]; [|discriminate].
    destruct (heap_array h (messages c')) as [es|] eqn:Ha; [|discriminate].
    destruct (heap_messages h es) as [ms'|] eqn:Hms; [|discriminate].
    intros [= -> ->]. split; [reflexivity|]. eauto.
  - intros (-> & es & -> & ->). reflexivity.
Qed.

Lemma callLLM_heap (llm : GeminiLLM) (prompt : jsstring)
    (validators : list validator) (chat : addr) (maxRetries : nat)
    (timeoutMs : N) (w : World) :
  Forall read_only validators ->
  let w' := snd (callLLMWithValidation llm prompt validators chat maxRetries
                   timeoutMs w) in
  heap w' = heap w /\ chats w' = chats w.
Proof. intros. by apply attempts_heap. Qed.

(** [sendMessage] on a chat whose fields and array are in place. *)
Lemma run_sendMessage (chat : addr) (content : jsstring) (llm : GeminiLLM)
    (w : World) (c : Chat) (es : list addr) :
  heap_chat (heap w) chat = Some c ->
  heap_array (heap w) (messages c) = Some es ->
  let u := user_message content (now w) in
  let c1 := set_historyString c (historyString c ++ history_line u) in
  let w1 := set_heap (heap_with_message (heap w) chat c es u) w in
  sendMessage chat content llm w =
  match callLLMWithValidation llm
          (createConversationPrompt (historyString c1) content) [] chat
          default_maxRetries default_timeoutMs w1 with
  | (Ok response, w2) =>
      (Ok response,
       set_heap
         (heap_with_message (heap w1) chat c1 (es ++ [length (heap w)])
            (llm_message (reply response) (now w2))) w2)
  | (Throw e, w2) => (Throw e, w2)
  end.
Proof.
  intros Hc Ha u c1 w1.
  rewrite sendMessage_record, run_record_message, Hc, Ha.
  fold u. fold w1. rewrite run_load_chat.
  assert (heap_chat (heap w1) chat = Some c1) as Hc1
    by exact (with_message_chat (heap w) chat c es u Hc).
  assert (heap_array (heap w1) (messages c1) = Some (es ++ [length (heap w)]))
    as Ha1 by exact (with_message_array (heap w) chat c es u Hc Ha).
  rewrite Hc1.
  pose proof (callLLM_heap llm (createConversationPrompt (historyString c1) content)
                [] chat default_maxRetries default_timeoutMs w1
                (Forall_nil_2 _)) as [Hheap _].
  destruct (callLLMWithValidation _ _ _ _ _ _ w1) as [[response|e] w2];
    [|reflexivity].
  cbn [snd] in Hheap.
  rewrite run_record_message, Hheap, Hc1, Ha1. reflexivity.
Qed.

(** [sendMessage] on a reference that is not a chat with an array: the user
    message object is created, then the access fails. *)
Lemma run_sendMessage_untyped (chat : addr) (content : jsstring)
    (llm : GeminiLLM) (w : World) :
  chat_fields_missing (heap w) chat ->
  sendMessage chat content llm w =
  (Throw TypeError,
   set_heap (heap w ++ [OMessage (user_message content (now w))]) w).
Proof.
  unfold chat_fields_missing. intros Hmiss.
  rewrite sendMessage_record, run_record_message.
  destruct (heap_chat (heap w) chat) as [c|]; [|reflexivity].
  by rewrite Hmiss.
Qed.

Lemma sendMessage_split (chat : addr) (content : jsstring) (llm : GeminiLLM)
    (w : World) :
  sendMessage chat content llm w =
  match record_message chat (user_message content (now w)) w with
  | (Ok _, w1) => await_reply chat content llm w1
  | (Throw e, w1) => (Throw e, w1)
  end.
Proof.
  rewrite sendMessage_record.
  destruct (record_message chat (user_message content (now w)) w)
    as [[[]|e] w1]; [|reflexivity].
  cbv beta iota zeta delta [await_reply bind Date_now ret].
  rewrite run_load_chat.
  destruct (heap_chat (heap w1) chat) as [c|]; reflexivity.
Qed.

Lemma validateSummaryLength_read_only : read_only validateSummaryLength.
Proof.
  intros text chat w. unfold validateSummaryLength.
  rewrite run_bind, run_chat_messages.
  destruct (chat_view (heap w) chat) as [[c ms]|]; [|reflexivity].
  cbv zeta. by destruct (_ <? _).
Qed.

Lemma total_length_sum (ms : list Message) :
  total_length ms = content_total ms.
Proof.
  unfold total_length, content_total.
  assert (forall acc,
            fold_left (fun sum m => sum + length (content m)) ms acc =
            acc + sum_list (map (fun m => length (content m)) ms)) as H.
  { induction ms as [|m ms IH]; intros acc; simpl; [lia|]. rewrite IH. lia. }
  by rewrite H.
Qed.

Lemma run_validateSummaryLength (summary : jsstring) (chat : addr) (w : World)
    (c : Chat) (ms : list Message) :
  chat_view (heap w) chat = Some (c, ms) ->
  validateSummaryLength summary chat w =
  (if Nat.max (content_total ms) 1 * 2 <? length summary
   then Throw (SummaryTooLong (length summary) (content_total ms))
   else Ok tt, w).
Proof.
  intros Hv. unfold validateSummaryLength.
  rewrite run_bind, run_chat_messages, Hv. cbv zeta.
  rewrite total_length_sum. by destruct (_ <? _).
Qed.

Lemma run_updateSummary (chat : addr) (llm : GeminiLLM) (w : World)
    (c : Chat) (es : list addr) :
  heap_chat (heap w) chat = Some c ->
  heap_array (heap w) (messages c) = Some es ->
  updateSummary chat llm w =
  if length es =? 0 then (Throw EmptyChat, w)
  else
    match callLLMWithValidation llm (createSummaryPrompt (historyString c))
            [validateSummaryLength] chat default_maxRetries
            default_timeoutMs w with
    | (Ok response, w2) =>
        (Ok response,
         set_heap (<[chat:=OChat (set_summary c (reply response))]> (heap w)) w2)
    | (Throw e, w2) => (Throw e, w2)
    end.
Proof.
  intros Hc Ha. unfold updateSummary.
  rewrite run_bind, run_load_chat, Hc.
  rewrite run_bind, run_load_array, Ha.
  destruct (length es =? 0); [reflexivity|].
  rewrite run_bind.
  pose proof (callLLM_heap llm (createSummaryPrompt (historyString c))
                [validateSummaryLength] chat default_maxRetries
                default_timeoutMs w) as Hheap.
  destruct Hheap as [Hheap _].
  { constructor; [apply validateSummaryLength_read_only | constructor]. }
  destruct (callLLMWithValidation _ _ _ _ _ _ w) as [[response|e] w2];
    [|reflexivity].
  cbn [snd] in Hheap.
  rewrite run_bind, run_load_chat, Hheap, Hc.
  rewrite run_bind. cbn [store ret]. by rewrite Hheap.
Qed.

Lemma run_updateSummary_untyped (chat : addr) (llm : GeminiLLM) (w : World) :
  chat_fields_missing (heap w) chat ->
  updateSummary chat llm w = (Throw TypeError, w).
Proof.
  unfold chat_fields_missing, updateSummary. intros Hmiss.
  rewrite run_bind, run_load_chat.
  destruct (heap_chat (heap w) chat) as [c|]; [|reflexivity].
  by rewrite run_bind, run_load_array, Hmiss.
Qed.

(** Replacing the fields of a chat that keeps its array does not move any
    message. *)
Lemma chat_view_store (h : list Obj) (chat : addr) (c c' : Chat)
    (ms : list Message) :
  chat_view h chat = Some (c, ms) ->
  messages c' = messages c ->
  chat_view (<[chat:=OChat c']> h) chat = Some (c', ms).
Proof.
  intros (Hc & es & Ha & Hms)%chat_view_Some Hsame.
  apply chat_view_Some.
  pose proof (heap_chat_lt _ _ _ Hc) as Hlt.
  split; [by apply heap_chat_insert_eq|].
  exists es. rewrite Hsame. split.
  - rewrite heap_array_insert_ne; [done|].
    intros E. apply heap_chat_Some in Hc. apply heap_array_Some in Ha.
    rewrite <- E in Ha. congruence.
  - rewrite <- Hms. apply heap_messages_ext. intros e He.
    destruct (heap_messages_elem _ _ _ _ Hms He) as [m Hm].
    apply list_lookup_insert_ne. intros E. subst e.
    apply heap_chat_Some in Hc. congruence.
Qed.

(** ** Creating a chat, and runs of the attempt cycle *)

Lemma checked_nil (chat : addr) (w : World) (r : Result LLMReply) :
  checked [] chat w r = r.
Proof. by destruct r. Qed.

Lemma run_makeChat (name : jsstring) (w : World) :
  makeChat name w =
  (Ok (S (length (heap w))),
   set_chats (chats w ++ [S (length (heap w))])
     (set_heap (heap w ++ [OArray []; OChat (new_chat name (length (heap w)))])
        w)).
Proof.
  cbv beta iota zeta delta [makeChat bind alloc ret set_heap set_chats heap
                            chats now calls trace new_chat].
  rewrite length_app. cbn [length]. rewrite Nat.add_1_r.
  by rewrite <- app_assoc.
Qed.

Lemma makeChat_view (name : jsstring) (h : list Obj) :
  chat_view (h ++ [OArray []; OChat (new_chat name (length h))])
    (S (length h))
  = Some (new_chat name (length h), []).
Proof.
  unfold chat_view, heap_chat, heap_array.
  rewrite (lookup_app_r h) by lia.
  replace (S (length h) - length h) with 1 by lia. cbn [lookup list_lookup].
  cbn [messages new_chat].
  rewrite (lookup_app_r h) by lia.
  by replace (length h - length h) with 0 by lia.
Qed.

(** The first attempt succeeds. *)
Lemma callLLM_first (llm : GeminiLLM) (prompt : jsstring) (chat : addr)
    (w : World) (response : LLMReply) :
  let o := executeLLM llm (calls w) prompt in
  attempt_result o default_timeoutMs = Ok response ->
  callLLMWithValidation llm prompt [] chat default_maxRetries
    default_timeoutMs w =
  (Ok response, after_call prompt (attempt_time o default_timeoutMs) w).
Proof.
  intros o Hr. unfold callLLMWithValidation, default_maxRetries.
  rewrite run_attempts_S by constructor. cbv zeta.
  rewrite checked_nil. fold o. by rewrite Hr.
Qed.

(** Two failures, then the outcome of the third attempt decides. *)
Lemma callLLM_third (llm : GeminiLLM) (prompt : jsstring) (chat : addr)
    (w : World) (e1 e2 : Error) :
  let r i := attempt_result (executeLLM llm (calls w + i) prompt)
               default_timeoutMs in
  let T i := attempt_time (executeLLM llm (calls w + i) prompt)
               default_timeoutMs in
  let t0 := T 0 in
  let t1 := T 1 in
  let t2 := T 2 in
  r 0 = Throw e1 -> r 1 = Throw e2 ->
  exists w' : World,
    heap w' = heap w /\ calls w' = calls w + 3
    /\ now w' = (now w + t0 + 500 + t1 + 1000 + t2)%N
    /\ seen w' =
       seen w ++ map (fun t => (t, heap w))
                   [now w; now w + t0 + 500;
                    now w + t0 + 500 + t1 + 1000]%N
    /\ match r 2 with
       | Ok response =>
           callLLMWithValidation llm prompt [] chat default_maxRetries
             default_timeoutMs w = (Ok response, w')
           /\ trace w' =
              trace w ++ failed_rounds prompt 1 [e1; e2] ++ [EvCall prompt]
       | Throw e3 =>
           callLLMWithValidation llm prompt [] chat default_maxRetries
             default_timeoutMs w = (Throw e3, w')
           /\ trace w' =
              trace w ++ failed_rounds prompt 1 [e1; e2]
              ++ [EvCall prompt; EvWarn 3 e3]
       end.
Proof.
  intros r T t0 t1 t2 H1 H2. subst r T t0 t1 t2. cbv beta in *.
  rewrite Nat.add_0_r in *. rewrite Nat.add_1_r in *.
  replace (calls w + 2) with (S (S (calls w))) by lia.
  unfold callLLMWithValidation, default_maxRetries.
  rewrite run_attempts_S by constructor. cbv zeta.
  rewrite checked_nil, H1.
  cbn [Nat.eqb console_warn log snd sleep bind elapse after_call calls heap
       chats now trace seen].
  rewrite run_attempts_S by constructor. cbv zeta.
  cbn [calls]. rewrite checked_nil, H2.
  cbn [Nat.eqb console_warn log snd sleep bind elapse after_call calls heap
       chats now trace seen].
  rewrite run_attempts_S by constructor. cbv zeta.
  cbn [calls]. rewrite checked_nil.
  destruct (attempt_result (executeLLM llm (S (S (calls w))) prompt)
              default_timeoutMs) as [response|e3].
  - eexists.
    split; [|split; [|split; [|split; [|split; [reflexivity|]]]]];
      cbn [heap calls now seen trace after_call map N.of_nat
           Pos.of_succ_nat Pos.succ];
      [done | lia | lia | by rewrite <- !app_assoc |].
    by rewrite <- !app_assoc.
  - cbn [Nat.eqb console_warn log snd].
    eexists.
    split; [|split; [|split; [|split; [|split; [reflexivity|]]]]];
      cbn [heap calls now seen trace after_call map N.of_nat
           Pos.of_succ_nat Pos.succ];
      [done | lia | lia | by rewrite <- !app_assoc |].
    by rewrite <- !app_assoc.
Qed.

(** [sendMessage] on a chat, through its view. *)
Lemma sendMessage_view (w : World) (chat : addr) (c : Chat)
    (ms : list Message) (content : jsstring) (llm : GeminiLLM) :
  chat_view (heap w) chat = Some (c, ms) ->
  let u := user_message content (now w) in
  let c1 := set_historyString c (historyString c ++ history_line u) in
  exists w1 : World,
    record_message chat u w = (Ok tt, w1)
    /\ calls w1 = calls w /\ trace w1 = trace w /\ now w1 = now w
    /\ chats w1 = chats w
    /\ chat_view (heap w1) chat = Some (c1, ms ++ [u])
    /\ match callLLMWithValidation llm
               (createConversationPrompt (historyString c1) content) [] chat
               default_maxRetries default_timeoutMs w1 with
       | (Ok response, w2) =>
           let l := llm_message (reply response) (now w2) in
           exists w' : World,
             sendMessage chat content llm w = (Ok response, w')
             /\ calls w' = calls w2 /\ trace w' = trace w2 /\ now w' = now w2
             /\ chats w' = chats w
             /\ chat_view (heap w') chat =
                Some (set_historyString c1 (historyString c1 ++ history_line l),
                      ms ++ [u; l])
       | (Throw e, w2) =>
           sendMessage chat content llm w = (Throw e, w2)
           /\ heap w2 = heap w1
       end.
Proof.
  intros Hv u c1. pose proof Hv as (Hc & es & Ha & Hms)%chat_view_Some.
  exists (set_heap (heap_with_message (heap w) chat c es u) w).
  assert (chat_view (heap_with_message (heap w) chat c es u) chat
          = Some (c1, ms ++ [u])) as Hv1
    by exact (with_message_view (heap w) chat c es u Hc Ha ms Hms).
  split; [by rewrite run_record_message, Hc, Ha|].
  do 4 (split; [reflexivity|]). split; [exact Hv1|].
  rewrite (run_sendMessage chat content llm w c es Hc Ha). cbv zeta.
  fold u c1.
  pose proof (callLLM_heap llm (createConversationPrompt (historyString c1) content)
                [] chat default_maxRetries default_timeoutMs
                (set_heap (heap_with_message (heap w) chat c es u) w)
                (Forall_nil_2 _)) as [Hheap Hchats].
  destruct (callLLMWithValidation _ _ _ _ _ _ _) as [[response|e] w2];
    cbn [snd heap set_heap chats] in Hheap, Hchats.
  - eexists. split; [reflexivity|]. do 3 (split; [reflexivity|]).
    split; [exact Hchats|]. cbn [heap set_heap].
    pose proof Hv1 as (Hc1 & es1 & Ha1 & Hms1)%chat_view_Some.
    assert (es1 = es ++ [length (heap w)]) as ->.
    { pose proof (with_message_array (heap w) chat c es u Hc Ha) as Ha1'.
      cbn [messages c1 set_historyString] in Ha1. congruence. }
    rewrite (with_message_view _ chat c1 _ _ Hc1 Ha1 _ Hms1).
    by rewrite <- app_assoc.
  - split; [reflexivity|]. exact Hheap.
Qed.

(** ** Heaps that agree on a prefix *)

Lemma agree_app (h ext : list Obj) : agree_below (length h) h (h ++ ext).
Proof. intros i Hi. by apply lookup_app_l. Qed.

Lemma agree_insert_fresh (h ext : list Obj) (b : addr) (o : Obj) :
  length h <= b -> agree_below (length h) h (<[b:=o]> (h ++ ext)).
Proof.
  intros Hb i Hi. rewrite list_lookup_insert_ne by lia. by apply lookup_app_l.
Qed.

Lemma heap_messages_agree (h h' : list Obj) (es : list addr)
    (ms : list Message) :
  agree_below (length h) h h' ->
  heap_messages h es = Some ms -> heap_messages h' es = Some ms.
Proof.
  intros Hag Hms. rewrite <- Hms. apply heap_messages_ext. intros e He.
  destruct (heap_messages_elem _ _ _ _ Hms He) as [m Hm].
  apply Hag. by eapply lookup_lt_Some.
Qed.

Lemma heap_chat_agree (h h' : list Obj) (a : addr) (c : Chat) :
  agree_below (length h) h h' ->
  heap_chat h a = Some c -> heap_chat h' a = Some c.
Proof.
  intros Hag Hc. pose proof (heap_chat_lt _ _ _ Hc) as Hlt.
  unfold heap_chat in *. by rewrite Hag.
Qed.

Lemma heap_array_agree (h h' : list Obj) (a : addr) (es : list addr) :
  agree_below (length h) h h' ->
  heap_array h a = Some es -> heap_array h' a = Some es.
Proof.
  intros Hag Ha. pose proof (heap_array_lt _ _ _ Ha) as Hlt.
  unfold heap_array in *. by rewrite Hag.
Qed.

Lemma chat_view_agree (h h' : list Obj) (a : addr) (c : Chat)
    (ms : list Message) :
  agree_below (length h) h h' ->
  chat_view h a = Some (c, ms) -> chat_view h' a = Some (c, ms).
Proof.
  intros Hag (Hc & es & Ha & Hms)%chat_view_Some. apply chat_view_Some.
  split; [by eapply heap_chat_agree|].
  exists es. split; [by eapply heap_array_agree | by eapply heap_messages_agree].
Qed.

Lemma chat_consistent_agree (h h' : list Obj) (c : Chat) :
  agree_below (length h) h h' ->
  chat_consistent h c -> chat_consistent h' c.
Proof.
  intros Hag (es & ms & Ha & Hms & Hh). exists es, ms.
  split; [by eapply heap_array_agree|].
  split; [by eapply heap_messages_agree | done].
Qed.

(** ** Consistent heaps *)

Lemma heap_consistent_nil : heap_consistent [].
Proof. split; intros *; unfold heap_chat; by rewrite lookup_nil. Qed.

Lemma chat_consistent_view (h : list Obj) (a : addr) (c : Chat) :
  heap_chat h a = Some c -> chat_consistent h c ->
  exists ms, chat_view h a = Some (c, ms) /\ historyString c = transcript ms.
Proof.
  intros Hc (es & ms & Ha & Hms & Hh). exists ms. split; [|done].
  apply chat_view_Some. eauto.
Qed.

Lemma chat_consistent_array_lt (h : list Obj) (c : Chat) :
  chat_consistent h c -> messages c < length h.
Proof. intros (es & ms & Ha & _). by eapply heap_array_lt. Qed.

(** Objects that are not chats can be added freely. *)
Lemma heap_chat_app_no_chat (h ext : list Obj) (a : addr) :
  Forall (fun o => match o with OChat _ => False | _ => True end) ext ->
  heap_chat (h ++ ext) a = heap_chat h a.
Proof.
  intros Hext. unfold heap_chat. rewrite lookup_app.
  destruct (h !! a) as [o|] eqn:Hh; [done|].
  destruct (ext !! (a - length h)) as [o|] eqn:He; [|done].
  rewrite Forall_lookup in Hext. specialize (Hext _ _ He). by destruct o.
Qed.

Lemma heap_consistent_app_no_chat (h ext : list Obj) :
  Forall (fun o => match o with OChat _ => False | _ => True end) ext ->
  heap_consistent h -> heap_consistent (h ++ ext).
Proof.
  intros Hext [Hcons Hinj]. split.
  - intros a c. rewrite heap_chat_app_no_chat by done. intros Hc.
    eapply chat_consistent_agree; [apply agree_app | by eapply Hcons].
  - intros a b ca cb. rewrite !heap_chat_app_no_chat by done. apply Hinj.
Qed.

Lemma heap_consistent_app_messages (h : list Obj) (ms : list Message) :
  heap_consistent h -> heap_consistent (h ++ map OMessage ms).
Proof.
  apply heap_consistent_app_no_chat. by apply Forall_map, Forall_true.
Qed.

(** A new chat that comes right after its own new array. *)
Lemma heap_consistent_app_array_chat (h : list Obj) (es : list addr)
    (ms : list Message) (c : Chat) :
  heap_consistent h ->
  heap_messages h es = Some ms -> historyString c = transcript ms ->
  messages c = length h ->
  heap_consistent (h ++ [OArray es; OChat c]).
Proof.
  intros [Hcons Hinj] Hms Hh Hm.
  assert (forall a ca, heap_chat (h ++ [OArray es; OChat c]) a = Some ca ->
            heap_chat h a = Some ca \/ (a = S (length h) /\ ca = c)) as Hcases.
  { intros a ca. unfold heap_chat. rewrite lookup_app.
    destruct (h !! a) as [o|] eqn:Hh'; [by left|].
    apply lookup_ge_None in Hh'.
    destruct (a - length h) as [|[|k]] eqn:Hk; cbn; try done.
    intros [= <-]. right. split; [lia | done]. }
  split.
  - intros a ca [Hold|[-> ->]]%Hcases.
    + eapply chat_consistent_agree; [apply agree_app | by eapply Hcons].
    + exists es, ms. split.
      * rewrite Hm. unfold heap_array. by rewrite list_lookup_middle.
      * split; [|done]. eapply heap_messages_agree; [apply agree_app|done].
  - intros a b ca cb [Ha|[-> ->]]%Hcases [Hb|[-> ->]]%Hcases Hsame.
    + by eapply Hinj.
    + apply Hcons, chat_consistent_array_lt in Ha. lia.
    + apply Hcons, chat_consistent_array_lt in Hb. lia.
    + done.
Qed.

(** Recording a message in a chat. *)
Lemma heap_consistent_with_message (h : list Obj) (chat : addr) (c : Chat)
    (es : list addr) (m : Message) :
  heap_consistent h ->
  heap_chat h chat = Some c -> heap_array h (messages c) = Some es ->
  heap_consistent (heap_with_message h chat c es m).
Proof.
  intros [Hcons Hinj] Hc Ha.
  set (h' := heap_with_message h chat c es m).
  set (c1 := set_historyString c (historyString c ++ history_line m)).
  assert (forall a ca, heap_chat h' a = Some ca ->
            (a = chat /\ ca = c1) \/ (a <> chat /\ heap_chat h a = Some ca))
    as Hcases.
  { intros a ca Hca. destruct (decide (a = chat)) as [->|Hne].
    - left. split; [done|].
      pose proof (with_message_chat h chat c es m Hc) as Hc1.
      fold h' c1 in Hc1. congruence.
    - right. split; [done|].
      assert (a <> messages c) as Hna.
      { intros ->. pose proof (with_message_array h chat c es m Hc Ha) as Har.
        fold h' in Har. apply heap_chat_Some in Hca.
        apply heap_array_Some in Har. congruence. }
      assert (a <> length h) as Hnl.
      { intros ->. pose proof (with_message_new h chat c es m Hc Ha) as Hm.
        fold h' in Hm. apply heap_chat_Some in Hca.
        apply heap_message_Some in Hm. congruence. }
      unfold heap_chat in *. subst h'.
      by rewrite (with_message_other h chat c es m a) in Hca. }
  assert (forall a ca, a <> chat -> heap_chat h a = Some ca ->
            chat_consistent h' ca) as Hother.
  { intros a ca Hne Hca. destruct (Hcons _ _ Hca) as (es' & ms' & Ha' & Hms' & Hh').
    exists es', ms'. split; [|split; [|done]].
    - assert (messages ca <> messages c) as Hnm
        by (intros E; apply Hne; by eapply Hinj).
      assert (messages ca <> chat) as Hnc.
      { intros E. rewrite E in Ha'. apply heap_array_Some in Ha'.
        apply heap_chat_Some in Hc. congruence. }
      pose proof (heap_array_lt _ _ _ Ha') as Hlt.
      unfold heap_array in *. subst h'.
      rewrite (with_message_other h chat c es m); [done | done | done | lia].
    - by apply (with_message_old h chat c es m Hc Ha). }
  split.
  - intros a ca [[-> ->]|[Hne Hca]]%Hcases; [|by eapply Hother].
    subst h' c1.
    destruct (Hcons _ _ Hc) as (es' & ms' & Ha' & Hms' & Hh').
    assert (es' = es) as -> by congruence.
    exists (es ++ [length h]), (ms' ++ [m]). split; [|split].
    + exact (with_message_array h chat c es m Hc Ha).
    + rewrite heap_messages_app.
      rewrite (with_message_old h chat c es m Hc Ha _ _ Hms').
      cbn [heap_messages].
      by rewrite (with_message_new h chat c es m Hc Ha).
    + cbn [historyString set_historyString]. rewrite Hh'.
      unfold transcript. rewrite map_app, concat_app. cbn [map concat].
      by rewrite app_nil_r.
  - intros a b ca cb [[-> ->]|[Hna Hca]]%Hcases [[-> ->]|[Hnb Hcb]]%Hcases;
      cbn [c1 messages set_historyString]; intros Hsame.
    + done.
    + symmetry. by eapply Hinj.
    + by eapply Hinj.
    + by eapply Hinj.
Qed.

(** Replacing fields other than [messages] and [historyString]. *)
Lemma heap_consistent_store (h : list Obj) (chat : addr) (c c' : Chat) :
  heap_consistent h -> heap_chat h chat = Some c ->
  messages c' = messages c -> historyString c' = historyString c ->
  heap_consistent (<[chat:=OChat c']> h).
Proof.
  intros [Hcons Hinj] Hc Hm Hh.
  pose proof (heap_chat_lt _ _ _ Hc) as Hlt.
  assert (forall a ca, heap_chat (<[chat:=OChat c']> h) a = Some ca ->
            (a = chat /\ ca = c') \/ (a <> chat /\ heap_chat h a = Some ca))
    as Hcases.
  { intros a ca. destruct (decide (a = chat)) as [->|Hne].
    - rewrite heap_chat_insert_eq by done. intros [= <-]. by left.
    - rewrite heap_chat_insert_ne by done. by right. }
  assert (forall ca, chat_consistent h ca ->
            chat_consistent (<[chat:=OChat c']> h) ca) as Hkeep.
  { intros ca (es & ms & Ha & Hms & Hhist). exists es, ms.
    split; [|split; [|done]].
    - rewrite heap_array_insert_ne; [done|]. intros E. rewrite <- E in Ha.
      apply heap_array_Some in Ha. apply heap_chat_Some in Hc. congruence.
    - rewrite <- Hms. apply heap_messages_ext. intros e He.
      destruct (heap_messages_elem _ _ _ _ Hms He) as [m Hm'].
      apply list_lookup_insert_ne. intros E. rewrite <- E in Hm'.
      apply heap_chat_Some in Hc. congruence. }
  split.
  - intros a ca [[-> ->]|[Hne Hca]]%Hcases; apply Hkeep.
    + destruct (Hcons _ _ Hc) as (es & ms & Ha & Hms & Hhist).
      exists es, ms. rewrite Hm, Hh. done.
    + by eapply Hcons.
  - intros a b ca cb [[-> ->]|[Hna Hca]]%Hcases [[-> ->]|[Hnb Hcb]]%Hcases;
      rewrite ?Hm; intros Hsame.
    + done.
    + symmetry. by eapply Hinj.
    + by eapply Hinj.
    + by eapply Hinj.
Qed.

(** ** Renaming, deleting and copying *)

Lemma run_renameChat (chat : addr) (newName : jsstring) (w : World) :
  renameChat chat newName w =
  match heap_chat (heap w) chat with
  | Some c => (Ok tt, set_heap (<[chat:=OChat (set_name c newName)]> (heap w)) w)
  | None =>
      (match heap w !! chat with Some _ => Ok tt | None => Throw TypeError end,
       w)
  end.
Proof.
  unfold renameChat, load, heap_chat. rewrite run_bind.
  by destruct (heap w !! chat) as [[m|es|c]|].
Qed.

Lemma run_copy_messages (es : list addr) (ms : list Message) (w : World) :
  heap_messages (heap w) es = Some ms ->
  mapM copy_message es w =
  (Ok (seq (length (heap w)) (length ms)),
   set_heap (heap w ++ map OMessage ms) w).
Proof.
  revert ms w. induction es as [|e es IH]; intros ms w; cbn [heap_messages].
  - intros [= <-]. cbn. rewrite app_nil_r. by destruct w.
  - destruct (heap_message (heap w) e) as [m|] eqn:Hm; [|discriminate].
    destruct (heap_messages (heap w) es) as [ms'|] eqn:Hms; [|discriminate].
    intros [= <-]. cbn [mapM]. rewrite run_bind. unfold copy_message at 1.
    rewrite run_bind, run_load_message, Hm. cbn [alloc].
    rewrite run_bind.
    rewrite (IH ms').
    2:{ cbn [heap set_heap]. eapply heap_messages_agree; [apply agree_app|done]. }
    cbn [ret heap set_heap length seq map]. rewrite length_app. cbn [length].
    rewrite Nat.add_1_r, <- app_assoc. reflexivity.
Qed.

Lemma run_copy_chat (chat : addr) (w : World) (c : Chat) (ms : list Message) :
  chat_view (heap w) chat = Some (c, ms) ->
  copy_chat chat w =
  (Ok (S (length (heap w) + length ms)),
   set_heap (heap w ++ copy_objects (heap w) c ms) w).
Proof.
  intros (Hc & es & Ha & Hms)%chat_view_Some. unfold copy_chat.
  rewrite run_bind, run_load_chat, Hc.
  rewrite run_bind, run_load_array, Ha.
  rewrite run_bind, (run_copy_messages es ms w Hms).
  rewrite run_bind. cbn [alloc heap set_heap].
  rewrite !length_app, length_map. cbn [length].
  unfold copy_objects, alloc, set_heap. cbn [heap chats now calls trace].
  rewrite !length_app, length_map. cbn [length].
  rewrite Nat.add_1_r, <- !app_assoc. reflexivity.
Qed.

Lemma heap_messages_seq (h ext : list Obj) (ms : list Message) :
  heap_messages (h ++ map OMessage ms ++ ext) (seq (length h) (length ms))
  = Some ms.
Proof.
  revert h. induction ms as [|m ms IH]; intros h; [done|].
  cbn [length seq map app heap_messages].
  unfold heap_message at 1. rewrite list_lookup_middle by done.
  specialize (IH (h ++ [OMessage m])).
  rewrite length_app, Nat.add_1_r, <- app_assoc in IH. cbn [app] in IH.
  by rewrite IH.
Qed.

Lemma copy_objects_view (h ext : list Obj) (c : Chat) (ms : list Message) :
  chat_view (h ++ copy_objects h c ms ++ ext) (S (length h + length ms))
  = Some ({| name := name c; messages := length h + length ms;
             summary := summary c; historyString := historyString c |}, ms).
Proof.
  unfold copy_objects. apply chat_view_Some.
  assert (length (h ++ map OMessage ms) = length h + length ms) as Hlen
    by (by rewrite length_app, length_map).
  split; [|eexists; split].
  - apply heap_chat_Some. rewrite <- !app_assoc, (app_assoc h).
    rewrite lookup_app_r by lia. rewrite Hlen.
    by replace (S (length h + length ms) - (length h + length ms)) with 1 by lia.
  - apply heap_array_Some. cbn [messages].
    rewrite <- !app_assoc, (app_assoc h).
    rewrite lookup_app_r by lia. rewrite Hlen.
    by replace (length h + length ms - (length h + length ms)) with 0 by lia.
  - rewrite <- app_assoc. apply heap_messages_seq.
Qed.

Lemma copy_objects_footprint (h ext : list Obj) (c : Chat)
    (ms : list Message) :
  footprint (h ++ copy_objects h c ms ++ ext) (S (length h + length ms))
  = S (length h + length ms) :: (length h + length ms)
    :: seq (length h) (length ms).
Proof.
  pose proof (copy_objects_view h ext c ms) as (Hc & es & Ha & Hms)%chat_view_Some.
  unfold footprint. rewrite Hc. cbn [messages] in *. rewrite Ha.
  do 2 f_equal.
  unfold copy_objects in Ha. apply heap_array_Some in Ha.
  assert (length (h ++ map OMessage ms) = length h + length ms) as Hlen
    by (by rewrite length_app, length_map).
  rewrite <- !app_assoc, (app_assoc h) in Ha.
  rewrite lookup_app_r in Ha by lia. rewrite Hlen in Ha.
  replace (length h + length ms - (length h + length ms)) with 0 in Ha by lia.
  cbn in Ha. congruence.
Qed.

Lemma copy_objects_length (h : list Obj) (c : Chat) (ms : list Message) :
  length (copy_objects h c ms) = S (S (length ms)).
Proof.
  unfold copy_objects. rewrite length_app, length_map. cbn [length]. lia.
Qed.

Lemma heap_consistent_copy (h : list Obj) (chat : addr) (c : Chat)
    (ms : list Message) :
  heap_consistent h -> chat_view h chat = Some (c, ms) ->
  heap_consistent (h ++ copy_objects h c ms).
Proof.
  intros Hcons (Hc & es & Ha & Hms)%chat_view_Some.
  unfold copy_objects. rewrite app_assoc.
  apply heap_consistent_app_array_chat with (ms := ms).
  - by apply heap_consistent_app_messages.
  - pose proof (heap_messages_seq h [] ms) as H. by rewrite app_nil_r in H.
  - cbn [historyString]. destruct Hcons as [Hcons _].
    destruct (Hcons _ _ Hc) as (es' & ms' & Ha' & Hms' & Hh).
    congruence.
  - cbn [messages]. by rewrite length_app, length_map.
Qed.

Lemma snapshot_agree (h h' : list Obj) (a : addr) :
  agree_below (length h) h h' ->
  is_Some (snapshot h a) -> snapshot h' a = snapshot h a.
Proof.
  intros Hag [x Hx]. unfold snapshot in *.
  destruct (chat_view h a) as [[c ms]|] eqn:Hv; [|discriminate].
  by rewrite (chat_view_agree h h' a c ms Hag Hv).
Qed.

Lemma snapshot_is_Some (h : list Obj) (a : addr) :
  is_Some (snapshot h a) <-> is_Some (chat_view h a).
Proof.
  unfold snapshot. destruct (chat_view h a) as [[c ms]|]; [|done].
  split; intros _; eauto.
Qed.

Lemma set_heap_id (w : World) : set_heap (heap w) w = w.
Proof. by destruct w. Qed.

Lemma footprint_copy_NoDup (n k : nat) :
  NoDup (S (n + k) :: (n + k) :: seq n k).
Proof.
  apply NoDup_cons. split.
  - rewrite elem_of_cons, elem_of_seq. lia.
  - apply NoDup_cons. split; [rewrite elem_of_seq; lia | apply NoDup_seq].
Qed.

Lemma footprint_copy_range (n k : nat) :
  Forall (fun x => n <= x < n + S (S k)) (S (n + k) :: (n + k) :: seq n k).
Proof.
  apply Forall_cons. split; [lia|]. apply Forall_cons. split; [lia|].
  apply Forall_forall. intros x Hx%elem_of_seq. lia.
Qed.

Lemma Forall2_with_l {A B} (P : A -> Prop) (R : A -> B -> Prop)
    (l : list A) (k : list B) :
  Forall P l -> Forall2 R l k -> Forall2 (fun x y => P x /\ R x y) l k.
Proof.
  intros HP HR. induction HR as [|x y l k Hxy HR IH]; [constructor|].
  apply Forall_cons in HP as [Hx HP]. constructor; [done | by apply IH].
Qed.

(** [getChats] on registered chats that are all in place: every chat is
    copied, in order, into objects that did not exist before; the objects of
    the copies are all distinct; a consistent heap stays consistent. *)
Lemma run_copy_chats (cs : list addr) (w : World) :
  Forall (fun a => is_Some (chat_view (heap w) a)) cs ->
  exists (copies : list addr) (ext : list Obj),
    mapM copy_chat cs w = (Ok copies, set_heap (heap w ++ ext) w)
    /\ Forall2 (is_copy (heap w) (heap w ++ ext)) cs copies
    /\ Forall (fun x => length (heap w) <= x < length (heap w ++ ext))
         (concat (map (footprint (heap w ++ ext)) copies))
    /\ NoDup (concat (map (footprint (heap w ++ ext)) copies))
    /\ (heap_consistent (heap w) -> heap_consistent (heap w ++ ext)).
Proof.
  revert w. induction cs as [|a cs IH]; intros w Hcs.
  { exists [], []. rewrite app_nil_r, set_heap_id. cbn.
    split; [done|]. split; [constructor|]. split; [constructor|].
    split; [constructor | done]. }
  apply Forall_cons in Hcs as [[[c ms] Hv] Hcs].
  set (h := heap w) in *.
  set (co := copy_objects h c ms).
  set (w1 := set_heap (h ++ co) w).
  assert (agree_below (length h) h (h ++ co)) as Hag1 by apply agree_app.
  destruct (IH w1) as (copies & ext & Hrun & Hcopies & Hrange & Hnd & Hcons).
  { eapply Forall_impl; [exact Hcs|]. intros a' [[c' ms'] Hv'].
    exists (c', ms'). by apply (chat_view_agree h). }
  change (set_heap (heap w1 ++ ext) w1)
    with (set_heap ((h ++ co) ++ ext) w) in Hrun.
  change (heap w1) with (h ++ co) in Hcopies, Hrange, Hnd, Hcons.
  exists (S (length h + length ms) :: copies), (co ++ ext).
  rewrite app_assoc.
  assert (length (h ++ co) = length h + S (S (length ms))) as Hlen1
    by (rewrite length_app; unfold co; by rewrite copy_objects_length).
  assert (footprint ((h ++ co) ++ ext) (S (length h + length ms))
          = S (length h + length ms) :: (length h + length ms)
            :: seq (length h) (length ms)) as Hfp.
  { rewrite <- app_assoc. apply copy_objects_footprint. }
  split; [|split; [|split; [|split]]].
  - cbn [mapM]. rewrite run_bind, (run_copy_chat a w c ms Hv).
    fold h co w1. by rewrite run_bind, Hrun.
  - constructor.
    + split; [apply snapshot_is_Some; by rewrite Hv|]. split.
      * unfold snapshot. rewrite <- app_assoc.
        unfold co. rewrite copy_objects_view. by rewrite Hv.
      * rewrite Hfp. eapply Forall_impl; [apply footprint_copy_range|].
        intros x Hx. cbn beta in Hx. lia.
    + eapply Forall2_impl; [exact (Forall2_with_l _ _ _ _ Hcs Hcopies)|].
      intros a' copy (Hsome' & Hsome & Hsnap & Hfresh).
      apply snapshot_is_Some in Hsome'.
      split; [done|]. split.
      * rewrite Hsnap. by apply snapshot_agree.
      * eapply Forall_impl; [exact Hfresh|]. intros x Hx. cbn beta in Hx. lia.
  - cbn [map concat]. apply Forall_app. split.
    + rewrite Hfp. eapply Forall_impl; [apply footprint_copy_range|].
      intros x Hx. cbn beta in Hx. rewrite length_app, Hlen1. lia.
    + eapply Forall_impl; [exact Hrange|]. intros x Hx. cbn beta in Hx. lia.
  - cbn [map concat]. apply NoDup_app. split; [|split; [|done]].
    + rewrite Hfp. apply footprint_copy_NoDup.
    + intros x Hx Hx'. rewrite Hfp in Hx.
      pose proof (footprint_copy_range (length h) (length ms)) as Hr.
      rewrite Forall_forall in Hr, Hrange.
      specialize (Hr _ Hx). specialize (Hrange _ Hx'). lia.
  - intros Hh. apply Hcons. unfold co. by eapply heap_consistent_copy.
Qed.

(** ** One operation on a consistent world *)

Lemma world_consistent_chat_view (w : World) (a : addr) (c : Chat) :
  world_consistent w -> heap_chat (heap w) a = Some c ->
  exists ms, chat_view (heap w) a = Some (c, ms)
             /\ historyString c = transcript ms.
Proof.
  intros [[Hcons _] _] Hc. apply chat_consistent_view; [done|].
  by eapply Hcons.
Qed.

Lemma registered_agree (h h' : list Obj) (cs : list addr) :
  agree_below (length h) h h' ->
  Forall (fun a => is_Some (heap_chat h a)) cs ->
  Forall (fun a => is_Some (heap_chat h' a)) cs.
Proof.
  intros Hag Hcs. eapply Forall_impl; [exact Hcs|]. intros a [c Hc].
  exists c. by eapply heap_chat_agree.
Qed.

Lemma registered_store (h : list Obj) (chat : addr) (c' : Chat)
    (cs : list addr) :
  Forall (fun a => is_Some (heap_chat h a)) cs ->
  Forall (fun a => is_Some (heap_chat (<[chat:=OChat c']> h) a)) cs.
Proof.
  intros Hcs. eapply Forall_impl; [exact Hcs|]. intros a [c Hc].
  destruct (decide (chat = a)) as [->|Hne].
  - exists c'. apply heap_chat_insert_eq. by eapply heap_chat_lt.
  - exists c. by rewrite heap_chat_insert_ne.
Qed.

Lemma registered_with_message (h : list Obj) (chat : addr) (c : Chat)
    (es : list addr) (m : Message) (cs : list addr) :
  heap_chat h chat = Some c -> heap_array h (messages c) = Some es ->
  Forall (fun a => is_Some (heap_chat h a)) cs ->
  Forall (fun a => is_Some (heap_chat (heap_with_message h chat c es m) a)) cs.
Proof.
  intros Hc Ha Hcs. eapply Forall_impl; [exact Hcs|]. intros a [ca Hca].
  destruct (decide (a = chat)) as [->|Hne].
  - eexists. by apply with_message_chat.
  - exists ca. unfold heap_chat.
    rewrite (with_message_other h chat c es m); [done | done | |].
    + intros ->. apply heap_chat_Some in Hca. apply heap_array_Some in Ha.
      congruence.
    + apply heap_chat_lt in Hca. lia.
Qed.

(** What every operation keeps or brings about: consistency; a heap that
    does not shrink; registered references that were registered before or
    are new. *)
Lemma run_op_effect (op : Op) (w : World) :
  world_consistent w ->
  world_consistent (run_op op w)
  /\ length (heap w) <= length (heap (run_op op w))
  /\ (forall a, a ∈ chats (run_op op w) ->
        a ∈ chats w \/ length (heap w) <= a).
Proof.
  intros Hw. pose proof Hw as [Hheap Hreg].
  destruct op as [name|chat|chat newName|chat content llm|chat llm|];
    cbn [run_op].
  - (* makeChat *)
    rewrite run_makeChat. cbn [snd heap chats set_heap set_chats].
    split; [split|split]; cbn [heap chats set_heap set_chats].
    + by apply heap_consistent_app_array_chat with (ms := []).
    + apply Forall_app. split.
      * eapply registered_agree; [apply agree_app | done].
      * apply Forall_singleton. eexists.
        pose proof (makeChat_view name (heap w)) as (Hc & _)%chat_view_Some.
        exact Hc.
    + rewrite length_app. lia.
    + intros a [Ha|Ha%list_elem_of_singleton]%elem_of_app; [by left|].
      right. lia.
  - (* deleteChat *)
    cbn [deleteChat snd heap chats set_chats].
    split; [split|split]; [done | | done |].
    + apply Forall_forall. intros a [_ Ha]%list_elem_of_filter.
      rewrite Forall_forall in Hreg. by apply Hreg.
    + intros a [_ Ha]%list_elem_of_filter. by left.
  - (* renameChat *)
    rewrite run_renameChat.
    destruct (heap_chat (heap w) chat) as [c|] eqn:Hc;
      cbn [snd heap chats set_heap]; [|by eauto].
    split; [split|split]; cbn [heap chats set_heap set_chats].
    + by eapply heap_consistent_store.
    + by apply registered_store.
    + by rewrite length_insert.
    + by left.
  - (* sendMessage *)
    destruct (heap_chat (heap w) chat) as [c|] eqn:Hc.
    2:{ rewrite run_sendMessage_untyped
          by (unfold chat_fields_missing; by rewrite Hc).
        cbn [snd heap chats set_heap].
        split; [split|split]; cbn [heap chats set_heap set_chats].
        - by apply (heap_consistent_app_messages _ [_]).
        - eapply registered_agree; [apply agree_app | done].
        - rewrite length_app. lia.
        - by left. }
    destruct Hheap as [Hcons Hinj].
    destruct (Hcons _ _ Hc) as (es & ms & Ha & Hms & Hh).
    rewrite (run_sendMessage chat content llm w c es Hc Ha). cbv zeta.
    set (u := user_message content (now w)).
    set (c1 := set_historyString c (historyString c ++ history_line u)).
    set (w1 := set_heap (heap_with_message (heap w) chat c es u) w).
    assert (heap_consistent (heap w1)) as Hcons1
      by (by apply heap_consistent_with_message).
    assert (Forall (fun a => is_Some (heap_chat (heap w1) a)) (chats w)) as Hreg1
      by (by apply registered_with_message).
    assert (length (heap w1) = S (length (heap w))) as Hlen1
      by exact (with_message_length (heap w) chat c es u).
    pose proof (callLLM_heap llm
                  (createConversationPrompt (historyString c1) content) []
                  chat default_maxRetries default_timeoutMs w1
                  (Forall_nil_2 _)) as [Hheap2 Hchats2].
    destruct (callLLMWithValidation _ _ _ _ _ _ w1) as [[response|e] w2];
      cbn [snd] in *; cbn [heap chats set_heap].
    + assert (heap_chat (heap w1) chat = Some c1) as Hc1
        by exact (with_message_chat (heap w) chat c es u Hc).
      assert (heap_array (heap w1) (messages c1)
              = Some (es ++ [length (heap w)])) as Ha1
        by exact (with_message_array (heap w) chat c es u Hc Ha).
      split; [split|split]; cbn [heap chats set_heap set_chats];
        rewrite ?Hchats2.
      * by apply heap_consistent_with_message.
      * by apply registered_with_message.
      * rewrite with_message_length. lia.
      * by left.
    + split; [split|split]; rewrite ?Hheap2, ?Hchats2; [done | done | lia |].
      by left.
  - (* updateSummary *)
    destruct (heap_chat (heap w) chat) as [c|] eqn:Hc.
    2:{ rewrite run_updateSummary_untyped
          by (unfold chat_fields_missing; by rewrite Hc).
        cbn [snd]. eauto. }
    destruct Hheap as [Hcons Hinj].
    destruct (Hcons _ _ Hc) as (es & ms & Ha & Hms & Hh).
    rewrite (run_updateSummary chat llm w c es Hc Ha).
    destruct (length es =? 0); [cbn [snd]; by eauto|].
    pose proof (callLLM_heap llm (createSummaryPrompt (historyString c))
                  [validateSummaryLength] chat default_maxRetries
                  default_timeoutMs w) as Hcall.
    destruct Hcall as [Hheap2 Hchats2].
    { constructor; [apply validateSummaryLength_read_only | constructor]. }
    destruct (callLLMWithValidation _ _ _ _ _ _ w) as [[response|e] w2];
      cbn [snd] in *; cbn [heap chats set_heap].
    + split; [split|split]; cbn [heap chats set_heap set_chats];
        rewrite ?Hchats2.
      * by eapply heap_consistent_store.
      * by apply registered_store.
      * by rewrite length_insert.
      * by left.
    + split; [split|split]; rewrite ?Hheap2, ?Hchats2; [done | done | lia |].
      by left.
  - (* getChats *)
    unfold getChats.
    destruct (run_copy_chats (chats w) w) as (copies & ext & Hrun & _ & _ & _ & Hc).
    { eapply Forall_impl; [exact Hreg|]. intros a [c Hca].
      destruct (world_consistent_chat_view w a c Hw Hca) as (ms & Hv & _).
      by rewrite Hv. }
    rewrite Hrun. cbn [snd heap chats set_heap].
    split; [split|split]; cbn [heap chats set_heap set_chats].
    + by apply Hc.
    + eapply registered_agree; [apply agree_app | done].
    + rewrite length_app. lia.
    + by left.
Qed.

Lemma world_consistent_init : world_consistent init.
Proof. split; [apply heap_consistent_nil | constructor]. Qed.

Lemma run_ops_consistent (ops : list Op) (w : World) :
  world_consistent w -> world_consistent (run_ops ops w).
Proof.
  revert w. induction ops as [|op ops IH]; intros w Hw; [done|].
  cbn [run_ops fold_left]. apply IH. by apply run_op_effect.
Qed.

(** A reference that exists and is not registered is never registered
    again. *)
Lemma run_ops_keeps_unregistered (ops : list Op) (w : World) (c : addr) :
  world_consistent w -> c < length (heap w) -> c ∉ chats w ->
  c ∉ chats (run_ops ops w).
Proof.
  revert w. induction ops as [|op ops IH]; intros w Hw Hlt Hnotin; [done|].
  cbn [run_ops fold_left].
  destruct (run_op_effect op w Hw) as (Hw' & Hlen & Hchats).
  apply IH; [done | lia |].
  intros [Hin|Hge]%Hchats; [done | lia].
Qed.

(** ** Computations that only add objects *)

Lemma grows_refl (w : World) : grows w w.
Proof. exists []. by rewrite app_nil_r. Qed.

Lemma grows_trans (w1 w2 w3 : World) : grows w1 w2 -> grows w2 w3 -> grows w1 w3.
Proof.
  intros [e1 H1] [e2 H2]. exists (e1 ++ e2). by rewrite H2, H1, app_assoc.
Qed.

Lemma grows_agree (w w' : World) :
  grows w w' -> agree_below (length (heap w)) (heap w) (heap w').
Proof. intros [ext ->]. apply agree_app. Qed.

Lemma only_grows_bind {A B} (m : M A) (k : A -> M B) :
  only_grows m -> (forall a, only_grows (k a)) -> only_grows (bind m k).
Proof.
  intros Hm Hk w. rewrite run_bind. specialize (Hm w).
  destruct (m w) as [[a|e] w1]; cbn [snd] in *; [|done].
  eapply grows_trans; [exact Hm | apply Hk].
Qed.

Lemma only_grows_ret {A} (a : A) : only_grows (ret a).
Proof. intros w. apply grows_refl. Qed.

Lemma only_grows_alloc (o : Obj) : only_grows (alloc o).
Proof. intros w. by exists [o]. Qed.

Lemma only_grows_load_chat (a : addr) : only_grows (load_chat a).
Proof. intros w. rewrite run_load_chat. apply grows_refl. Qed.

Lemma only_grows_load_array (a : addr) : only_grows (load_array a).
Proof. intros w. rewrite run_load_array. apply grows_refl. Qed.

Lemma only_grows_load_message (a : addr) : only_grows (load_message a).
Proof. intros w. rewrite run_load_message. apply grows_refl. Qed.

Lemma only_grows_mapM {A B} (f : A -> M B) (l : list A) :
  (forall a, only_grows (f a)) -> only_grows (mapM f l).
Proof.
  intros Hf. induction l as [|a l IH]; cbn [mapM]; [apply only_grows_ret|].
  apply only_grows_bind; [apply Hf|]. intros b.
  apply only_grows_bind; [apply IH|]. intros bs. apply only_grows_ret.
Qed.

Lemma only_grows_copy_chat (chat : addr) : only_grows (copy_chat chat).
Proof.
  unfold copy_chat.
  apply only_grows_bind; [apply only_grows_load_chat|]. intros c.
  apply only_grows_bind; [apply only_grows_load_array|]. intros es.
  apply only_grows_bind.
  { apply only_grows_mapM. intros e. unfold copy_message.
    apply only_grows_bind; [apply only_grows_load_message|]. intros m.
    apply only_grows_alloc. }
  intros copies.
  apply only_grows_bind; [apply only_grows_alloc|]. intros msgs.
  apply only_grows_alloc.
Qed.

Lemma getChats_grows (w : World) : grows w (snd (getChats w)).
Proof. unfold getChats. apply only_grows_mapM, only_grows_copy_chat. Qed.

(** ** The history is only ever extended *)

Lemma transcript_app (ms1 ms2 : list Message) :
  transcript (ms1 ++ ms2) = transcript ms1 ++ transcript ms2.
Proof. unfold transcript. by rewrite map_app, concat_app. Qed.

Lemma transcript_singleton (m : Message) : transcript [m] = history_line m.
Proof. unfold transcript. cbn [map concat]. by rewrite app_nil_r. Qed.

(** Whatever the world, an operation leaves every chat object in place with
    its array, and its history is what it was followed by the lines of the
    messages that the operation recorded in it: none, unless the operation
    is a [sendMessage] on that chat, which records the user message and,
    when a reply came, the reply message. *)
Lemma history_step (w : World) (op : Op) (chat : addr) (c : Chat) :
  heap_chat (heap w) chat = Some c ->
  exists (c' : Chat) (added : list Message),
    heap_chat (heap (run_op op w)) chat = Some c'
    /\ messages c' = messages c
    /\ historyString c' = historyString c ++ transcript added
    /\ (added = []
        \/ exists content llm,
             op = OpSendMessage chat content llm
             /\ (added = [user_message content (now w)]
                 \/ exists response t,
                      added = [user_message content (now w);
                               llm_message response t])).
Proof.
  intros Hc.
  assert (forall h', agree_below (length (heap w)) (heap w) h' ->
            exists c' added,
              heap_chat h' chat = Some c' /\ messages c' = messages c
              /\ historyString c' = historyString c ++ transcript added
              /\ (added = []
                  \/ exists content llm,
                       op = OpSendMessage chat content llm
                       /\ (added = [user_message content (now w)]
                           \/ exists response t,
                                added = [user_message content (now w);
                                         llm_message response t])))
    as Hsame.
  { intros h' Hag. exists c, []. split; [by eapply heap_chat_agree|].
    split; [done|]. split; [by rewrite app_nil_r | by left]. }
  destruct op as [name|chat0|chat0 newName|chat0 content llm|chat0 llm|];
    cbn [run_op].
  - (* makeChat *)
    rewrite run_makeChat. cbn [snd heap set_heap set_chats].
    apply Hsame, agree_app.
  - (* deleteChat *)
    cbn [deleteChat snd heap set_chats]. apply Hsame. by intros i _.
  - (* renameChat *)
    rewrite run_renameChat.
    destruct (heap_chat (heap w) chat0) as [c0|] eqn:Hc0;
      cbn [snd heap set_heap]; [|apply Hsame; by intros i _].
    destruct (decide (chat0 = chat)) as [->|Hne].
    + exists (set_name c0 newName), []. rewrite app_nil_r.
      assert (c0 = c) as -> by congruence.
      split; [apply heap_chat_insert_eq; by eapply heap_chat_lt|].
      split; [done|]. split; [done | by left].
    + exists c, []. rewrite app_nil_r, heap_chat_insert_ne by done.
      split; [done|]. split; [done|]. split; [done | by left].
  - (* sendMessage *)
    destruct (heap_chat (heap w) chat0) as [c0|] eqn:Hc0.
    2:{ rewrite run_sendMessage_untyped
          by (unfold chat_fields_missing; by rewrite Hc0).
        cbn [snd heap set_heap]. apply Hsame, agree_app. }
    destruct (heap_array (heap w) (messages c0)) as [es|] eqn:Ha0.
    2:{ rewrite run_sendMessage_untyped
          by (unfold chat_fields_missing; by rewrite Hc0).
        cbn [snd heap set_heap]. apply Hsame, agree_app. }
    rewrite (run_sendMessage chat0 content llm w c0 es Hc0 Ha0). cbv zeta.
    set (u := user_message content (now w)).
    set (c1 := set_historyString c0 (historyString c0 ++ history_line u)).
    set (w1 := set_heap (heap_with_message (heap w) chat0 c0 es u) w).
    assert (heap_chat (heap w1) chat0 = Some c1) as Hc1
      by exact (with_message_chat (heap w) chat0 c0 es u Hc0).
    assert (heap_array (heap w1) (messages c1)
            = Some (es ++ [length (heap w)])) as Ha1
      by exact (with_message_array (heap w) chat0 c0 es u Hc0 Ha0).
    assert (length (heap w1) = S (length (heap w))) as Hlen1
      by exact (with_message_length (heap w) chat0 c0 es u).
    pose proof (callLLM_heap llm
                  (createConversationPrompt (historyString c1) content) []
                  chat0 default_maxRetries default_timeoutMs w1
                  (Forall_nil_2 _)) as [Hheap2 _].
    destruct (decide (chat = chat0)) as [->|Hne].
    + assert (c0 = c) as -> by congruence.
      destruct (callLLMWithValidation _ _ _ _ _ _ w1) as [[response|e] w2];
        cbn [snd] in *; cbn [heap set_heap].
      * eexists _, [u; llm_message (reply response) (now w2)].
        split; [exact (with_message_chat (heap w1) chat0 c1 _ _ Hc1)|].
        split; [done|]. split.
        -- cbn [historyString set_historyString c1].
           change [u; llm_message (reply response) (now w2)]
             with ([u] ++ [llm_message (reply response) (now w2)]).
           by rewrite transcript_app, !transcript_singleton, app_assoc.
        -- right. exists content, llm. split; [done|]. right. eauto.
      * rewrite Hheap2. exists c1, [u]. split; [done|]. split; [done|].
        split; [by rewrite transcript_singleton|].
        right. exists content, llm. split; [done|]. by left.
    + assert (heap_chat (heap w1) chat = Some c) as Hkeep1.
      { unfold heap_chat.
        rewrite (with_message_other (heap w) chat0 c0 es u); [done | done | |].
        - intros ->. apply heap_chat_Some in Hc. apply heap_array_Some in Ha0.
          congruence.
        - apply heap_chat_lt in Hc. lia. }
      destruct (callLLMWithValidation _ _ _ _ _ _ w1) as [[response|e] w2];
        cbn [snd] in *; cbn [heap set_heap].
      * exists c, []. rewrite app_nil_r. split; [|by eauto].
        unfold heap_chat.
        rewrite (with_message_other (heap w1) chat0 c1); [done | done | |].
        -- intros ->. apply heap_chat_Some in Hkeep1.
           apply heap_array_Some in Ha1. congruence.
        -- apply heap_chat_lt in Hkeep1. lia.
      * rewrite Hheap2. exists c, []. rewrite app_nil_r. by eauto.
  - (* updateSummary *)
    destruct (heap_chat (heap w) chat0) as [c0|] eqn:Hc0.
    2:{ rewrite run_updateSummary_untyped
          by (unfold chat_fields_missing; by rewrite Hc0).
        cbn [snd]. apply Hsame. by intros i _. }
    destruct (heap_array (heap w) (messages c0)) as [es|] eqn:Ha0.
    2:{ rewrite run_updateSummary_untyped
          by (unfold chat_fields_missing; by rewrite Hc0).
        cbn [snd]. apply Hsame. by intros i _. }
    rewrite (run_updateSummary chat0 llm w c0 es Hc0 Ha0).
    destruct (length es =? 0); [cbn [snd]; apply Hsame; by intros i _|].
    pose proof (callLLM_heap llm (createSummaryPrompt (historyString c0))
                  [validateSummaryLength] chat0 default_maxRetries
                  default_timeoutMs w) as Hcall.
    destruct Hcall as [Hheap2 _].
    { constructor; [apply validateSummaryLength_read_only | constructor]. }
    destruct (callLLMWithValidation _ _ _ _ _ _ w) as [[response|e] w2];
      cbn [snd] in *; cbn [heap set_heap].
    + destruct (decide (chat0 = chat)) as [->|Hne].
      * exists (set_summary c0 (reply response)), []. rewrite app_nil_r.
        assert (c0 = c) as -> by congruence.
        split; [apply heap_chat_insert_eq; by eapply heap_chat_lt|].
        split; [done|]. split; [done | by left].
      * exists c, []. rewrite app_nil_r, heap_chat_insert_ne by done.
        split; [done|]. split; [done|]. split; [done | by left].
    + rewrite Hheap2. apply Hsame. by intros i _.
  - (* getChats *)
    apply Hsame, grows_agree, getChats_grows.
Qed.

(** ** Invariants of the store *)

Lemma history_line_rendering (m : Message) :
  history_line m =
  js "[" ++ match role m with Role_user => js "USER" | Role_llm => js "LLM" end
  ++ js "] " ++ content m ++ [newline].
Proof. unfold history_line. by destruct (role m). Qed.

Lemma Forall2_map_eq {A B C} (f : B -> C) (g : A -> C) (l : list A)
    (k : list B) :
  Forall2 (fun a b => f b = g a) l k -> map f k = map g l.
Proof. induction 1 as [|a b l k H _ IH]; cbn [map]; congruence. Qed.

Lemma registered_footprint (w : World) :
  world_consistent w ->
  Forall (fun x => x < length (heap w))
    (concat (map (footprint (heap w)) (chats w))).
Proof.
  intros Hw. pose proof Hw as [_ Hreg].
  apply Forall_concat, Forall_map.
  eapply Forall_impl; [exact Hreg|]. intros a [c Hc]. cbn beta.
  destruct (world_consistent_chat_view w a c Hw Hc) as (ms & Hv & _).
  apply chat_view_Some in Hv as (_ & es & Ha & Hms).
  unfold footprint. rewrite Hc, Ha.
  apply Forall_cons. split; [by eapply heap_chat_lt|].
  apply Forall_cons. split; [by eapply heap_array_lt|].
  apply Forall_forall. intros e He.
  destruct (heap_messages_elem _ _ _ _ Hms He) as [m Hm].
  by eapply lookup_lt_Some.
Qed.


(** ** The time an attempt cycle takes *)

Lemma attempt_time_le (o : LLMOutcome) (timeoutMs : N) :
  (attempt_time o timeoutMs <= timeoutMs)%N.
Proof.
  destruct o as [after s|]; cbn; [|lia].
  destruct (after <? timeoutMs)%N eqn:E; [|lia].
  apply N.ltb_lt in E. lia.
Qed.

Lemma backoff_SS (attempt remaining : nat) :
  backoff attempt (S (S remaining))
  = (500 * N.of_nat attempt + backoff (S attempt) (S remaining))%N.
Proof. reflexivity. Qed.

Lemma attempts_time (llm : GeminiLLM) (prompt : jsstring)
    (validators : list validator) (chat : addr) (maxRetries : nat)
    (timeoutMs : N) :
  Forall read_only validators ->
  forall (remaining attempt : nat) (w : World),
  attempt + remaining = S maxRetries ->
  let w' := snd (attempts remaining attempt llm prompt validators chat
                   maxRetries timeoutMs w) in
  (now w <= now w'
   /\ now w' <= now w + N.of_nat remaining * timeoutMs
                + backoff attempt remaining)%N.
Proof.
  intros Hro remaining.
  induction remaining as [|remaining IH]; intros attempt w Hsum.
  - cbn. lia.
  - cbv zeta. rewrite run_attempts_S by done. cbv zeta.
    pose proof (attempt_time_le (executeLLM llm (calls w) prompt) timeoutMs)
      as Hle.
    set (t := attempt_time (executeLLM llm (calls w) prompt) timeoutMs) in *.
    destruct (checked validators chat _ _) as [response|e].
    + cbn [snd after_call now]. lia.
    + destruct (attempt =? maxRetries) eqn:E.
      * cbn [snd after_call now console_warn log]. lia.
      * apply Nat.eqb_neq in E.
        destruct remaining as [|remaining]; [lia|].
        specialize (IH (S attempt)
          (snd (sleep (500 * N.of_nat attempt)
                  (snd (console_warn attempt e (after_call prompt t w)))))).
        cbv zeta in IH. destruct IH as [IH1 IH2]; [lia|].
        rewrite backoff_SS.
        change (now (snd (sleep (500 * N.of_nat attempt)
                  (snd (console_warn attempt e (after_call prompt t w))))))
          with (now w + t + 500 * N.of_nat attempt)%N in IH1, IH2.
        lia.
Qed.

Lemma callLLM_time (llm : GeminiLLM) (prompt : jsstring)
    (validators : list validator) (chat : addr) (maxRetries : nat)
    (timeoutMs : N) (w : World) :
  Forall read_only validators ->
  let w' := snd (callLLMWithValidation llm prompt validators chat maxRetries
                   timeoutMs w) in
  (now w <= now w' /\ now w' <= now w + cycle_time maxRetries timeoutMs)%N.
Proof.
  intros Hro. unfold callLLMWithValidation, cycle_time.
  pose proof (attempts_time llm prompt validators chat maxRetries timeoutMs
                Hro maxRetries 1 w eq_refl) as H.
  cbv zeta in *. lia.
Qed.

(** ** The three attempts of the default cycle *)

Lemma callLLM_three_attempts (llm : GeminiLLM) (prompt : jsstring)
    (chat : addr) (w : World) :
  let r i := attempt_result (executeLLM llm (calls w + i) prompt)
               default_timeoutMs in
  let res := callLLMWithValidation llm prompt [] chat default_maxRetries
               default_timeoutMs w in
  fst res = first_reply (r 0) (r 1) (r 2)
  /\ calls (snd res) = calls w + attempts_made (r 0) (r 1).
Proof.
  cbv beta zeta.
  rewrite Nat.add_0_r, Nat.add_1_r.
  replace (calls w + 2) with (S (S (calls w))) by lia.
  unfold callLLMWithValidation, default_maxRetries.
  rewrite run_attempts_S by constructor. cbv zeta.
  rewrite checked_nil.
  destruct (attempt_result (executeLLM llm (calls w) prompt)
              default_timeoutMs) as [response|e1].
  { cbn. split; [done | lia]. }
  cbn [Nat.eqb console_warn log snd sleep bind elapse after_call calls heap
       chats now trace].
  rewrite run_attempts_S by constructor. cbv zeta.
  cbn [calls]. rewrite checked_nil.
  destruct (attempt_result (executeLLM llm (S (calls w)) prompt)
              default_timeoutMs) as [response|e2].
  { cbn. split; [done | lia]. }
  cbn [Nat.eqb console_warn log snd sleep bind elapse after_call calls heap
       chats now trace].
  rewrite run_attempts_S by constructor. cbv zeta.
  cbn [calls]. rewrite checked_nil.
  destruct (attempt_result (executeLLM llm (S (S (calls w))) prompt)
              default_timeoutMs) as [response|e3].
  - cbn. split; [done | lia].
  - cbn. split; [done | lia].
Qed.

(** ** A reply that a cycle returns passed the checks *)

Lemma checked_Ok (validators : list validator) (chat : addr) (w : World)
    (r : Result LLMReply) (response : LLMReply) :
  checked validators chat w r = Ok response ->
  r = Ok response
  /\ fst (forEach (fun v : validator => v (reply response) chat) validators w)
     = Ok tt.
Proof.
  destruct r as [response'|e]; cbn; [|done].
  destruct (fst (forEach _ validators w)) as [[]|e] eqn:E; [|done].
  intros [= ->]. by rewrite E.
Qed.

Lemma attempts_Ok_inv (llm : GeminiLLM) (prompt : jsstring)
    (validators : list validator) (chat : addr) (maxRetries : nat)
    (timeoutMs : N) (response : LLMReply) :
  Forall read_only validators ->
  forall (remaining attempt : nat) (w w' : World),
  attempts remaining attempt llm prompt validators chat maxRetries timeoutMs w
  = (Ok response, w') ->
  exists (i : nat) (wi : World),
    i < remaining /\ calls w' = calls w + S i /\ heap wi = heap w
    /\ attempt_result (executeLLM llm (calls w + i) prompt) timeoutMs
       = Ok response
    /\ fst (forEach (fun v : validator => v (reply response) chat)
              validators wi) = Ok tt.
Proof.
  intros Hro remaining.
  induction remaining as [|remaining IH]; intros attempt w w' Hrun.
  - discriminate Hrun.
  - rewrite run_attempts_S in Hrun by done. cbv zeta in Hrun.
    destruct (checked validators chat _ _) as [response'|e] eqn:Hc.
    + injection Hrun as -> <-.
      apply checked_Ok in Hc as [Hr Hv].
      exists 0, (after_call prompt
                   (attempt_time (executeLLM llm (calls w) prompt) timeoutMs) w).
      rewrite Nat.add_0_r. cbn [calls after_call heap].
      split; [lia|]. split; [lia|]. done.
    + destruct (attempt =? maxRetries); [discriminate Hrun|].
      apply IH in Hrun as (i & wi & Hi & Hcalls & Hheap & Hr & Hv).
      cbn [sleep console_warn log bind elapse snd after_call calls heap]
        in Hcalls, Hheap, Hr.
      exists (S i), wi.
      replace (calls w + S i) with (S (calls w) + i) by lia.
      split; [lia|]. split; [lia|]. done.
Qed.

(** ** Late answers *)








Lemma backoff_closed (r a : nat) :
  (backoff a (S r)
   = 500 * N.of_nat a * N.of_nat r + 250 * N.of_nat r * N.of_nat (pred r))%N.
Proof.
  revert a. induction r as [|r IH]; intros a; [cbn; lia|].
  rewrite backoff_SS, IH. destruct r as [|r]; [cbn; lia|].
  cbn [pred]. nia.
Qed.

Lemma cycle_time_closed (k : nat) (timeoutMs : N) :
  (cycle_time (S k) timeoutMs
   = N.of_nat (S k) * timeoutMs + 250 * N.of_nat k * N.of_nat (S k))%N.
Proof.
  unfold cycle_time. rewrite backoff_closed.
  destruct k as [|k]; [cbn; lia|]. cbn [pred]. nia.
Qed.

Lemma sendMessage_time (w : World) (chat : addr) (content : jsstring)
    (llm : GeminiLLM) :
  let w' := snd (sendMessage chat content llm w) in
  (now w <= now w' /\ now w' <= now w + 31500)%N.
Proof.
  cbv zeta.
  destruct (heap_chat (heap w) chat) as [c|] eqn:Hc.
  - destruct (heap_array (heap w) (messages c)) as [es|] eqn:Ha.
    + rewrite (run_sendMessage chat content llm w c es Hc Ha). cbv zeta.
      pose proof (callLLM_time llm
        (createConversationPrompt
           (historyString
              (set_historyString c
                 (historyString c
                  ++ history_line (user_message content (now w)))))
           content) [] chat default_maxRetries default_timeoutMs
        (set_heap (heap_with_message (heap w) chat c es
                     (user_message content (now w))) w)
        (Forall_nil_2 _)) as Ht.
      cbv zeta in Ht.
      destruct (callLLMWithValidation _ _ _ _ _ _ _) as [[response|e] w2];
        cbn [snd set_heap now] in *; exact Ht.
    + rewrite run_sendMessage_untyped
        by (unfold chat_fields_missing; by rewrite Hc).
      cbn. lia.
  - rewrite run_sendMessage_untyped
      by (unfold chat_fields_missing; by rewrite Hc).
    cbn. lia.
Qed.

Lemma updateSummary_time (w : World) (chat : addr) (llm : GeminiLLM) :
  let w' := snd (updateSummary chat llm w) in
  (now w <= now w' /\ now w' <= now w + 31500)%N.
Proof.
  cbv zeta.
  destruct (heap_chat (heap w) chat) as [c|] eqn:Hc.
  - destruct (heap_array (heap w) (messages c)) as [es|] eqn:Ha.
    + rewrite (run_updateSummary chat llm w c es Hc Ha).
      destruct (length es =? 0); [cbn; lia|].
      pose proof (callLLM_time llm (createSummaryPrompt (historyString c))
        [validateSummaryLength] chat default_maxRetries default_timeoutMs w
        (Forall_cons_2 _ _ _ validateSummaryLength_read_only (Forall_nil_2 _)))
        as Ht.
      cbv zeta in Ht.
      destruct (callLLMWithValidation _ _ _ _ _ _ _) as [[response|e] w2];
        cbn [snd set_heap now] in *; exact Ht.
    + rewrite run_updateSummary_untyped
        by (unfold chat_fields_missing; by rewrite Hc).
      cbn. lia.
  - rewrite run_updateSummary_untyped
      by (unfold chat_fields_missing; by rewrite Hc).
    cbn. lia.
Qed.

(** ** Computations that do not look at the registered chats *)

Lemma registry_blind_ret {A} (a : A) : registry_blind (ret a).
Proof. by intros cs w. Qed.

Lemma registry_blind_throw {A} (e : Error) : registry_blind (throw (A:=A) e).
Proof. by intros cs w. Qed.

Lemma registry_blind_lift {A} (r : Result A) : registry_blind (lift r).
Proof. by intros cs w. Qed.

Lemma registry_blind_bind {A B} (m : M A) (k : A -> M B) :
  registry_blind m -> (forall a, registry_blind (k a)) ->
  registry_blind (bind m k).
Proof.
  intros Hm Hk cs w. unfold bind. rewrite Hm.
  destruct (m w) as [[a|e] w1]; cbn [fst snd]; [apply Hk | done].
Qed.

Lemma registry_blind_try_catch {A} (m : M A) (handler : Error -> M A) :
  registry_blind m -> (forall e, registry_blind (handler e)) ->
  registry_blind (try_catch m handler).
Proof.
  intros Hm Hk cs w. unfold try_catch. rewrite Hm.
  destruct (m w) as [[a|e] w1]; cbn [fst snd]; [done | apply Hk].
Qed.

Lemma registry_blind_alloc (o : Obj) : registry_blind (alloc o).
Proof. by intros cs w. Qed.

Lemma registry_blind_load (a : addr) : registry_blind (load a).
Proof.
  intros cs w. unfold load. cbn [heap set_chats].
  by destruct (heap w !! a).
Qed.

Lemma registry_blind_store (a : addr) (o : Obj) : registry_blind (store a o).
Proof. by intros cs w. Qed.

Lemma registry_blind_load_chat (a : addr) : registry_blind (load_chat a).
Proof.
  apply registry_blind_bind; [apply registry_blind_load|].
  intros [m|es|c]; (apply registry_blind_ret || apply registry_blind_throw).
Qed.

Lemma registry_blind_load_array (a : addr) : registry_blind (load_array a).
Proof.
  apply registry_blind_bind; [apply registry_blind_load|].
  intros [m|es|c]; (apply registry_blind_ret || apply registry_blind_throw).
Qed.

Lemma registry_blind_load_message (a : addr) : registry_blind (load_message a).
Proof.
  apply registry_blind_bind; [apply registry_blind_load|].
  intros [m|es|c]; (apply registry_blind_ret || apply registry_blind_throw).
Qed.

Lemma registry_blind_mapM {A B} (f : A -> M B) (l : list A) :
  (forall a, registry_blind (f a)) -> registry_blind (mapM f l).
Proof.
  intros Hf. induction l as [|a l IH]; [apply registry_blind_ret|].
  cbn [mapM]. apply registry_blind_bind; [apply Hf|]. intros b.
  apply registry_blind_bind; [apply IH|]. intros bs. apply registry_blind_ret.
Qed.

Lemma registry_blind_forEach {A} (f : A -> M unit) (l : list A) :
  Forall (fun a => registry_blind (f a)) l -> registry_blind (forEach f l).
Proof.
  induction 1 as [|a l Ha _ IH]; [apply registry_blind_ret|].
  cbn [forEach]. apply registry_blind_bind; [apply Ha|]. intros _. apply IH.
Qed.

Lemma registry_blind_chat_messages (chat : addr) :
  registry_blind (chat_messages chat).
Proof.
  apply registry_blind_bind; [apply registry_blind_load_chat|]. intros c.
  apply registry_blind_bind; [apply registry_blind_load_array|]. intros es.
  apply registry_blind_mapM. apply registry_blind_load_message.
Qed.

Lemma registry_blind_push (array x : addr) : registry_blind (push array x).
Proof.
  apply registry_blind_bind; [apply registry_blind_load_array|]. intros es.
  apply registry_blind_store.
Qed.

Lemma registry_blind_Date_now : registry_blind Date_now.
Proof. by intros cs w. Qed.

Lemma registry_blind_log (ev : Event) : registry_blind (log ev).
Proof. by intros cs w. Qed.

Lemma registry_blind_elapse (ms : N) : registry_blind (elapse ms).
Proof. by intros cs w. Qed.

Lemma registry_blind_sleep (ms : N) : registry_blind (sleep ms).
Proof.
  apply registry_blind_bind; [apply registry_blind_log|]. intros _.
  apply registry_blind_elapse.
Qed.

Lemma registry_blind_invoke (llm : GeminiLLM) (prompt : jsstring) :
  registry_blind (invoke llm prompt).
Proof. by intros cs w. Qed.

Lemma registry_blind_validateSummaryLength (summary : jsstring) (chat : addr) :
  registry_blind (validateSummaryLength summary chat).
Proof.
  apply registry_blind_bind; [apply registry_blind_chat_messages|].
  intros msgs. cbv zeta.
  destruct (_ <? _); [apply registry_blind_throw | apply registry_blind_ret].
Qed.

Lemma registry_blind_appendToHistory (chat message : addr) :
  registry_blind (appendToHistory chat message).
Proof.
  apply registry_blind_bind; [apply registry_blind_load_message|]. intros m.
  apply registry_blind_bind; [apply registry_blind_load_chat|]. intros c.
  apply registry_blind_store.
Qed.

Lemma registry_blind_renameChat (chat : addr) (newName : jsstring) :
  registry_blind (renameChat chat newName).
Proof.
  apply registry_blind_bind; [apply registry_blind_load|].
  intros [m|es|c];
    [apply registry_blind_ret | apply registry_blind_ret |
     apply registry_blind_store].
Qed.

Lemma registry_blind_executeWithTimeout (llm : GeminiLLM) (prompt : jsstring)
    (timeoutMs : N) :
  registry_blind (executeWithTimeout llm prompt timeoutMs).
Proof.
  apply registry_blind_bind; [apply registry_blind_invoke|].
  intros [after s|].
  - destruct (after <? timeoutMs)%N.
    + apply registry_blind_bind; [apply registry_blind_elapse|]. intros _.
      destruct s; [apply registry_blind_ret | apply registry_blind_throw].
    + apply registry_blind_bind; [apply registry_blind_elapse|]. intros _.
      apply registry_blind_throw.
  - apply registry_blind_bind; [apply registry_blind_elapse|]. intros _.
    apply registry_blind_throw.
Qed.

Lemma registry_blind_attempts (llm : GeminiLLM) (prompt : jsstring)
    (validators : list validator) (chat : addr) (maxRetries : nat)
    (timeoutMs : N) :
  (forall text, Forall (fun v : validator => registry_blind (v text chat))
                  validators) ->
  forall remaining attempt : nat,
  registry_blind (attempts remaining attempt llm prompt validators chat
                    maxRetries timeoutMs).
Proof.
  intros Hv remaining.
  induction remaining as [|remaining IH]; intros attempt;
    [apply registry_blind_throw|].
  cbn [attempts]. apply registry_blind_try_catch.
  - apply registry_blind_bind; [apply registry_blind_executeWithTimeout|].
    intros raw.
    apply registry_blind_bind; [apply registry_blind_lift|]. intros response.
    apply registry_blind_bind; [|intros _; apply registry_blind_ret].
    apply registry_blind_forEach, Hv.
  - intros e. apply registry_blind_bind; [apply registry_blind_log|].
    intros _. destruct (attempt =? maxRetries); [apply registry_blind_throw|].
    apply registry_blind_bind; [apply registry_blind_sleep|]. intros _.
    apply IH.
Qed.

Lemma registry_blind_sendMessage (chat : addr) (content : jsstring)
    (llm : GeminiLLM) :
  registry_blind (sendMessage chat content llm).
Proof.
  apply registry_blind_bind; [apply registry_blind_Date_now|]. intros t.
  apply registry_blind_bind; [apply registry_blind_alloc|]. intros userMsg.
  apply registry_blind_bind; [apply registry_blind_load_chat|]. intros c.
  apply registry_blind_bind; [apply registry_blind_push|]. intros _.
  apply registry_blind_bind; [apply registry_blind_appendToHistory|].
  intros _.
  apply registry_blind_bind; [apply registry_blind_load_chat|]. intros c1.
  cbv zeta.
  apply registry_blind_bind;
    [apply registry_blind_attempts; intros; constructor|].
  intros response.
  apply registry_blind_bind; [apply registry_blind_Date_now|]. intros t'.
  apply registry_blind_bind; [apply registry_blind_alloc|]. intros llmMsg.
  apply registry_blind_bind; [apply registry_blind_load_chat|]. intros c2.
  apply registry_blind_bind; [apply registry_blind_push|]. intros _.
  apply registry_blind_bind; [apply registry_blind_appendToHistory|].
  intros _. apply registry_blind_ret.
Qed.

Lemma registry_blind_updateSummary (chat : addr) (llm : GeminiLLM) :
  registry_blind (updateSummary chat llm).
Proof.
  apply registry_blind_bind; [apply registry_blind_load_chat|]. intros c.
  apply registry_blind_bind; [apply registry_blind_load_array|]. intros es.
  destruct (length es =? 0); [apply registry_blind_throw|]. cbv zeta.
  apply registry_blind_bind.
  { apply registry_blind_attempts. intros text. constructor; [|constructor].
    apply registry_blind_validateSummaryLength. }
  intros response.
  apply registry_blind_bind; [apply registry_blind_load_chat|]. intros c2.
  apply registry_blind_bind; [apply registry_blind_store|]. intros _.
  apply registry_blind_ret.
Qed.

Lemma set_chats_id (w : World) : set_chats (chats w) w = w.
Proof. by destruct w. Qed.

Lemma registry_blind_chats {A} (m : M A) (w : World) :
  registry_blind m -> chats (snd (m w)) = chats w.
Proof.
  intros Hm. specialize (Hm (chats w) w). rewrite set_chats_id in Hm.
  rewrite Hm at 1. done.
Qed.

(** ** What an operation on one chat leaves of the others *)







(** ** The listing that [getChats] returns *)

Lemma consistent_views (w : World) :
  world_consistent w ->
  Forall (fun a => is_Some (chat_view (heap w) a)) (chats w).
Proof.
  intros Hw. pose proof Hw as [_ Hreg].
  eapply Forall_impl; [exact Hreg|]. intros a [c Hc].
  destruct (world_consistent_chat_view w a c Hw Hc) as (ms & Hv & _).
  by rewrite Hv.
Qed.

Lemma footprint_head (h : list Obj) (a : addr) : a ∈ footprint h a.
Proof. unfold footprint. destruct (heap_chat h a); apply list_elem_of_here. Qed.

Lemma getChats_listing (w : World) :
  world_consistent w ->
  exists (copies : list addr) (w' : World),
    getChats w = (Ok copies, w')
    /\ map (snapshot (heap w')) copies = map (snapshot (heap w)) (chats w)
    /\ Forall (fun copy => length (heap w) <= copy) copies
    /\ length copies = length (chats w).
Proof.
  intros Hw.
  destruct (run_copy_chats (chats w) w (consistent_views w Hw))
    as (copies & ext & Hrun & Hcopies & _ & _ & _).
  exists copies, (set_heap (heap w ++ ext) w). cbn [heap set_heap].
  split; [exact Hrun|]. split; [|split].
  - apply Forall2_map_eq. eapply Forall2_impl; [exact Hcopies|].
    by intros a copy (_ & Hsnap & _).
  - eapply Forall2_Forall_r; [exact Hcopies|].
    apply Forall_forall. intros a _ copy (_ & _ & Hfresh).
    rewrite Forall_forall in Hfresh. apply Hfresh, footprint_head.
  - symmetry. by eapply Forall2_length.
Qed.

Lemma content_total_app (ms1 ms2 : list Message) :
  content_total (ms1 ++ ms2) = content_total ms1 + content_total ms2.
Proof.
  unfold content_total. induction ms1 as [|m ms1 IH]; [done|].
  cbn [app map sum_list] in *. rewrite IH. lia.
Qed.

Lemma deleteChat_unregistered (chat : addr) (w : World) :
  chat ∉ chats w -> deleteChat chat w = (Ok tt, w).
Proof.
  intros Hnot. unfold deleteChat.
  assert (filter (fun c => c <> chat) (chats w) = chats w) as ->;
    [|by rewrite set_chats_id].
  induction (chats w) as [|a l IH]; [done|].
  apply not_elem_of_cons in Hnot as [Hne Hnot].
  rewrite filter_cons_True by done. by rewrite IH.
Qed.

(** ** Each chat is registered once *)

Lemma getChats_chats (w : World) :
  world_consistent w -> chats (snd (getChats w)) = chats w.
Proof.
  intros Hw.
  destruct (run_copy_chats (chats w) w (consistent_views w Hw))
    as (copies & ext & Hrun & _).
  unfold getChats. by rewrite Hrun.
Qed.

Lemma run_op_registered_once (op : Op) (w : World) :
  world_consistent w ->
  NoDup (chats w) -> Forall (fun a => a < length (heap w)) (chats w) ->
  NoDup (chats (run_op op w))
  /\ Forall (fun a => a < length (heap (run_op op w))) (chats (run_op op w)).
Proof.
  intros Hw Hnd Hlt.
  pose proof (run_op_effect op w Hw) as (_ & Hlen & _).
  assert (chats (run_op op w) = chats w ->
          NoDup (chats (run_op op w))
          /\ Forall (fun a => a < length (heap (run_op op w)))
               (chats (run_op op w))) as Hsame.
  { intros ->. split; [done|].
    eapply Forall_impl; [exact Hlt|]. intros a Ha. cbn beta in *. lia. }
  destruct op as [name|chat|chat newName|chat content llm|chat llm|];
    cbn [run_op] in *.
  - rewrite run_makeChat in *. cbn [snd heap chats set_heap set_chats] in *.
    split.
    + apply NoDup_app. split; [done|]. split; [|apply NoDup_singleton].
      intros a Ha ->%list_elem_of_singleton.
      rewrite Forall_forall in Hlt. specialize (Hlt _ Ha). cbn beta in Hlt.
      lia.
    + apply Forall_app. split.
      * eapply Forall_impl; [exact Hlt|]. intros a Ha. cbn beta in *.
        rewrite length_app. cbn. lia.
      * apply Forall_singleton. rewrite length_app. cbn. lia.
  - cbn [deleteChat snd heap chats set_chats]. split.
    + by apply NoDup_filter.
    + apply Forall_forall. intros a [_ Ha]%list_elem_of_filter.
      rewrite Forall_forall in Hlt. by apply Hlt.
  - apply Hsame, registry_blind_chats, registry_blind_renameChat.
  - apply Hsame, registry_blind_chats, registry_blind_sendMessage.
  - apply Hsame, registry_blind_chats, registry_blind_updateSummary.
  - by apply Hsame, getChats_chats.
Qed.

Lemma run_ops_registered_once (ops : list Op) :
  NoDup (chats (run_ops ops init))
  /\ Forall (fun a => a < length (heap (run_ops ops init)))
       (chats (run_ops ops init)).
Proof.
  induction ops as [|op ops IH] using rev_ind.
  - cbn. split; constructor.
  - unfold run_ops in *. rewrite fold_left_app. cbn [fold_left].
    destruct IH as [Hnd Hlt]. apply run_op_registered_once; [|done|done].
    apply run_ops_consistent, world_consistent_init.
Qed.

Lemma length_filter_remove (chat : addr) (l : list addr) :
  NoDup l -> chat ∈ l ->
  S (length (filter (fun c => c <> chat) l)) = length l.
Proof.
  induction l as [|a l IH]; intros Hnd Hin; [by apply elem_of_nil in Hin|].
  apply NoDup_cons in Hnd as [Hnot Hnd].
  destruct (decide (a = chat)) as [->|Hne].
  - rewrite filter_cons_False by (intros H; by apply H).
    cbn [length]. f_equal.
    clear IH Hin Hnd. induction l as [|b l IH]; [done|].
    apply not_elem_of_cons in Hnot as [Hne Hnot].
    rewrite filter_cons_True by done. cbn [length]. by rewrite IH.
  - rewrite filter_cons_True by done. cbn [length]. f_equal.
    apply IH; [done|]. apply elem_of_cons in Hin as [->|Hin]; done.
Qed.

(** ** The attempts of a cycle without extra validators *)

Lemma attempts_result (llm : GeminiLLM) (prompt : jsstring) (chat : addr)
    (maxRetries : nat) (timeoutMs : N) :
  let R n := attempt_result (executeLLM llm n prompt) timeoutMs in
  forall (remaining attempt : nat) (w : World),
  attempt + remaining = S maxRetries -> 1 <= remaining ->
  let '(r, w') := attempts remaining attempt llm prompt [] chat maxRetries
                    timeoutMs w in
  match r with
  | Ok response =>
      exists i : nat,
        i < remaining /\ R (calls w + i) = Ok response
        /\ (forall j, j < i -> exists e, R (calls w + j) = Throw e)
        /\ calls w' = calls w + S i
  | Throw e =>
      R (calls w + (remaining - 1)) = Throw e
      /\ (forall j, j < remaining -> exists e', R (calls w + j) = Throw e')
      /\ calls w' = calls w + remaining
  end.
Proof.
  intros R remaining.
  induction remaining as [|remaining IH]; intros attempt w Hsum Hpos; [lia|].
  rewrite run_attempts_S by constructor. cbv zeta. rewrite checked_nil.
  fold (R (calls w)).
  destruct (R (calls w)) as [response|e] eqn:Hr.
  - exists 0. rewrite Nat.add_0_r. cbn [calls after_call].
    split; [lia|]. split; [done|]. split; [intros j Hj; lia | lia].
  - destruct (attempt =? maxRetries) eqn:E.
    + apply Nat.eqb_eq in E. assert (remaining = 0) as -> by lia.
      cbn [console_warn log snd calls after_call]. rewrite Nat.add_0_r.
      split; [done|]. split; [|lia].
      intros j Hj. assert (j = 0) as -> by lia. rewrite Nat.add_0_r.
      by exists e.
    + apply Nat.eqb_neq in E.
      assert (1 <= remaining) as Hpos' by lia.
      specialize (IH (S attempt)
        (snd (sleep (500 * N.of_nat attempt)
                (snd (console_warn attempt e
                        (after_call prompt
                           (attempt_time (executeLLM llm (calls w) prompt)
                              timeoutMs) w)))))
        ltac:(lia) Hpos').
      destruct (attempts remaining (S attempt) llm prompt [] chat maxRetries
                  timeoutMs _) as [[response|e'] w'].
      * destruct IH as (i & Hi & Hok & Hearlier & Hcalls).
        cbn [sleep console_warn log bind elapse snd after_call calls]
          in Hok, Hearlier, Hcalls.
        exists (S i). split; [lia|].
        replace (calls w + S i) with (S (calls w) + i) by lia.
        split; [done|]. split; [|lia].
        intros [|j] Hj; [rewrite Nat.add_0_r; by exists e|].
        replace (calls w + S j) with (S (calls w) + j) by lia.
        apply Hearlier. lia.
      * destruct IH as (Hlast & Hall & Hcalls).
        cbn [sleep console_warn log bind elapse snd after_call calls]
          in Hlast, Hall, Hcalls.
        split.
        { replace (calls w + (S remaining - 1))
            with (S (calls w) + (remaining - 1)) by lia. done. }
        split; [|lia].
        intros [|j] Hj; [rewrite Nat.add_0_r; by exists e|].
        replace (calls w + S j) with (S (calls w) + j) by lia.
        apply Hall. lia.
Qed.

(** ** The registered chats after creations and a deletion *)

Lemma run_ops_snoc (ops : list Op) (op : Op) (w : World) :
  run_ops (ops ++ [op]) w = run_op op (run_ops ops w).
Proof. unfold run_ops. by rewrite fold_left_app. Qed.

Lemma created_chats (names : list jsstring) :
  let w := run_ops (map OpMakeChat names) init in
  length (heap w) = 2 * length names
  /\ chats w = map (fun i => S (2 * i)) (seq 0 (length names))
  /\ map (snapshot (heap w)) (chats w)
     = map (fun n => Some (n, [], [], [])) names.
Proof.
  induction names as [|name names IH] using rev_ind; [done|].
  cbv zeta in *. rewrite map_app. cbn [map]. rewrite run_ops_snoc.
  set (w := run_ops (map OpMakeChat names) init) in *.
  assert (world_consistent w) as Hw
    by apply run_ops_consistent, world_consistent_init.
  destruct IH as (Hlen & Hchats & Hsnap).
  cbn [run_op]. rewrite run_makeChat. cbn [snd heap chats set_heap set_chats].
  rewrite !length_app. cbn [length]. split; [lia|]. split.
  - rewrite Nat.add_1_r, seq_S, map_app. cbn [map Nat.add].
    rewrite Hchats, Hlen. done.
  - rewrite !map_app. cbn [map]. f_equal.
    + rewrite <- Hsnap. apply map_ext_Forall.
      eapply Forall_impl; [exact (consistent_views w Hw)|].
      intros a Ha. cbn beta. apply snapshot_agree; [apply agree_app|].
      by apply snapshot_is_Some.
    + unfold snapshot. by rewrite makeChat_view.
Qed.

Lemma filter_map_seq_remove (k m : nat) :
  filter (fun c => c <> S (2 * k))
    (map (fun i => S (2 * i)) (seq 0 (k + S m)))
  = map (fun i => S (2 * i)) (seq 0 k)
    ++ map (fun i => S (2 * i)) (seq (S k) m).
Proof.
  assert (forall l : list nat,
            Forall (fun i => i <> k) l ->
            filter (fun c => c <> S (2 * k)) (map (fun i => S (2 * i)) l)
            = map (fun i => S (2 * i)) l) as Hkeep.
  { induction 1 as [|i l Hi _ IH]; [done|]. cbn [map].
    rewrite filter_cons_True by (cbn beta in *; lia). by rewrite IH. }
  rewrite seq_app. cbn [seq Nat.add]. rewrite map_app. cbn [map].
  rewrite filter_app, filter_cons_False by (intros H; by apply H).
  rewrite !Hkeep; [done | |].
  - apply Forall_forall. intros i Hi%list_elem_of_In%in_seq. lia.
  - apply Forall_forall. intros i Hi%list_elem_of_In%in_seq. lia.
Qed.

Lemma listing_after_deletion (names1 names2 : list jsstring) (n : jsstring) :
  let w := run_ops (map OpMakeChat (names1 ++ n :: names2)
                    ++ [OpDeleteChat (S (2 * length names1))]) init in
  exists (copies : list addr) (w' : World),
    getChats w = (Ok copies, w')
    /\ map (snapshot (heap w')) copies
       = map (fun n => Some (n, [], [], [])) (names1 ++ names2).
Proof.
  cbv zeta. rewrite run_ops_snoc.
  destruct (created_chats (names1 ++ n :: names2)) as (_ & Hchats & Hsnap).
  set (w := run_ops (map OpMakeChat (names1 ++ n :: names2)) init) in *.
  assert (world_consistent w) as Hw
    by apply run_ops_consistent, world_consistent_init.
  pose proof (run_op_effect (OpDeleteChat (S (2 * length names1))) w Hw)
    as [Hw' _].
  destruct (getChats_listing _ Hw') as (copies & w' & Hget & Hlist & _).
  exists copies, w'. split; [exact Hget|]. rewrite Hlist.
  cbn [run_op deleteChat snd heap chats set_chats].
  rewrite length_app in Hchats. cbn [length] in Hchats.
  rewrite Hchats, filter_map_seq_remove in *.
  rewrite seq_app in Hsnap. cbn [seq Nat.add] in Hsnap.
  rewrite !map_app in Hsnap. cbn [map] in Hsnap.
  apply app_inj_1 in Hsnap as [H1 H2];
    [|by rewrite !length_map, length_seq].
  injection H2 as _ H2.
  rewrite !map_app. f_equal; [exact H1 | exact H2].
Qed.

Lemma listing_after_creations (names : list jsstring) :
  let w := run_ops (map OpMakeChat names) init in
  exists (copies : list addr) (w' : World),
    getChats w = (Ok copies, w')
    /\ map (snapshot (heap w')) copies
       = map (fun n => Some (n, [], [], [])) names.
Proof.
  cbv zeta. destruct (created_chats names) as (_ & _ & Hsnap).
  set (w := run_ops (map OpMakeChat names) init) in *.
  assert (world_consistent w) as Hw
    by apply run_ops_consistent, world_consistent_init.
  destruct (getChats_listing w Hw) as (copies & w' & Hget & Hlist & _).
  exists copies, w'. split; [exact Hget|]. by rewrite Hlist.
Qed.

(** ** Cleaning texts without fences *)

Lemma remove_all_no_fence (re : jsstring -> option nat) (s : jsstring) :
  (forall s, starts_with (js "```") s = false -> re s = None) ->
  has_fence s = false -> remove_all re s = s.
Proof.
  intros Hre. unfold remove_all.
  induction s as [|c r IH]; [done|].
  cbn [has_fence]. intros [Hhere Hrest]%orb_false_iff.
  cbn [remove_all_go]. rewrite (Hre _ Hhere). by rewrite IH.
Qed.

Lemma trim_start_spaces (ws s : jsstring) :
  all_js_space ws -> trim_start (ws ++ s) = trim_start s.
Proof.
  induction 1 as [|c ws Hc _ IH]; [done|].
  cbn [app trim_start]. by rewrite Hc.
Qed.

Lemma trim_end_spaces (s ws : jsstring) :
  all_js_space ws -> trim_end (s ++ ws) = trim_end s.
Proof.
  intros Hws. induction ws as [|c ws IH] using rev_ind.
  - by rewrite app_nil_r.
  - apply Forall_app in Hws as [Hws Hc]. rewrite Forall_singleton in Hc.
    rewrite app_assoc. rewrite trim_end_snoc_space by exact Hc. by apply IH.
Qed.

Lemma trim_app_spaces (s ws : jsstring) :
  all_js_space ws -> trim (s ++ ws) = trim s.
Proof.
  intros Hws. unfold trim. induction s as [|c r IH].
  - cbn [app]. rewrite <- (app_nil_r ws), trim_start_spaces by done. done.
  - cbn [app trim_start]. destruct (is_js_space c); [exact IH|].
    by apply (trim_end_spaces (c :: r)).
Qed.

Lemma trim_surrounded (before s after : jsstring) :
  all_js_space before -> all_js_space after ->
  trim (before ++ s ++ after) = trim s.
Proof.
  intros Hb Ha. unfold trim at 1. rewrite trim_start_spaces by done.
  by apply trim_app_spaces.
Qed.

Lemma trim_start_cases (s : jsstring) :
  trim_start s = []
  \/ exists c r, trim_start s = c :: r /\ is_js_space c = false.
Proof.
  induction s as [|c r IH]; [by left|].
  cbn [trim_start]. destruct (is_js_space c) eqn:E; [exact IH|].
  right. by exists c, r.
Qed.

Lemma trim_start_idem (s : jsstring) : trim_start (trim_start s) = trim_start s.
Proof.
  destruct (trim_start_cases s) as [->|(c & r & -> & Hc)]; [done|].
  by apply trim_start_not_space.
Qed.

Lemma trim_end_idem (s : jsstring) : trim_end (trim_end s) = trim_end s.
Proof. unfold trim_end. by rewrite rev_involutive, trim_start_idem. Qed.

Lemma trim_start_snoc_not_space (s : jsstring) (c : N) :
  is_js_space c = false -> trim_start (s ++ [c]) = trim_start s ++ [c].
Proof.
  intros Hc. induction s as [|a s IH]; cbn [app trim_start].
  - by rewrite Hc.
  - by destruct (is_js_space a).
Qed.

Lemma trim_end_cons_not_space (c : N) (r : jsstring) :
  is_js_space c = false -> trim_end (c :: r) = c :: trim_end r.
Proof.
  intros Hc. unfold trim_end. cbn [rev].
  rewrite trim_start_snoc_not_space by done. by rewrite rev_unit.
Qed.

Lemma trim_start_trim (s : jsstring) : trim_start (trim s) = trim s.
Proof.
  unfold trim. destruct (trim_start_cases s) as [->|(c & r & -> & Hc)];
    [done|].
  rewrite trim_end_cons_not_space by done. by apply trim_start_not_space.
Qed.

Lemma trim_end_trim (s : jsstring) : trim_end (trim s) = trim s.
Proof. unfold trim. apply trim_end_idem. Qed.

Lemma trim_idem (s : jsstring) : trim (trim s) = trim s.
Proof. unfold trim at 1. by rewrite trim_start_trim, trim_end_trim. Qed.

Lemma cleanJSON_no_fence (s : jsstring) :
  has_fence s = false -> cleanJSON s = trim s.
Proof.
  intros Hs. unfold cleanJSON.
  rewrite (remove_all_no_fence fence_with_label s fence_with_label_None Hs).
  by rewrite (remove_all_no_fence fence s fence_None Hs).
Qed.

Lemma cleanJSON_idem (raw : jsstring) : cleanJSON (cleanJSON raw) = cleanJSON raw.
Proof.
  rewrite (cleanJSON_no_fence (cleanJSON raw)) by apply has_fence_cleanJSON.
  unfold cleanJSON. apply trim_idem.
Qed.

Lemma js_space_not_backtick (c : N) : is_js_space c = true -> c <> backtick.
Proof. intros Hc ->. discriminate Hc. Qed.

Lemma has_fence_spaces_app (ws s : jsstring) :
  all_js_space ws -> has_fence (ws ++ s) = has_fence s.
Proof.
  induction 1 as [|c ws Hc _ IH]; [done|].
  cbn [app]. rewrite has_fence_cons_not_backtick; [done|].
  by apply js_space_not_backtick.
Qed.

Lemma has_fence_app_spaces (s ws : jsstring) :
  all_js_space ws -> has_fence s = false -> has_fence (s ++ ws) = false.
Proof.
  intros Hws Hs. destruct ws as [|c ws]; [by rewrite app_nil_r|].
  apply Forall_cons in Hws as [Hc Hws].
  apply has_fence_snoc; [by apply js_space_not_backtick | done |].
  rewrite has_fence_cons_not_backtick by (by apply js_space_not_backtick).
  rewrite <- (app_nil_r ws). by rewrite has_fence_spaces_app.
Qed.

Lemma cleanJSON_surrounded (before s after : jsstring) :
  all_js_space before -> all_js_space after -> has_fence s = false ->
  cleanJSON (before ++ s ++ after) = cleanJSON s.
Proof.
  intros Hb Ha Hs.
  rewrite !cleanJSON_no_fence; [by apply trim_surrounded | done |].
  rewrite has_fence_spaces_app by done. by apply has_fence_app_spaces.
Qed.

Lemma fenced_cons (body : jsstring) :
  fenced body =
  (96 :: 96 :: 96 :: 106 :: 115 :: 111 :: 110
   :: (newline :: body) ++ newline :: [96; 96; 96])%N.
Proof. reflexivity. Qed.

Lemma cleanJSON_fenced (body : jsstring) :
  has_fence body = false -> cleanJSON (fenced body) = cleanJSON body.
Proof.
  intros Hb.
  assert (has_fence ((newline :: body) ++ [newline]) = false) as Hline.
  { cbn [app]. rewrite has_fence_cons_not_backtick by done.
    apply has_fence_snoc; done. }
  rewrite (cleanJSON_no_fence body Hb).
  unfold cleanJSON, remove_all. rewrite fenced_cons.
  cbn [remove_all_go]. unfold fence_with_label at 1.
  replace (starts_with (js "```json") _) with true by reflexivity.
  cbn [remove_all_go].
  rewrite (remove_all_go_keep fence_with_label (newline :: body) _ newline
             fence_with_label_None) by done.
  replace (remove_all_go fence_with_label 0 [96; 96; 96]%N)
    with (@nil N) by reflexivity.
  change ((newline :: body) ++ [newline])
    with ([newline] ++ body ++ [newline]) in *.
  change (remove_all_go fence 0 ([newline] ++ body ++ [newline]))
    with (remove_all fence ([newline] ++ body ++ [newline])).
  rewrite (remove_all_no_fence fence _ fence_None Hline).
  apply trim_surrounded; by repeat constructor.
Qed.

(** ** Parsing objects whose members are strings *)

Lemma skip_ws_app (ws s : jsstring) :
  all_json_ws ws -> skip_ws (ws ++ s) = skip_ws s.
Proof.
  induction 1 as [|c ws Hc _ IH]; [done|].
  cbn [app skip_ws]. by rewrite Hc.
Qed.

Lemma json_ws_js_space (c : N) : is_json_ws c = true -> is_js_space c = true.
Proof.
  unfold is_json_ws, is_js_space. intros H.
  repeat (apply orb_true_iff in H as [H|H]);
    apply N.eqb_eq in H; by subst.
Qed.

Lemma all_json_ws_js_space (ws : jsstring) : all_json_ws ws -> all_js_space ws.
Proof.
  intros Hws. eapply Forall_impl; [exact Hws|]. intros c.
  apply json_ws_js_space.
Qed.

Lemma has_fence_spaces (ws : jsstring) : all_js_space ws -> has_fence ws = false.
Proof.
  intros Hws. rewrite <- (app_nil_r ws). by rewrite has_fence_spaces_app.
Qed.

(** One member ["k" : "v"], with white space around the colon, read by
    [parse_members]. *)
Lemma parse_member_plain (fuel : nat) (acc : list (jsstring * JSON))
    (k w2 w3 v rest : jsstring) :
  Forall plain k -> Forall plain v -> all_json_ws w2 -> all_json_ws w3 ->
  parse_members (S (S fuel)) acc
    (dquote :: k ++ dquote :: w2 ++ 58%N :: w3 ++ dquote :: v
     ++ dquote :: rest)
  = match skip_ws rest with
    | e :: r3 =>
        if (e =? 44)%N then
          parse_members (S fuel) (set_prop k (JString v) acc) (skip_ws r3)
        else if (e =? 125)%N then POk (set_prop k (JString v) acc) r3
        else PSyntaxError
    | [] => PSyntaxError
    end.
Proof.
  intros Hk Hv Hw2 Hw3. rewrite parse_members_S.
  rewrite N.eqb_refl, (parse_string_chars_plain k _ Hk).
  rewrite (skip_ws_app w2) by done.
  cbn [skip_ws is_json_ws N.eqb Pos.eqb orb].
  rewrite (skip_ws_app w3) by done.
  replace (skip_ws (dquote :: v ++ dquote :: rest))
    with (dquote :: v ++ dquote :: rest) by reflexivity.
  rewrite parse_value_S.
  replace (dquote =? 123)%N with false by reflexivity.
  replace (dquote =? 91)%N with false by reflexivity.
  rewrite N.eqb_refl, (parse_string_chars_plain v _ Hv).
  reflexivity.
Qed.

Lemma spaced_reply_json_cons (w1 w2 w3 w4 X : jsstring) :
  spaced_reply_json w1 w2 w3 w4 X =
  (123 :: w1 ++ dquote :: js "reply" ++ dquote :: w2 ++ 58 :: w3 ++ dquote
   :: X ++ dquote :: w4 ++ [125])%N.
Proof. reflexivity. Qed.

Lemma spaced_reply_json_braces (w1 w2 w3 w4 X : jsstring) :
  spaced_reply_json w1 w2 w3 w4 X =
  js "{"
  ++ (w1 ++ [dquote] ++ js "reply" ++ [dquote] ++ w2 ++ js ":" ++ w3
      ++ [dquote] ++ X ++ [dquote] ++ w4)
  ++ js "}".
Proof. unfold spaced_reply_json. by rewrite <- !app_assoc. Qed.

Lemma plain_reply : Forall plain (js "reply").
Proof. repeat constructor; done. Qed.

Lemma JSON_parse_spaced_reply_json (w1 w2 w3 w4 X : jsstring) :
  Forall plain X ->
  all_json_ws w1 -> all_json_ws w2 -> all_json_ws w3 -> all_json_ws w4 ->
  JSON_parse (spaced_reply_json w1 w2 w3 w4 X)
  = Some (JObject [(js "reply", JString X)]).
Proof.
  intros HX H1 H2 H3 H4. unfold JSON_parse.
  rewrite spaced_reply_json_cons.
  cbn [skip_ws is_json_ws N.eqb Pos.eqb orb].
  set (s := (123 :: _)%N).
  assert (exists n, 2 * length s + 1 = S (S (S n))) as [n ->].
  { exists (2 * length s - 2). subst s. cbn [length]. lia. }
  subst s. rewrite parse_value_S.
  replace (123 =? 123)%N with true by reflexivity.
  rewrite (skip_ws_app w1) by done.
  replace (skip_ws (dquote :: js "reply" ++ dquote :: w2 ++ 58%N :: w3
                    ++ dquote :: X ++ dquote :: w4 ++ [125%N]))
    with (dquote :: js "reply" ++ dquote :: w2 ++ 58%N :: w3
          ++ dquote :: X ++ dquote :: w4 ++ [125%N]) by reflexivity.
  replace (dquote =? 125)%N with false by reflexivity.
  rewrite (parse_member_plain n [] (js "reply") w2 w3 X (w4 ++ [125%N]))
    by (done || apply plain_reply).
  rewrite (skip_ws_app w4) by done.
  reflexivity.
Qed.

Ltac no_fence :=
  repeat first
    [ done
    | rewrite has_fence_cons_not_backtick by done
    | apply has_fence_snoc;
      [ done
      | first [ assumption
              | reflexivity
              | apply has_fence_spaces, all_json_ws_js_space; assumption ]
      | ] ].

Lemma has_fence_spaced_reply_json (w1 w2 w3 w4 X : jsstring) :
  has_fence X = false ->
  all_json_ws w1 -> all_json_ws w2 -> all_json_ws w3 -> all_json_ws w4 ->
  has_fence (spaced_reply_json w1 w2 w3 w4 X) = false.
Proof.
  intros HX H1 H2 H3 H4. rewrite spaced_reply_json_cons.
  cbn [js app]. unfold dquote. no_fence.
Qed.

Lemma trim_braces (A : jsstring) :
  trim (js "{" ++ A ++ js "}") = js "{" ++ A ++ js "}".
Proof.
  unfold trim. replace (trim_start (js "{" ++ A ++ js "}"))
    with (js "{" ++ A ++ js "}") by reflexivity.
  rewrite app_assoc. by apply trim_end_snoc_not_space.
Qed.

Lemma cleanJSON_spaced_reply_json (w1 w2 w3 w4 X : jsstring) :
  has_fence X = false ->
  all_json_ws w1 -> all_json_ws w2 -> all_json_ws w3 -> all_json_ws w4 ->
  cleanJSON (spaced_reply_json w1 w2 w3 w4 X) = spaced_reply_json w1 w2 w3 w4 X.
Proof.
  intros HX H1 H2 H3 H4.
  rewrite cleanJSON_no_fence by (by apply has_fence_spaced_reply_json).
  rewrite spaced_reply_json_braces. apply trim_braces.
Qed.

Lemma parse_member_tight (fuel : nat) (acc : list (jsstring * JSON))
    (k v rest : jsstring) :
  Forall plain k -> Forall plain v ->
  parse_members (S (S fuel)) acc
    (dquote :: k ++ dquote :: 58%N :: dquote :: v ++ dquote :: rest)
  = match skip_ws rest with
    | e :: r3 =>
        if (e =? 44)%N then
          parse_members (S fuel) (set_prop k (JString v) acc) (skip_ws r3)
        else if (e =? 125)%N then POk (set_prop k (JString v) acc) r3
        else PSyntaxError
    | [] => PSyntaxError
    end.
Proof.
  intros Hk Hv.
  exact (parse_member_plain fuel acc k [] [] v rest Hk Hv (Forall_nil_2 _)
           (Forall_nil_2 _)).
Qed.

Lemma object2_json_cons (k1 v1 k2 v2 : jsstring) :
  object2_json k1 v1 k2 v2 =
  (123 :: dquote :: k1 ++ dquote :: 58 :: dquote :: v1 ++ dquote :: 44
   :: dquote :: k2 ++ dquote :: 58 :: dquote :: v2 ++ dquote :: [125])%N.
Proof.
  unfold object2_json, member_json. by rewrite <- !app_assoc.
Qed.

Lemma object2_json_braces (k1 v1 k2 v2 : jsstring) :
  object2_json k1 v1 k2 v2 =
  js "{" ++ (member_json k1 v1 ++ js "," ++ member_json k2 v2) ++ js "}".
Proof. unfold object2_json. by rewrite <- !app_assoc. Qed.

Lemma JSON_parse_object2_json (k1 v1 k2 v2 : jsstring) :
  Forall plain k1 -> Forall plain v1 -> Forall plain k2 -> Forall plain v2 ->
  JSON_parse (object2_json k1 v1 k2 v2)
  = Some (JObject (set_prop k2 (JString v2) [(k1, JString v1)])).
Proof.
  intros Hk1 Hv1 Hk2 Hv2. unfold JSON_parse. rewrite object2_json_cons.
  cbn [skip_ws is_json_ws N.eqb Pos.eqb orb].
  set (s := (123 :: _)%N).
  assert (exists n, 2 * length s + 1 = S (S (S (S n)))) as [n ->].
  { exists (2 * length s - 3). subst s. cbn [length]. lia. }
  subst s. rewrite parse_value_S.
  replace (123 =? 123)%N with true by reflexivity.
  replace (skip_ws (dquote :: k1 ++ dquote :: 58%N :: dquote :: v1 ++ dquote
                    :: 44%N :: dquote :: k2 ++ dquote :: 58%N :: dquote
                    :: v2 ++ dquote :: [125%N]))
    with (dquote :: k1 ++ dquote :: 58%N :: dquote :: v1 ++ dquote
          :: 44%N :: dquote :: k2 ++ dquote :: 58%N :: dquote
          :: v2 ++ dquote :: [125%N]) by reflexivity.
  replace (dquote =? 125)%N with false by reflexivity.
  rewrite (parse_member_tight (S n) [] k1 v1) by done.
  cbn [skip_ws is_json_ws N.eqb Pos.eqb orb dquote].
  rewrite (parse_member_tight n _ k2 v2 [125%N]) by done.
  reflexivity.
Qed.

Lemma has_fence_object2_json (k1 v1 k2 v2 : jsstring) :
  has_fence k1 = false -> has_fence v1 = false ->
  has_fence k2 = false -> has_fence v2 = false ->
  has_fence (object2_json k1 v1 k2 v2) = false.
Proof.
  intros Hk1 Hv1 Hk2 Hv2. rewrite object2_json_cons.
  unfold dquote. no_fence.
Qed.

Lemma cleanJSON_object2_json (k1 v1 k2 v2 : jsstring) :
  has_fence k1 = false -> has_fence v1 = false ->
  has_fence k2 = false -> has_fence v2 = false ->
  cleanJSON (object2_json k1 v1 k2 v2) = object2_json k1 v1 k2 v2.
Proof.
  intros Hk1 Hv1 Hk2 Hv2.
  rewrite cleanJSON_no_fence by (by apply has_fence_object2_json).
  rewrite object2_json_braces. apply trim_braces.
Qed.

(** ** Texts that are not JSON *)









(** Decides the cases of the structural check. *)
Ltac kinds :=
  repeat split;
  try (intros e [= <-]; set_solver);
  try (intros; simplify_eq);
  try (cbn in *; naive_solver lia).


(** ** The summary check (validator.ts) *)

(** C7: [validateSummaryLength] fails, with the summary-too-long error,
    exactly when the summary has more than twice [max total 1] code units,
    [total] being the sum of [content.length] over the messages of the chat;
    it changes nothing.  For messages that total 10, a summary of 20 passes
    and one of 21 fails. *)
Theorem validateSummaryLength_bound (w : World) (chat : addr) (c : Chat)
    (ms : list Message) :
  chat_view (heap w) chat = Some (c, ms) ->
  let total := content_total ms in
  (forall summaryText : jsstring,
     (fst (validateSummaryLength summaryText chat w)
      = Throw (SummaryTooLong (length summaryText) total)
      <-> length summaryText > 2 * Nat.max total 1)
     /\ (fst (validateSummaryLength summaryText chat w) = Ok tt
         <-> length summaryText <= 2 * Nat.max total 1)
     /\ snd (validateSummaryLength summaryText chat w) = w)
  /\ (total = 10 ->
      forall s20 s21 : jsstring, length s20 = 20 -> length s21 = 21 ->
      fst (validateSummaryLength s20 chat w) = Ok tt
      /\ fst (validateSummaryLength s21 chat w) = Throw (SummaryTooLong 21 10)).
Proof.
  intros Hv total.
  assert (forall summaryText : jsstring,
            validateSummaryLength summaryText chat w =
            (if Nat.max total 1 * 2 <? length summaryText
             then Throw (SummaryTooLong (length summaryText) total)
             else Ok tt, w)) as Hrun
    by (intros; by apply run_validateSummaryLength with (c := c)).
  split.
  - intros summaryText. rewrite Hrun. cbn [fst snd].
    destruct (Nat.ltb_spec (Nat.max total 1 * 2) (length summaryText)).
    + split; [|split; [|reflexivity]].
      * split; [lia | reflexivity].
      * split; [discriminate | lia].
    + split; [|split; [|reflexivity]].
      * split; [discriminate | lia].
      * split; [lia | reflexivity].
  - intros Htotal s20 s21 H20 H21. rewrite !Hrun, H20, H21, Htotal.
    split; reflexivity.
Qed.

(** ** updateSummary *)

(** C8: on a chat without messages [updateSummary] throws the empty-chat
    error and leaves the whole world as it was: no backend invocation, no
    event, no change to any object. *)
Theorem updateSummary_empty_chat (w : World) (chat : addr) (c : Chat)
    (llm : GeminiLLM) :
  chat_view (heap w) chat = Some (c, []) ->
  updateSummary chat llm w = (Throw EmptyChat, w).
Proof.
  intros (Hc & es & Ha & Hms)%chat_view_Some.
  rewrite (run_updateSummary chat llm w c es Hc Ha).
  apply heap_messages_Some in Hms. apply Forall2_nil_inv_r in Hms.
  by subst es.
Qed.

(** C6: [updateSummary] either returns a reply, which is the one that the
    attempt cycle produced, and then the summary of the chat is that reply's
    text while its other fields and its messages are what they were; or it
    throws, because the chat has no message or with the error of the failed
    attempt cycle, and then no object has changed, so the earlier summary is
    still there. *)
Theorem updateSummary_summary_atomic (w : World) (chat : addr) (c : Chat)
    (ms : list Message) (llm : GeminiLLM) :
  chat_view (heap w) chat = Some (c, ms) ->
  match updateSummary chat llm w with
  | (Ok response, w') =>
      chat_view (heap w') chat = Some (set_summary c (reply response), ms)
      /\ fst (callLLMWithValidation llm (createSummaryPrompt (historyString c))
                [validateSummaryLength] chat default_maxRetries
                default_timeoutMs w) = Ok response
  | (Throw e, w') =>
      heap w' = heap w /\ chat_view (heap w') chat = Some (c, ms)
      /\ ((ms = [] /\ e = EmptyChat)
          \/ fst (callLLMWithValidation llm
                    (createSummaryPrompt (historyString c))
                    [validateSummaryLength] chat default_maxRetries
                    default_timeoutMs w) = Throw e)
  end.
Proof.
  intros Hv. pose proof Hv as (Hc & es & Ha & Hms)%chat_view_Some.
  rewrite (run_updateSummary chat llm w c es Hc Ha).
  destruct (length es =? 0) eqn:Hempty.
  { split; [done|]. split; [done|]. left. split; [|done].
    apply Nat.eqb_eq in Hempty. apply heap_messages_Some in Hms.
    apply Forall2_length in Hms. destruct ms; [done|].
    cbn [length] in Hms. lia. }
  pose proof (callLLM_heap llm (createSummaryPrompt (historyString c))
                [validateSummaryLength] chat default_maxRetries
                default_timeoutMs w) as Hheap.
  destruct Hheap as [Hheap _].
  { constructor; [apply validateSummaryLength_read_only | constructor]. }
  destruct (callLLMWithValidation _ _ _ _ _ _ w) as [[response|e] w2];
    cbn [snd] in Hheap.
  - split; [|reflexivity]. cbn [heap set_heap].
    by apply chat_view_store with (c := c).
  - rewrite Hheap. split; [done|]. split; [done|]. by right.
Qed.

(** ** sendMessage *)

(** C4: [sendMessage] first records the user message: one message object
    with role [user] and the given text is pushed on the messages of the
    chat and its line is appended to the history, and up to there no backend
    invocation has been made.  The backend is then invoked at least once,
    and every invocation that the call makes finds the heap as it is right
    after that recording: the user message is the last message of the chat,
    its line ends the history, and nothing of a reply is there.  Whether
    the call returns or throws, the user message stays, followed by the
    reply message exactly when a reply is returned. *)
Theorem sendMessage_records_user_message (w : World) (chat : addr) (c : Chat)
    (ms : list Message) (content : jsstring) (llm : GeminiLLM) :
  chat_view (heap w) chat = Some (c, ms) ->
  let u := user_message content (now w) in
  let c1 := set_historyString c (historyString c ++ history_line u) in
  exists w1 : World,
    record_message chat u w = (Ok tt, w1)
    /\ calls w1 = calls w /\ trace w1 = trace w /\ seen w1 = seen w
    /\ chat_view (heap w1) chat = Some (c1, ms ++ [u])
    /\ sendMessage chat content llm w = await_reply chat content llm w1
    /\ (exists times : list N,
          times <> []
          /\ length times
             = calls (snd (sendMessage chat content llm w)) - calls w
          /\ seen (snd (sendMessage chat content llm w))
             = seen w ++ map (fun t => (t, heap w1)) times)
    /\ match sendMessage chat content llm w with
       | (Ok response, w') =>
           exists t : N,
             let l := llm_message (reply response) t in
             chat_view (heap w') chat =
             Some (set_historyString c1 (historyString c1 ++ history_line l),
                   ms ++ [u; l])
       | (Throw e, w') => chat_view (heap w') chat = Some (c1, ms ++ [u])
       end.
Proof.
  intros Hv u c1. pose proof Hv as (Hc & es & Ha & Hms)%chat_view_Some.
  exists (set_heap (heap_with_message (heap w) chat c es u) w).
  assert (chat_view (heap_with_message (heap w) chat c es u) chat
          = Some (c1, ms ++ [u])) as Hv1
    by exact (with_message_view (heap w) chat c es u Hc Ha ms Hms).
  split; [by rewrite run_record_message, Hc, Ha|].
  split; [reflexivity|]. split; [reflexivity|]. split; [reflexivity|].
  split; [exact Hv1|].
  split.
  { rewrite sendMessage_split. fold u. by rewrite run_record_message, Hc, Ha. }
  rewrite (run_sendMessage chat content llm w c es Hc Ha). cbv zeta.
  fold u c1.
  set (w1 := set_heap (heap_with_message (heap w) chat c es u) w).
  pose proof (callLLM_heap llm (createConversationPrompt (historyString c1) content)
                [] chat default_maxRetries default_timeoutMs w1
                (Forall_nil_2 _)) as [Hheap _].
  destruct (callLLM_seen llm (createConversationPrompt (historyString c1) content)
              [] chat default_maxRetries default_timeoutMs w1
              (Forall_nil_2 _)) as (times & Hne & Hlen & Hseen);
    [unfold default_maxRetries; lia|].
  change (calls w1) with (calls w) in Hlen.
  change (seen w1) with (seen w) in Hseen.
  destruct (callLLMWithValidation _ _ _ _ _ _ _) as [[response|e] w2];
    cbn [snd heap set_heap] in Hheap, Hlen, Hseen.
  - split; [by exists times|].
    exists (now w2). cbv zeta. cbn [heap set_heap].
    pose proof Hv1 as (Hc1 & es1 & Ha1 & Hms1)%chat_view_Some.
    assert (es1 = es ++ [length (heap w)]) as ->.
    { pose proof (with_message_array (heap w) chat c es u Hc Ha) as Ha1'.
      cbn [messages c1 set_historyString] in Ha1. congruence. }
    rewrite (with_message_view _ chat c1 _ _ Hc1 Ha1 _ Hms1).
    by rewrite <- app_assoc.
  - split; [by exists times|]. by rewrite Hheap.
Qed.

(** C1, as the program has it: after [makeChat] with the name X and one
    [sendMessage] of the text Hi against a backend that answers
    [{"reply":"Hello!"}] in time, the call returns that reply; the chat has
    the two messages [user, Hi] and [llm, Hello!] in this order, the history
    is the two lines [[USER] Hi] and [[LLM] Hello!], each ended by a line
    feed, and the summary is empty. *)
Theorem sendMessage_end_to_end (w : World) (llm : GeminiLLM) (after : N) :
  (after < default_timeoutMs)%N ->
  (forall (n : nat) (prompt : jsstring),
     executeLLM llm n prompt
     = Settles after (Resolves (reply_json (js "Hello!")))) ->
  exists (chat : addr) (w0 w' : World),
    makeChat (js "X") w = (Ok chat, w0)
    /\ sendMessage chat (js "Hi") llm w0 = (Ok {| reply := js "Hello!" |}, w')
    /\ chat_view (heap w') chat =
       Some ({| name := js "X"; messages := length (heap w); summary := [];
                historyString :=
                  js "[USER] Hi" ++ [newline] ++ js "[LLM] Hello!"
                  ++ [newline] |},
             [ {| role := Role_user; content := js "Hi";
                  timestamp := now w |};
               {| role := Role_llm; content := js "Hello!";
                  timestamp := (now w + after)%N |} ]).
Proof.
  intros Hafter Hllm. apply N.ltb_lt in Hafter.
  rewrite run_makeChat.
  set (w0 := set_chats _ _).
  pose proof (makeChat_view (js "X") (heap w)) as Hv0.
  destruct (sendMessage_view w0 _ _ _ (js "Hi") llm Hv0)
    as (w1 & _ & Hcalls & _ & Hnow & _ & _ & Hrun).
  rewrite (callLLM_first llm _ _ w1 {| reply := js "Hello!" |}) in Hrun.
  2:{ rewrite Hllm. unfold attempt_result, raw_result, settled_in_time.
      rewrite Hafter. by vm_compute. }
  cbv zeta in Hrun. destruct Hrun as (w' & Hsend & _ & _ & _ & _ & Hview).
  exists (S (length (heap w))), w0, w'.
  split; [reflexivity|]. split; [exact Hsend|].
  rewrite Hview. cbn [after_call now]. rewrite Hnow, Hllm.
  unfold attempt_time. rewrite Hafter.
  reflexivity.
Qed.

(** C3: the retry protocol.  An attempt cycle allowed [maxRetries] attempts
    invokes the backend at most that many times, one attempt after the
    other.  When [maxRetries] is not zero, its trace consists of the failed
    attempts that were retried, each an invocation, a warning and a delay of
    500 ms times the attempt number, then the last invocation, followed by a
    warning only (no delay) when that attempt failed too, in which case the
    cycle used up all the attempts and throws that very error.  The delays
    are waited for: every attempt after the first invokes the backend when
    the attempt before it has taken its time and 500 ms times the number of
    that attempt have passed on the clock, and the cycle ends when its last
    attempt has taken its time, with no delay after it.  With the default
    of 3: when the first two attempts of [sendMessage] fail and the third
    yields a reply, the call returns it after exactly 3 invocations, made
    at the start, 500 ms after the first attempt ended and 1000 ms after
    the second ended, and the reply message, stamped with the time at which
    the third attempt ended, follows the user message; when all three fail,
    the call throws the error of the third attempt after exactly 3
    invocations made at those times, it ends when the third attempt ends,
    and the chat has gained the user message only. *)
Theorem retry_protocol (w : World) (chat : addr) (c : Chat)
    (ms : list Message) (content : jsstring) :
  chat_view (heap w) chat = Some (c, ms) ->
  let u := user_message content (now w) in
  let c1 := set_historyString c (historyString c ++ history_line u) in
  let prompt := createConversationPrompt (historyString c1) content in
  let result (llm : GeminiLLM) (i : nat) :=
    attempt_result (executeLLM llm (calls w + i) prompt) default_timeoutMs in
  let wait (llm : GeminiLLM) (i : nat) :=
    attempt_time (executeLLM llm (calls w + i) prompt) default_timeoutMs in
  (forall (llm : GeminiLLM) (prompt' : jsstring) (validators : list validator)
          (maxRetries : nat) (timeoutMs : N),
     Forall read_only validators ->
     calls (snd (callLLMWithValidation llm prompt' validators chat maxRetries
                   timeoutMs w)) <= calls w + maxRetries)
  /\ (forall (llm : GeminiLLM) (prompt' : jsstring) (validators : list validator)
          (maxRetries : nat) (timeoutMs : N),
     Forall read_only validators -> 1 <= maxRetries ->
     exists errors : list Error,
       let waits :=
         attempt_waits llm prompt' timeoutMs (calls w) (S (length errors)) in
       let '(r, w') := callLLMWithValidation llm prompt' validators chat
                         maxRetries timeoutMs w in
       calls w' = calls w + S (length errors)
       /\ S (length errors) <= maxRetries
       /\ now w' = cycle_end (now w) 1 waits
       /\ seen w' =
          seen w ++ map (fun t => (t, heap w)) (call_times (now w) 1 waits)
       /\ match r with
          | Ok _ =>
              trace w' =
              trace w ++ failed_rounds prompt' 1 errors ++ [EvCall prompt']
          | Throw e =>
              S (length errors) = maxRetries
              /\ trace w' =
                 trace w ++ failed_rounds prompt' 1 errors
                 ++ [EvCall prompt'; EvWarn maxRetries e]
          end)
  /\ (forall (llm : GeminiLLM) (e1 e2 : Error) (response : LLMReply),
        result llm 0 = Throw e1 -> result llm 1 = Throw e2 ->
        result llm 2 = Ok response ->
        let t0 := wait llm 0 in
        let t1 := wait llm 1 in
        let t2 := wait llm 2 in
        exists w' : World,
          sendMessage chat content llm w = (Ok response, w')
          /\ calls w' = calls w + 3
          /\ trace w' =
             trace w ++ failed_rounds prompt 1 [e1; e2] ++ [EvCall prompt]
          /\ map fst (seen w') =
             map fst (seen w)
             ++ [now w; now w + t0 + 500; now w + t0 + 500 + t1 + 1000]%N
          /\ now w' = (now w + t0 + 500 + t1 + 1000 + t2)%N
          /\ let l := llm_message (reply response)
                        (now w + t0 + 500 + t1 + 1000 + t2)%N in
             chat_view (heap w') chat =
             Some (set_historyString c1 (historyString c1 ++ history_line l),
                   ms ++ [u; l]))
  /\ (forall (llm : GeminiLLM) (e1 e2 e3 : Error),
        result llm 0 = Throw e1 -> result llm 1 = Throw e2 ->
        result llm 2 = Throw e3 ->
        let t0 := wait llm 0 in
        let t1 := wait llm 1 in
        let t2 := wait llm 2 in
        exists w' : World,
          sendMessage chat content llm w = (Throw e3, w')
          /\ calls w' = calls w + 3
          /\ trace w' =
             trace w ++ failed_rounds prompt 1 [e1; e2]
             ++ [EvCall prompt; EvWarn 3 e3]
          /\ map fst (seen w') =
             map fst (seen w)
             ++ [now w; now w + t0 + 500; now w + t0 + 500 + t1 + 1000]%N
          /\ now w' = (now w + t0 + 500 + t1 + 1000 + t2)%N
          /\ chat_view (heap w') chat = Some (c1, ms ++ [u])).
Proof.
  intros Hv u c1 prompt result wait.
  pose proof Hv as (Hc & es & Ha & Hms)%chat_view_Some.
  assert (chat_view (heap_with_message (heap w) chat c es u) chat
          = Some (c1, ms ++ [u])) as Hv1
    by exact (with_message_view (heap w) chat c es u Hc Ha ms Hms).
  split; [|split; [|split]].
  - intros llm prompt' validators maxRetries timeoutMs Hro.
    destruct maxRetries as [|n]; [cbn; lia|].
    destruct (attempts_protocol llm prompt' validators chat (S n)
                timeoutMs Hro (S n) 1 w) as [errors H]; [lia|lia|lia|].
    unfold callLLMWithValidation. cbv zeta in H.
    destruct (attempts _ _ _ _ _ _ _ _ _) as [r w'].
    destruct H as (Hcalls & Hle & _). cbn [snd]. lia.
  - intros llm prompt' validators maxRetries timeoutMs Hro Hmax.
    destruct (attempts_protocol llm prompt' validators chat maxRetries
                timeoutMs Hro maxRetries 1 w) as [errors H]; [lia|lia|lia|].
    exists errors. unfold callLLMWithValidation. cbv zeta in H |- *.
    destruct (attempts _ _ _ _ _ _ _ _ _) as [r w']. exact H.
  - intros llm e1 e2 response H1 H2 H3 t0 t1 t2.
    rewrite (run_sendMessage chat content llm w c es Hc Ha). cbv zeta.
    fold u c1 prompt.
    set (w1 := set_heap _ w).
    destruct (callLLM_third llm prompt chat w1 e1 e2 H1 H2)
      as (w2 & Hheap & Hcalls & Hnow & Hseen & Hrun).
    change (calls w1) with (calls w) in Hrun, Hnow, Hseen.
    change (now w1) with (now w) in Hnow, Hseen.
    change (seen w1) with (seen w) in Hseen.
    fold (result llm 2) in Hrun. rewrite H3 in Hrun.
    fold (wait llm 0) (wait llm 1) (wait llm 2) in Hnow, Hseen.
    fold t0 t1 t2 in Hnow, Hseen.
    destruct Hrun as [-> Htrace].
    eexists. split; [reflexivity|].
    cbn [calls trace heap now seen set_heap]. split; [exact Hcalls|].
    split; [exact Htrace|].
    split; [by rewrite Hseen, map_app, map_map|].
    split; [exact Hnow|]. cbv zeta. rewrite Hnow.
    pose proof Hv1 as (Hc1 & es1 & Ha1 & Hms1)%chat_view_Some.
    assert (es1 = es ++ [length (heap w)]) as ->.
    { pose proof (with_message_array (heap w) chat c es u Hc Ha) as Ha1'.
      cbn [messages c1 set_historyString] in Ha1. congruence. }
    rewrite (with_message_view _ chat c1 _ _ Hc1 Ha1 _ Hms1).
    by rewrite <- app_assoc.
  - intros llm e1 e2 e3 H1 H2 H3 t0 t1 t2.
    rewrite (run_sendMessage chat content llm w c es Hc Ha). cbv zeta.
    fold u c1 prompt.
    set (w1 := set_heap _ w).
    destruct (callLLM_third llm prompt chat w1 e1 e2 H1 H2)
      as (w2 & Hheap & Hcalls & Hnow & Hseen & Hrun).
    change (calls w1) with (calls w) in Hrun, Hnow, Hseen.
    change (now w1) with (now w) in Hnow, Hseen.
    change (seen w1) with (seen w) in Hseen.
    fold (result llm 2) in Hrun. rewrite H3 in Hrun.
    fold (wait llm 0) (wait llm 1) (wait llm 2) in Hnow, Hseen.
    fold t0 t1 t2 in Hnow, Hseen.
    destruct Hrun as [-> Htrace].
    eexists. split; [reflexivity|].
    split; [exact Hcalls|]. split; [exact Htrace|].
    split; [by rewrite Hseen, map_app, map_map|].
    split; [exact Hnow|].
    by rewrite Hheap.
Qed.

(** ** The structural check (validator.ts) *)

(** C5, as the program has it: [validateLLMResponse] throws exactly when the
    cleaned text does not parse as JSON, or the parsed value is not an
    object, or has no [reply] property, or has one that is not a string, or
    has a property other than [reply]; it returns exactly when the cleaned
    text parses to the object whose only property is [reply], a string, and
    then returns that string; the parser never gives up for lack of fuel.
    A text of the form [{"reply":"X"}], bare or inside a fence labelled
    [json], validates to X provided that X is written without escapes and
    contains no three backticks in a row. *)
Theorem validateLLMResponse_spec (raw : jsstring) :
  let cleaned := cleanJSON raw in
  ((exists e, validateLLMResponse raw = Throw e) <->
   JSON_parse cleaned = None
   \/ exists parsed,
        JSON_parse cleaned = Some parsed
        /\ (~ is_JSON_object parsed
            \/ get_property (js "reply") parsed = None
            \/ (exists v, get_property (js "reply") parsed = Some v
                          /\ ~ is_JSON_string v)
            \/ exists k, k ∈ Object_keys parsed /\ k <> js "reply"))
  /\ (forall r : LLMReply,
        validateLLMResponse raw = Ok r <->
        JSON_parse cleaned = Some (JObject [(js "reply", JString (reply r))]))
  /\ parse_value (2 * length (skip_ws cleaned) + 1) (skip_ws cleaned)
     <> POutOfFuel
  /\ (forall X : jsstring,
        Forall plain X -> has_fence X = false ->
        validateLLMResponse (reply_json X) = Ok {| reply := X |}
        /\ validateLLMResponse (fenced (reply_json X)) = Ok {| reply := X |}).
Proof.
  intros cleaned.
  split; [apply validateLLMResponse_Throw|].
  split; [intros r; apply validateLLMResponse_Ok|].
  split; [apply JSON_parse_fuel|].
  intros X Hplain Hfence.
  split; apply validateLLMResponse_Ok; cbn [reply].
  - rewrite cleanJSON_reply_json by done. by apply JSON_parse_reply_json.
  - rewrite cleanJSON_fenced_reply_json by done.
    by apply JSON_parse_reply_json.
Qed.

(** C5, as stated, fails for X made of three backticks: the text
    [{"reply":"```"}] is a JSON object whose [reply] is that string, yet it
    validates to the empty reply. *)
Lemma validateLLMResponse_drops_fence_in_reply :
  JSON_parse (reply_json (js "```"))
  = Some (JObject [(js "reply", JString (js "```"))])
  /\ validateLLMResponse (reply_json (js "```")) = Ok {| reply := [] |}
  /\ validateLLMResponse (reply_json (js "```")) <> Ok {| reply := js "```" |}
  /\ validateLLMResponse (fenced (reply_json (js "```")))
     <> Ok {| reply := js "```" |}.
Proof. vm_compute. repeat split; discriminate. Qed.

(** C10: the first replacement removes a fence wherever it stands, together
    with the label [json] when that follows it; after cleaning, no text has
    three backticks in a row; and there is a JSON object [{"reply": X}], with
    X containing a fence, that validates to a reply other than X. *)
Theorem cleanJSON_removes_every_fence :
  (forall a b : jsstring,
     backtick ∉ a ->
     remove_all fence_with_label (a ++ js "```" ++ b)
     = a ++ remove_all fence_with_label
              (if starts_with (js "json") b then drop 4 b else b))
  /\ (forall raw : jsstring, has_fence (cleanJSON raw) = false)
  /\ exists X raw : jsstring,
       raw = reply_json X
       /\ JSON_parse raw = Some (JObject [(js "reply", JString X)])
       /\ has_fence X = true
       /\ validateLLMResponse raw = Ok {| reply := js "ab" |}
       /\ validateLLMResponse raw <> Ok {| reply := X |}.
Proof.
  split; [intros a b Ha; by apply remove_fence_with_label_anywhere|].
  split; [apply has_fence_cleanJSON|].
  exists (js "a```b"), (reply_json (js "a```b")).
  vm_compute. repeat split; discriminate.
Qed.

(** ** The store and the history (llmchat.ts) *)

(** C2: after any sequence of operations, every chat object has a history
    that is exactly the concatenation, in order, of the lines of its
    messages, the line of a message being its role in upper case between
    square brackets, a space, its content and a line feed.  And whatever the
    world, an operation only ever extends the history of a chat, by the
    lines of the messages it records in it: it never rewrites it. *)
Theorem history_invariant (ops : list Op) :
  let w := run_ops ops init in
  (forall (chat : addr) (c : Chat),
     heap_chat (heap w) chat = Some c ->
     exists ms : list Message,
       chat_view (heap w) chat = Some (c, ms)
       /\ historyString c = concat (map history_line ms))
  /\ (forall m : Message,
        history_line m =
        js "[" ++ match role m with
                  | Role_user => js "USER"
                  | Role_llm => js "LLM"
                  end
        ++ js "] " ++ content m ++ [newline])
  /\ (forall (w0 : World) (op : Op) (chat : addr) (c : Chat),
        heap_chat (heap w0) chat = Some c ->
        exists (c' : Chat) (added : list Message),
          heap_chat (heap (run_op op w0)) chat = Some c'
          /\ messages c' = messages c
          /\ historyString c' =
             historyString c ++ concat (map history_line added)
          /\ (added = []
              \/ exists content llm,
                   op = OpSendMessage chat content llm
                   /\ (added = [user_message content (now w0)]
                       \/ exists response t,
                            added = [user_message content (now w0);
                                     llm_message response t]))).
Proof.
  intros w. split; [|split].
  - intros chat c Hc.
    apply (world_consistent_chat_view w); [|done].
    apply run_ops_consistent, world_consistent_init.
  - apply history_line_rendering.
  - apply history_step.
Qed.

(** C9: after any sequence of operations, [getChats] returns one new chat
    per registered chat, in registration order, each with the name, summary,
    history and messages of the chat it copies; the objects of the copies
    (chat objects, arrays, message objects) are all new and all distinct, so
    none is an object of the store; the registered chats are as before, and
    overwriting any object that is not one of the heap as it was before the
    call leaves what the store holds unchanged.  A chat that was deleted is
    never registered again, whatever operations follow.  The registered
    chats are the chats that were created and not deleted since, each once,
    in the order of their creation: [makeChat] registers the new chat after
    the ones there are, [deleteChat] takes out the given chat and keeps the
    others in their order, and no other operation changes what is
    registered.  So the listing of a new store in which chats were created
    shows them in the order of creation, and after one of them was deleted
    it shows the others, in that order. *)
Theorem getChats_deep_copies (ops : list Op) :
  let w := run_ops ops init in
  exists (copies : list addr) (w' : World),
    getChats w = (Ok copies, w')
    /\ chats w' = chats w
    /\ Forall (fun a => is_Some (snapshot (heap w) a)) (chats w)
    /\ map (snapshot (heap w')) copies = map (snapshot (heap w)) (chats w)
    /\ map (snapshot (heap w')) (chats w) = map (snapshot (heap w)) (chats w)
    /\ Forall (fun x => x < length (heap w))
         (concat (map (footprint (heap w)) (chats w)))
    /\ Forall (fun x => length (heap w) <= x)
         (concat (map (footprint (heap w')) copies))
    /\ NoDup (concat (map (footprint (heap w')) copies))
    /\ (forall (a : addr) (o : Obj),
          length (heap w) <= a ->
          map (snapshot (<[a:=o]> (heap w'))) (chats w)
          = map (snapshot (heap w)) (chats w))
    /\ (forall (copy a : addr) (o : Obj),
          copy ∈ copies -> a ∈ footprint (heap w') copy ->
          map (snapshot (<[a:=o]> (heap w'))) (chats w)
          = map (snapshot (heap w)) (chats w))
    /\ (forall (c : addr) (ops' : list Op),
          c < length (heap w) ->
          c ∉ chats (run_ops (OpDeleteChat c :: ops') w))
    /\ NoDup (chats w)
    /\ (forall name : jsstring,
          exists (chat : addr) (w0 : World),
            makeChat name w = (Ok chat, w0)
            /\ length (heap w) <= chat
            /\ chats w0 = chats w ++ [chat])
    /\ (forall chat : addr,
          chats (snd (deleteChat chat w))
          = filter (fun c => c <> chat) (chats w))
    /\ (forall op : Op,
          match op with
          | OpMakeChat _ | OpDeleteChat _ => False
          | _ => True
          end ->
          chats (run_op op w) = chats w)
    /\ (forall names : list jsstring,
          exists (listed : list addr) (w1 : World),
            getChats (run_ops (map OpMakeChat names) init) = (Ok listed, w1)
            /\ map (snapshot (heap w1)) listed
               = map (fun n => Some (n, [], [], [])) names)
    /\ (forall (names1 names2 : list jsstring) (n : jsstring),
          exists (listed : list addr) (w1 : World),
            getChats
              (run_ops (map OpMakeChat (names1 ++ n :: names2)
                        ++ [OpDeleteChat (S (2 * length names1))]) init)
            = (Ok listed, w1)
            /\ map (snapshot (heap w1)) listed
               = map (fun n => Some (n, [], [], [])) (names1 ++ names2)).
Proof.
  intros w.
  assert (world_consistent w) as Hw
    by apply run_ops_consistent, world_consistent_init.
  pose proof Hw as [_ Hreg].
  assert (Forall (fun a => is_Some (chat_view (heap w) a)) (chats w)) as Hviews.
  { eapply Forall_impl; [exact Hreg|]. intros a [c Hc].
    destruct (world_consistent_chat_view w a c Hw Hc) as (ms & Hv & _).
    by rewrite Hv. }
  assert (Forall (fun a => is_Some (snapshot (heap w) a)) (chats w)) as Hsnaps.
  { eapply Forall_impl; [exact Hviews|]. intros a Ha.
    by apply snapshot_is_Some. }
  destruct (run_copy_chats (chats w) w Hviews)
    as (copies & ext & Hrun & Hcopies & Hrange & Hnd & _).
  exists copies, (set_heap (heap w ++ ext) w).
  cbn [heap chats set_heap].
  split; [exact Hrun|]. split; [done|]. split; [exact Hsnaps|].
  split.
  { apply Forall2_map_eq. eapply Forall2_impl; [exact Hcopies|].
    by intros a copy (_ & Hsnap & _). }
  split.
  { apply map_ext_Forall. eapply Forall_impl; [exact Hsnaps|].
    intros a Ha. cbn beta. apply snapshot_agree; [apply agree_app | done]. }
  split; [by apply registered_footprint|].
  split.
  { eapply Forall_impl; [exact Hrange|]. intros x Hx. cbn beta in Hx. lia. }
  split; [exact Hnd|].
  assert (forall (a : addr) (o : Obj),
            length (heap w) <= a ->
            map (snapshot (<[a:=o]> (heap w ++ ext))) (chats w)
            = map (snapshot (heap w)) (chats w)) as Hindep.
  { intros a o Ha. apply map_ext_Forall.
    eapply Forall_impl; [exact Hsnaps|]. intros a' Ha'. cbn beta.
    apply snapshot_agree; [by apply agree_insert_fresh | done]. }
  split; [exact Hindep|].
  split.
  { intros copy a o Hcopy Ha. apply Hindep.
    rewrite Forall_forall in Hrange.
    assert (a ∈ concat (map (footprint (heap w ++ ext)) copies)) as Hin.
    { apply list_elem_of_In, in_concat.
      exists (footprint (heap w ++ ext) copy).
      split; [apply in_map|]; by apply list_elem_of_In. }
    specialize (Hrange _ Hin). cbn beta in Hrange. lia. }
  split.
  { intros c ops' Hc. cbn [run_ops fold_left run_op].
    apply run_ops_keeps_unregistered.
    - by apply (run_op_effect (OpDeleteChat c)).
    - done.
    - cbn [deleteChat snd chats set_chats].
      intros [Hne _]%list_elem_of_filter. done. }
  split; [exact (proj1 (run_ops_registered_once ops))|].
  split.
  { intros name. rewrite run_makeChat. eexists _, _.
    split; [reflexivity|]. split; [lia | reflexivity]. }
  split; [done|].
  split.
  { intros [name|chat|chat newName|chat content llm|chat llm|] Hop;
      cbn [run_op]; try done.
    - apply registry_blind_chats, registry_blind_renameChat.
    - apply registry_blind_chats, registry_blind_sendMessage.
    - apply registry_blind_chats, registry_blind_updateSummary.
    - by apply getChats_chats. }
  split; [exact listing_after_creations | exact listing_after_deletion].
Qed.

(** ** The attempt cycle within the operations (llmchat.ts) *)

(** X1: on a chat, [sendMessage] returns the reply of the first of at most
    three attempts whose answer arrives in time and passes the structural
    check, and throws the error of the third attempt when none does; every
    attempt uses the prompt built from the history that already ends with
    the user message; the backend is invoked once per attempt made and not
    again after a reply was accepted. *)
Theorem sendMessage_returns_first_valid_reply (w : World) (chat : addr)
    (c : Chat) (ms : list Message) (content : jsstring) (llm : GeminiLLM) :
  chat_view (heap w) chat = Some (c, ms) ->
  let u := user_message content (now w) in
  let prompt :=
    createConversationPrompt (historyString c ++ history_line u) content in
  let r i :=
    attempt_result (executeLLM llm (calls w + i) prompt) default_timeoutMs in
  fst (sendMessage chat content llm w) = first_reply (r 0) (r 1) (r 2)
  /\ calls (snd (sendMessage chat content llm w))
     = calls w + attempts_made (r 0) (r 1).
Proof.
  intros Hview u prompt r.
  destruct (sendMessage_view w chat c ms content llm Hview)
    as (w1 & _ & Hcalls & _ & _ & _ & _ & Hrun).
  cbv zeta in Hrun. cbn [historyString set_historyString] in Hrun.
  fold u in Hrun. fold prompt in Hrun.
  pose proof (callLLM_three_attempts llm prompt chat w1) as Hthree.
  cbv zeta in Hthree. rewrite Hcalls in Hthree. fold r in Hthree.
  destruct Hthree as [Hres Hn].
  destruct (callLLMWithValidation llm prompt [] chat default_maxRetries
              default_timeoutMs w1) as [[response|e] w2].
  - destruct Hrun as (w' & -> & Hc' & _). cbn [fst snd] in *.
    rewrite Hc'. done.
  - destruct Hrun as [-> _]. done.
Qed.

(** X2: the waiting time of an attempt cycle is bounded: for validators
    that only read, [callLLMWithValidation] lets the clock advance by at
    most [maxRetries] time-outs plus the back-off delays, 500 ms times the
    attempt number after every attempt but the last, that is by at most
    [maxRetries * timeoutMs + 250 * maxRetries * (maxRetries - 1)]
    milliseconds.  With the defaults, [sendMessage] and [updateSummary]
    return or throw within 31500 ms of waiting, whatever the backend does
    and whatever reference they are given. *)
Theorem attempt_cycle_time_bound (w : World) :
  (forall (llm : GeminiLLM) (prompt : jsstring) (validators : list validator)
          (chat : addr) (maxRetries : nat) (timeoutMs : N),
     Forall read_only validators ->
     let w' := snd (callLLMWithValidation llm prompt validators chat
                      maxRetries timeoutMs w) in
     (now w <= now w' /\ now w' <= now w + cycle_time maxRetries timeoutMs)%N)
  /\ (forall (k : nat) (timeoutMs : N),
        cycle_time 0 timeoutMs = 0%N
        /\ cycle_time (S k) timeoutMs
           = (N.of_nat (S k) * timeoutMs
              + 250 * N.of_nat (S k) * N.of_nat k)%N)
  /\ (forall (chat : addr) (content : jsstring) (llm : GeminiLLM),
        let w' := snd (sendMessage chat content llm w) in
        (now w <= now w' /\ now w' <= now w + 31500)%N)
  /\ (forall (chat : addr) (llm : GeminiLLM),
        let w' := snd (updateSummary chat llm w) in
        (now w <= now w' /\ now w' <= now w + 31500)%N).
Proof.
  split; [|split; [|split]].
  - intros llm prompt validators chat maxRetries timeoutMs Hro.
    by apply callLLM_time.
  - intros k timeoutMs. split; [reflexivity|].
    rewrite cycle_time_closed. lia.
  - intros chat content llm. apply sendMessage_time.
  - intros chat llm. apply updateSummary_time.
Qed.


(** X4: a summary that [updateSummary] stores was checked: when the call
    returns, the chat is not empty, the returned reply is the structurally
    valid answer of one of at most three attempts, the backend was invoked
    once per attempt up to that one, and the text stored as the summary has
    at most twice as many code units as the messages of the chat together
    (twice one for a chat whose messages are all empty). *)
Theorem updateSummary_stores_checked_reply (w w' : World) (chat : addr)
    (c : Chat) (ms : list Message) (llm : GeminiLLM) (response : LLMReply) :
  chat_view (heap w) chat = Some (c, ms) ->
  updateSummary chat llm w = (Ok response, w') ->
  ms <> []
  /\ length (reply response) <= 2 * Nat.max (content_total ms) 1
  /\ chat_view (heap w') chat = Some (set_summary c (reply response), ms)
  /\ exists i : nat,
       i < 3 /\ calls w' = calls w + S i
       /\ attempt_result
            (executeLLM llm (calls w + i)
               (createSummaryPrompt (historyString c)))
            default_timeoutMs = Ok response.
Proof.
  intros Hview Hrun.
  pose proof Hview as Hv.
  apply chat_view_Some in Hv as (Hc & es & Ha & Hms).
  rewrite (run_updateSummary chat llm w c es Hc Ha) in Hrun.
  destruct (length es =? 0) eqn:Hlen; [discriminate Hrun|].
  apply Nat.eqb_neq in Hlen.
  destruct (callLLMWithValidation llm (createSummaryPrompt (historyString c))
              [validateSummaryLength] chat default_maxRetries
              default_timeoutMs w) as [[response'|e] w2] eqn:Hcall;
    [|discriminate Hrun].
  injection Hrun as -> <-.
  unfold callLLMWithValidation in Hcall.
  apply attempts_Ok_inv in Hcall as (i & wi & Hi & Hcalls & Hheap & Hr & Hchk);
    [|by repeat constructor; apply validateSummaryLength_read_only].
  split.
  { intros ->. apply heap_messages_Some in Hms. inversion Hms; subst.
    by apply Hlen. }
  split.
  { cbn [forEach] in Hchk. rewrite run_bind in Hchk.
    rewrite (run_validateSummaryLength _ chat wi c ms) in Hchk
      by (by rewrite Hheap).
    destruct (Nat.max (content_total ms) 1 * 2 <? length (reply response))
      eqn:E; [discriminate Hchk|].
    apply Nat.ltb_ge in E. lia. }
  split.
  { cbn [heap set_heap]. by apply (chat_view_store _ _ c). }
  exists i. cbn [calls set_heap]. unfold default_maxRetries in Hi. done.
Qed.

(** ** The summary check as the conversation grows (validator.ts) *)

(** X5: the summary check is monotone.  A summary of at most two code units
    passes on every chat, the empty chat included.  When a summary passes on
    a chat, every summary that is not longer passes too, and the same
    summary still passes after any [sendMessage] on that chat, whether that
    call returned or threw: recording messages only raises the limit. *)
Theorem validateSummaryLength_monotone (w : World) (chat : addr) (c : Chat)
    (ms : list Message) (summaryText : jsstring) :
  chat_view (heap w) chat = Some (c, ms) ->
  (length summaryText <= 2 ->
   fst (validateSummaryLength summaryText chat w) = Ok tt)
  /\ (fst (validateSummaryLength summaryText chat w) = Ok tt ->
      (forall shorter : jsstring,
         length shorter <= length summaryText ->
         fst (validateSummaryLength shorter chat w) = Ok tt)
      /\ (forall (content : jsstring) (llm : GeminiLLM),
            fst (validateSummaryLength summaryText chat
                   (snd (sendMessage chat content llm w))) = Ok tt)).
Proof.
  intros Hview.
  assert (forall (w0 : World) (ms0 : list Message) (c0 : Chat) (s : jsstring),
            chat_view (heap w0) chat = Some (c0, ms0) ->
            fst (validateSummaryLength s chat w0) = Ok tt
            <-> length s <= 2 * Nat.max (content_total ms0) 1) as Hpass.
  { intros w0 ms0 c0 s Hv. rewrite (run_validateSummaryLength s chat w0 c0 ms0 Hv).
    destruct (Nat.max (content_total ms0) 1 * 2 <? length s) eqn:E; cbn [fst].
    - apply Nat.ltb_lt in E. split; [done | lia].
    - apply Nat.ltb_ge in E. split; [lia | done]. }
  split.
  { intros Hshort. apply (Hpass w ms c _ Hview). lia. }
  intros Hok. apply (Hpass w ms c _ Hview) in Hok.
  split.
  { intros shorter Hle. apply (Hpass w ms c _ Hview). lia. }
  intros content llm.
  destruct (sendMessage_view w chat c ms content llm Hview)
    as (w1 & _ & _ & _ & _ & _ & Hview1 & Hrun).
  cbv zeta in Hrun.
  destruct (callLLMWithValidation _ _ _ _ _ _ w1) as [[response|e] w2].
  - destruct Hrun as (w' & -> & _ & _ & _ & _ & Hview'). cbn [snd].
    apply (Hpass w' _ _ _ Hview'). rewrite content_total_app. lia.
  - destruct Hrun as [-> Hheap]. cbn [snd].
    rewrite <- Hheap in Hview1.
    apply (Hpass w2 _ _ _ Hview1). rewrite content_total_app. lia.
Qed.

(** ** The chats of the store, one beside the other (llmchat.ts) *)


(** X7: [deleteChat] never throws and touches no object; it removes the
    given reference from the registered chats and keeps the others in their
    order.  Deleting a reference that is not registered, a second deletion
    in particular, changes nothing, and two deletions can be made in either
    order. *)
Theorem deleteChat_laws (w : World) (chat other : addr) :
  let w' := snd (deleteChat chat w) in
  fst (deleteChat chat w) = Ok tt
  /\ heap w' = heap w
  /\ (chat ∉ chats w')
  /\ (forall a : addr, a <> chat -> a ∈ chats w' <-> a ∈ chats w)
  /\ (chats w' `sublist_of` chats w)
  /\ (chat ∉ chats w -> w' = w)
  /\ deleteChat chat w' = (Ok tt, w')
  /\ snd (deleteChat other w') = snd (deleteChat chat (snd (deleteChat other w))).
Proof.
  cbv zeta.
  split; [done|]. split; [done|].
  split.
  { cbn [deleteChat snd chats set_chats].
    intros [Hne _]%list_elem_of_filter. done. }
  split.
  { intros a Hne. cbn [deleteChat snd chats set_chats].
    rewrite list_elem_of_filter. tauto. }
  split. { apply sublist_filter. }
  split.
  { intros Hnot. by rewrite (deleteChat_unregistered chat w Hnot). }
  split.
  { apply deleteChat_unregistered. cbn [deleteChat snd chats set_chats].
    intros [Hne _]%list_elem_of_filter. done. }
  cbn [deleteChat snd].
  unfold set_chats. cbn [heap chats now calls trace]. f_equal.
  rewrite !list_filter_filter. apply list_filter_iff. intros x. tauto.
Qed.


(** X9: after any sequence of operations, [makeChat] returns a reference to
    a new object, registers it after the chats there are, and the listing
    that [getChats] returns next shows the chats as they were followed by
    one with the given name, no summary, no history and no message.  Names
    are not checked: an empty name or the name of another chat is taken as
    it is.  On a new store the listing has exactly one entry. *)
Theorem makeChat_lists_a_new_empty_chat (ops : list Op) (name : jsstring) :
  let w := run_ops ops init in
  exists (chat : addr) (w0 : World) (copies : list addr) (w' : World),
    makeChat name w = (Ok chat, w0)
    /\ length (heap w) <= chat
    /\ chats w0 = chats w ++ [chat]
    /\ snapshot (heap w0) chat = Some (name, [], [], [])
    /\ getChats w0 = (Ok copies, w')
    /\ map (snapshot (heap w')) copies
       = map (snapshot (heap w)) (chats w) ++ [Some (name, [], [], [])]
    /\ length copies = S (length (chats w))
    /\ (ops = [] -> length copies = 1).
Proof.
  intros w.
  assert (world_consistent w) as Hw
    by apply run_ops_consistent, world_consistent_init.
  pose proof (run_makeChat name w) as Hrun.
  set (w0 := set_chats _ _) in Hrun.
  assert (world_consistent w0) as Hw0.
  { pose proof (run_op_effect (OpMakeChat name) w Hw) as [H _].
    cbn [run_op] in H. by rewrite Hrun in H. }
  assert (snapshot (heap w0) (S (length (heap w)))
          = Some (name, [], [], [])) as Hnew.
  { unfold snapshot. subst w0. cbn [heap set_heap set_chats].
    by rewrite makeChat_view. }
  destruct (getChats_listing w0 Hw0) as (copies & w' & Hget & Hsnap & _ & Hlen).
  exists (S (length (heap w))), w0, copies, w'.
  split; [exact Hrun|]. split; [lia|]. split; [done|]. split; [exact Hnew|].
  split; [exact Hget|].
  assert (length copies = S (length (chats w))) as Hlen'.
  { rewrite Hlen. subst w0. cbn [chats set_chats]. rewrite length_app.
    cbn. lia. }
  split.
  { rewrite Hsnap. subst w0. cbn [chats set_chats heap set_heap] in *.
    rewrite map_app. cbn [map]. rewrite Hnew. f_equal.
    apply map_ext_Forall.
    eapply Forall_impl; [exact (consistent_views w Hw)|].
    intros a Ha. cbn beta. apply snapshot_agree; [apply agree_app|].
    by apply snapshot_is_Some. }
  split; [exact Hlen'|].
  intros ->. by rewrite Hlen'.
Qed.

(** X10: [getChats] never hands out a reference that anyone holds: after any
    sequence of operations, no object there is occurs in the array it
    returns, whether the chat is registered or was deleted.  The test
    [getChats().includes(chat)] therefore fails for every chat, deleted or
    not. *)
Theorem getChats_never_returns_a_held_reference (ops : list Op)
    (chat : addr) :
  let w := run_ops ops init in
  chat < length (heap w) ->
  exists (copies : list addr) (w' : World),
    getChats w = (Ok copies, w')
    /\ length copies = length (chats w)
    /\ (chat ∉ copies).
Proof.
  intros w Hlt.
  assert (world_consistent w) as Hw
    by apply run_ops_consistent, world_consistent_init.
  destruct (getChats_listing w Hw) as (copies & w' & Hget & _ & Hfresh & Hlen).
  exists copies, w'. split; [exact Hget|]. split; [exact Hlen|].
  intros Hin. rewrite Forall_forall in Hfresh.
  specialize (Hfresh _ Hin). cbn beta in Hfresh. lia.
Qed.

(** X11: [sendMessage], [updateSummary] and [renameChat] never look at the
    registered chats and never change them: they run the same, with the
    same result and the same effects, whatever is registered.  In
    particular a chat that was deleted can still be written to: sending a
    message to it after [deleteChat] does what sending before the deletion
    would have done. *)
Theorem operations_ignore_the_registry (w : World) (chat : addr)
    (content newName : jsstring) (llm : GeminiLLM) :
  registry_blind (sendMessage chat content llm)
  /\ registry_blind (updateSummary chat llm)
  /\ registry_blind (renameChat chat newName)
  /\ chats (snd (sendMessage chat content llm w)) = chats w
  /\ chats (snd (updateSummary chat llm w)) = chats w
  /\ chats (snd (renameChat chat newName w)) = chats w
  /\ sendMessage chat content llm (snd (deleteChat chat w))
     = (fst (sendMessage chat content llm w),
        snd (deleteChat chat (snd (sendMessage chat content llm w)))).
Proof.
  pose proof (registry_blind_sendMessage chat content llm) as Hsend.
  pose proof (registry_blind_updateSummary chat llm) as Hsum.
  pose proof (registry_blind_renameChat chat newName) as Hren.
  split; [exact Hsend|]. split; [exact Hsum|]. split; [exact Hren|].
  split; [by apply registry_blind_chats|].
  split; [by apply registry_blind_chats|].
  split; [by apply registry_blind_chats|].
  cbn [deleteChat snd]. rewrite Hsend.
  by rewrite (registry_blind_chats _ w Hsend).
Qed.

(** ** Cleaning and checking raw replies (validator.ts) *)

(** X12: [cleanJSON] is idempotent and its result has no white space at
    either end; [validateLLMResponse] sees a raw text only through its
    cleaned form.  For a text without three backticks in a row, cleaning is
    just trimming, and neither wrapping the text in a fence labelled [json]
    nor putting white space around it changes what the structural check
    returns or throws. *)
Theorem cleanJSON_idempotent_and_transparent (raw : jsstring) :
  cleanJSON (cleanJSON raw) = cleanJSON raw
  /\ trim_start (cleanJSON raw) = cleanJSON raw
  /\ trim_end (cleanJSON raw) = cleanJSON raw
  /\ validateLLMResponse (cleanJSON raw) = validateLLMResponse raw
  /\ (has_fence raw = false ->
      cleanJSON raw = trim raw
      /\ validateLLMResponse (fenced raw) = validateLLMResponse raw
      /\ forall before after : jsstring,
           all_js_space before -> all_js_space after ->
           validateLLMResponse (before ++ raw ++ after)
           = validateLLMResponse raw).
Proof.
  split; [apply cleanJSON_idem|].
  split; [apply trim_start_trim|].
  split; [apply trim_end_trim|].
  split; [unfold validateLLMResponse; by rewrite cleanJSON_idem|].
  intros Hraw. split; [by apply cleanJSON_no_fence|].
  split.
  - unfold validateLLMResponse. by rewrite cleanJSON_fenced.
  - intros before after Hb Ha. unfold validateLLMResponse.
    by rewrite cleanJSON_surrounded.
Qed.

(** X13: which error the structural check throws.  It throws the
    invalid-JSON error exactly when the cleaned text does not parse; the
    not-an-object error exactly when it parses to null, a boolean, a number
    or a string; the missing-field error exactly when it parses to an array
    or to an object without [reply]; the not-a-string error exactly when
    [reply] is there and is not a string; the unexpected-fields error
    exactly when [reply] is a string and the object has more than one key.
    It throws no other error. *)
Theorem validateLLMResponse_error_kinds (raw : jsstring) :
  let parsed := JSON_parse (cleanJSON raw) in
  (validateLLMResponse raw = Throw InvalidJSON <-> parsed = None)
  /\ (validateLLMResponse raw = Throw NotAnObject <->
      exists v, parsed = Some v /\ ~ is_JSON_object v /\ ~ is_JSON_array v)
  /\ (validateLLMResponse raw = Throw MissingReply <->
      exists v, parsed = Some v /\ (is_JSON_object v \/ is_JSON_array v)
                /\ get_property (js "reply") v = None)
  /\ (validateLLMResponse raw = Throw ReplyNotString <->
      exists v x, parsed = Some v /\ get_property (js "reply") v = Some x
                  /\ ~ is_JSON_string x)
  /\ (validateLLMResponse raw = Throw UnexpectedFields <->
      exists v text, parsed = Some v
                     /\ get_property (js "reply") v = Some (JString text)
                     /\ 1 < length (Object_keys v))
  /\ (forall e : Error,
        validateLLMResponse raw = Throw e ->
        e ∈ [InvalidJSON; NotAnObject; MissingReply; ReplyNotString;
             UnexpectedFields]).
Proof.
  cbv zeta. unfold validateLLMResponse.
  destruct (JSON_parse (cleanJSON raw)) as [[ |b|n|s|elems|props]|];
    cbn [typeof is_object_tag negb orb is_null has_property get_property
         Object_keys];
    [kinds | kinds | kinds | kinds | kinds | | kinds].
  destruct (get_prop (js "reply") props) as [x|] eqn:Hget.
  2:{ rewrite bool_decide_eq_false_2 by (by intros [? ?]). cbn [negb].
      kinds. }
  rewrite bool_decide_eq_true_2 by done. cbn [negb].
  destruct x as [ |b|n|text|elems|props'];
    [kinds | kinds | kinds | | kinds | kinds].
  destruct (1 <? length (map fst props)) eqn:Hlt;
    [apply Nat.ltb_lt in Hlt | apply Nat.ltb_ge in Hlt]; kinds.
Qed.

(** X14: a reply object written with white space between its tokens is
    accepted.  The text [{ "reply" : "X" }], with any JSON white space after
    the opening brace, around the colon and before the closing brace, and
    with X written without escapes and without three backticks in a row,
    validates to X; so it does with white space around it, inside a fence
    labelled [json], and with both.  X may be empty: the check does not ask
    for a reply that says something. *)
Theorem validateLLMResponse_accepts_spaced_reply
    (w1 w2 w3 w4 before after X : jsstring) :
  Forall plain X -> has_fence X = false ->
  all_json_ws w1 -> all_json_ws w2 -> all_json_ws w3 -> all_json_ws w4 ->
  all_js_space before -> all_js_space after ->
  let body := spaced_reply_json w1 w2 w3 w4 X in
  validateLLMResponse body = Ok {| reply := X |}
  /\ validateLLMResponse (before ++ body ++ after) = Ok {| reply := X |}
  /\ validateLLMResponse (fenced body) = Ok {| reply := X |}
  /\ validateLLMResponse (fenced (before ++ body ++ after))
     = Ok {| reply := X |}.
Proof.
  intros HX Hf H1 H2 H3 H4 Hb Ha body.
  assert (has_fence body = false) as Hbody
    by (by apply has_fence_spaced_reply_json).
  assert (validateLLMResponse body = Ok {| reply := X |}) as Hok.
  { apply validateLLMResponse_Ok. cbn [reply]. subst body.
    rewrite cleanJSON_spaced_reply_json by done.
    by apply JSON_parse_spaced_reply_json. }
  assert (validateLLMResponse (before ++ body ++ after) = Ok {| reply := X |})
    as Hsur.
  { unfold validateLLMResponse in *. by rewrite cleanJSON_surrounded. }
  split; [exact Hok|]. split; [exact Hsur|]. split.
  - unfold validateLLMResponse in *. by rewrite cleanJSON_fenced.
  - unfold validateLLMResponse in *. rewrite cleanJSON_fenced; [done|].
    rewrite has_fence_spaces_app by done. by apply has_fence_app_spaces.
Qed.

(** X15: an object with a second member.  For keys and values written
    without escapes and without three backticks in a row, the text
    [{"reply":"X","K":"Y"}] is rejected with the unexpected-fields error
    when K is not [reply], wherever the extra member stands; when the second
    member is named [reply] as well, the object has one key and the later
    value is returned. *)
Theorem validateLLMResponse_second_member (X K Y : jsstring) :
  Forall plain X -> Forall plain K -> Forall plain Y ->
  has_fence X = false -> has_fence K = false -> has_fence Y = false ->
  validateLLMResponse (object2_json (js "reply") X K Y)
  = (if decide (K = js "reply") then Ok {| reply := Y |}
     else Throw UnexpectedFields)
  /\ validateLLMResponse (object2_json K Y (js "reply") X)
     = (if decide (K = js "reply") then Ok {| reply := X |}
        else Throw UnexpectedFields).
Proof.
  intros HX HK HY HfX HfK HfY.
  assert (has_fence (js "reply") = false) as Hfr by reflexivity.
  pose proof plain_reply as Hpr.
  unfold validateLLMResponse.
  rewrite !cleanJSON_object2_json by done.
  rewrite !JSON_parse_object2_json by done.
  cbn [set_prop]. unfold jsstring_eqb.
  destruct (decide (K = js "reply")) as [->|Hne].
  - rewrite !bool_decide_eq_true_2 by done. done.
  - rewrite (bool_decide_eq_false_2 (js "reply" = K)) by congruence.
    rewrite (bool_decide_eq_false_2 (K = js "reply")) by done.
    cbn [typeof is_object_tag negb orb is_null has_property get_property
         get_prop Object_keys map fst length Nat.ltb Nat.leb].
    unfold jsstring_eqb.
    rewrite (bool_decide_eq_false_2 (K = js "reply")) by done.
    rewrite !(bool_decide_eq_true_2 (js "reply" = js "reply")) by done.
    rewrite !bool_decide_eq_true_2 by done. done.
Qed.

(** ** The texts that the program composes (llmchat.ts) *)

(** X16: the prompts embed their arguments verbatim, without quoting.  The
    summary prompt determines the history it was built from, and the
    conversation prompt determines the last message once the history is
    known; but the conversation prompt does not determine where the history
    ends and the last message begins: a history that contains the text put
    between the two gives the same prompt as a shorter history with a
    longer last message. *)
Theorem prompts_embed_their_arguments (h x m : jsstring) :
  createConversationPrompt (h ++ conversation_prompt_before_message ++ x) m
  = createConversationPrompt h (x ++ conversation_prompt_before_message ++ m)
  /\ (forall h1 h2 : jsstring,
        createSummaryPrompt h1 = createSummaryPrompt h2 -> h1 = h2)
  /\ (forall m1 m2 : jsstring,
        createConversationPrompt h m1 = createConversationPrompt h m2 ->
        m1 = m2).
Proof.
  split; [|split].
  - unfold createConversationPrompt. by rewrite <- !app_assoc.
  - intros h1 h2 Heq. unfold createSummaryPrompt in Heq.
    apply app_inv_head in Heq. by apply app_inv_tail in Heq.
  - intros m1 m2 Heq. unfold createConversationPrompt in Heq.
    do 3 apply app_inv_head in Heq. by apply app_inv_tail in Heq.
Qed.

(** X17: the history does not tell the messages apart.  A single user
    message whose text holds a line feed followed by [[LLM] ] and more text
    leaves in the history exactly what a user message and a reply of the
    backend leave: the line of a message is its role and its text, unquoted,
    so the history of a chat does not determine its messages. *)
Theorem history_lines_can_be_forged (a b : jsstring) (t1 t2 t3 : N) :
  let forged := user_message (a ++ [newline] ++ js "[LLM] " ++ b) t1 in
  let genuine := [user_message a t2; llm_message b t3] in
  history_line forged = concat (map history_line genuine)
  /\ transcript [forged] = transcript genuine
  /\ [forged] <> genuine.
Proof.
  cbv zeta.
  assert (history_line (user_message (a ++ [newline] ++ js "[LLM] " ++ b) t1)
          = concat (map history_line [user_message a t2; llm_message b t3]))
    as Hline.
  { rewrite !history_line_rendering. cbn [map concat role content user_message
                                          llm_message].
    rewrite !history_line_rendering. cbn [role content].
    rewrite app_nil_r. by rewrite <- !app_assoc. }
  split; [exact Hline|]. split; [|done].
  unfold transcript at 1. cbn [map concat]. rewrite app_nil_r. exact Hline.
Qed.


(** ** A call that failed and the next one (llmchat.ts) *)

(** X19: a failed [sendMessage] is not rolled back.  When a call throws and
    the caller sends again, the chat holds both user messages in the order
    they were sent, followed by the reply to the second, and its history
    holds the three lines; the first message stays unanswered. *)
Theorem failed_send_is_not_rolled_back (w w1 w2 : World) (chat : addr)
    (c : Chat) (ms : list Message) (content1 content2 : jsstring)
    (llm1 llm2 : GeminiLLM) (e : Error) (response : LLMReply) :
  chat_view (heap w) chat = Some (c, ms) ->
  sendMessage chat content1 llm1 w = (Throw e, w1) ->
  sendMessage chat content2 llm2 w1 = (Ok response, w2) ->
  let u1 := user_message content1 (now w) in
  let u2 := user_message content2 (now w1) in
  exists t : N,
    let l := llm_message (reply response) t in
    chat_view (heap w1) chat
    = Some (set_historyString c (historyString c ++ history_line u1),
            ms ++ [u1])
    /\ chat_view (heap w2) chat
       = Some (set_historyString c
                 (historyString c ++ history_line u1 ++ history_line u2
                  ++ history_line l),
               ms ++ [u1; u2; l]).
Proof.
  intros Hview Hfail Hok u1 u2.
  destruct (sendMessage_view w chat c ms content1 llm1 Hview)
    as (wa & _ & _ & _ & _ & _ & Hviewa & Hrun1).
  cbv zeta in Hrun1. fold u1 in Hviewa, Hrun1.
  destruct (callLLMWithValidation llm1 _ [] chat _ _ wa) as [[r1|e1] wb].
  { destruct Hrun1 as (w' & Hsend & _). congruence. }
  destruct Hrun1 as [Hsend Hheap].
  assert (wb = w1) as -> by congruence.
  rewrite <- Hheap in Hviewa.
  destruct (sendMessage_view w1 chat _ _ content2 llm2 Hviewa)
    as (wc & _ & _ & _ & _ & _ & _ & Hrun2).
  cbv zeta in Hrun2. fold u2 in Hrun2.
  destruct (callLLMWithValidation llm2 _ [] chat _ _ wc) as [[r2|e2] wd].
  2:{ destruct Hrun2 as [Hsend2 _]. congruence. }
  destruct Hrun2 as (w' & Hsend2 & _ & _ & _ & _ & Hview2).
  assert (r2 = response /\ w' = w2) as [-> ->] by (split; congruence).
  exists (now wd). cbv zeta. split; [exact Hviewa|].
  rewrite Hview2. unfold set_historyString. cbn [name messages summary
                                                  historyString].
  by rewrite <- !app_assoc.
Qed.

(** ** The registered chats (llmchat.ts) *)

(** X20: after any sequence of operations, no chat is registered twice,
    every registered reference leads to a chat object with its array and
    messages, no two chat objects share their array of messages, [getChats]
    returns without throwing, and deleting a registered chat makes the
    store exactly one chat shorter. *)
Theorem chats_are_registered_once (ops : list Op) :
  let w := run_ops ops init in
  NoDup (chats w)
  /\ Forall (fun a => is_Some (snapshot (heap w) a)) (chats w)
  /\ (forall (a b : addr) (ca cb : Chat),
        heap_chat (heap w) a = Some ca -> heap_chat (heap w) b = Some cb ->
        messages ca = messages cb -> a = b)
  /\ (exists (copies : list addr) (w' : World), getChats w = (Ok copies, w'))
  /\ (forall chat : addr,
        chat ∈ chats w ->
        S (length (chats (snd (deleteChat chat w)))) = length (chats w)).
Proof.
  intros w.
  assert (world_consistent w) as Hw
    by apply run_ops_consistent, world_consistent_init.
  destruct (run_ops_registered_once ops) as [Hnd _]. fold w in Hnd.
  split; [exact Hnd|]. split; [|split; [|split]].
  - eapply Forall_impl; [exact (consistent_views w Hw)|].
    intros a Ha. by apply snapshot_is_Some.
  - destruct Hw as [[_ Hinj] _]. exact Hinj.
  - destruct (getChats_listing w Hw) as (copies & w' & Hget & _).
    by exists copies, w'.
  - intros chat Hin. cbn [deleteChat snd chats set_chats].
    by apply length_filter_remove.
Qed.

(** ** The result of an attempt cycle (llmchat.ts) *)

(** X21: what [callLLMWithValidation] returns or throws when no extra
    validator is attached, for every number of attempts allowed.  With
    [maxRetries] zero it makes no attempt, changes nothing and throws the
    unexpected-failure error.  Otherwise, when it returns a reply, that is
    the result of one attempt, all attempts before it failed, and no
    attempt follows it; when it throws, all [maxRetries] attempts were made
    and failed, and the error is the one of the last attempt: the
    unexpected-failure error at the end of the loop is never reached. *)
Theorem attempt_cycle_result (w : World) (llm : GeminiLLM)
    (prompt : jsstring) (chat : addr) (maxRetries : nat) (timeoutMs : N) :
  let R i :=
    attempt_result (executeLLM llm (calls w + i) prompt) timeoutMs in
  let '(r, w') := callLLMWithValidation llm prompt [] chat maxRetries
                    timeoutMs w in
  match maxRetries with
  | O => r = Throw (UnexpectedFailure 0) /\ w' = w
  | S _ =>
      match r with
      | Ok response =>
          exists i : nat,
            i < maxRetries /\ R i = Ok response
            /\ (forall j, j < i -> exists e, R j = Throw e)
            /\ calls w' = calls w + S i
      | Throw e =>
          R (maxRetries - 1) = Throw e
          /\ (forall j, j < maxRetries -> exists e', R j = Throw e')
          /\ calls w' = calls w + maxRetries
      end
  end.
Proof.
  cbv zeta. unfold callLLMWithValidation.
  destruct maxRetries as [|n]; [by cbn|].
  exact (attempts_result llm prompt chat (S n) timeoutMs (S n) 1 w eq_refl
           ltac:(lia)).
Qed.

(** ** The theorems at sample inputs *)

(** A chat that was just created cannot be summarised. *)
Lemma updateSummary_empty_chat_witness :
  chat_view (heap fresh_world) 1 = Some (new_chat (js "X") 0, [])
  /\ updateSummary 1 hello_llm fresh_world = (Throw EmptyChat, fresh_world).
Proof.
  split; [reflexivity|].
  apply (updateSummary_empty_chat fresh_world 1 (new_chat (js "X") 0)
           hello_llm).
  reflexivity.
Defined.

(** Summarising the chat that holds one exchange. *)
Lemma updateSummary_summary_atomic_witness :
  chat_view (heap greeted_world) 1 = Some (greeted_chat, greeted_messages)
  /\ match updateSummary 1 hello_llm greeted_world with
     | (Ok response, w') =>
         chat_view (heap w') 1
         = Some (set_summary greeted_chat (reply response), greeted_messages)
         /\ fst (callLLMWithValidation hello_llm
                   (createSummaryPrompt (historyString greeted_chat))
                   [validateSummaryLength] 1 default_maxRetries
                   default_timeoutMs greeted_world) = Ok response
     | (Throw e, w') =>
         heap w' = heap greeted_world
         /\ chat_view (heap w') 1 = Some (greeted_chat, greeted_messages)
         /\ ((greeted_messages = [] /\ e = EmptyChat)
             \/ fst (callLLMWithValidation hello_llm
                       (createSummaryPrompt (historyString greeted_chat))
                       [validateSummaryLength] 1 default_maxRetries
                       default_timeoutMs greeted_world) = Throw e)
     end.
Proof.
  split; [vm_compute; reflexivity|].
  apply (updateSummary_summary_atomic greeted_world 1 greeted_chat
           greeted_messages hello_llm).
  vm_compute. reflexivity.
Defined.

(** Messages of 4 and 6 code units: a summary of 20 passes, one of 21 does
    not. *)
Lemma validateSummaryLength_bound_witness :
  chat_view (heap ten_world) 1 = Some (ten_chat, ten_messages)
  /\ content_total ten_messages = 10
  /\ fst (validateSummaryLength (js "12345678901234567890") 1 ten_world)
     = Ok tt
  /\ fst (validateSummaryLength (js "123456789012345678901") 1 ten_world)
     = Throw (SummaryTooLong 21 10).
Proof.
  split; [vm_compute; reflexivity|]. split; [reflexivity|].
  destruct (validateSummaryLength_bound ten_world 1 ten_chat ten_messages)
    as [_ Hten]; [vm_compute; reflexivity|].
  apply Hten; reflexivity.
Defined.

(** The user message is recorded even against a backend that never answers
    properly, and each of its three invocations finds it there. *)
Lemma sendMessage_records_user_message_witness :
  chat_view (heap fresh_world) 1 = Some (new_chat (js "X") 0, [])
  /\ exists w1 : World,
       record_message 1 (user_message (js "Hi") 0) fresh_world = (Ok tt, w1)
       /\ calls w1 = 0
       /\ chat_view (heap w1) 1
          = Some (set_historyString (new_chat (js "X") 0)
                    (history_line (user_message (js "Hi") 0)),
                  [user_message (js "Hi") 0])
       /\ sendMessage 1 (js "Hi") dead_llm fresh_world
          = await_reply 1 (js "Hi") dead_llm w1
       /\ exists times : list N,
            length times = 3
            /\ seen (snd (sendMessage 1 (js "Hi") dead_llm fresh_world))
               = map (fun t => (t, heap w1)) times.
Proof.
  split; [reflexivity|].
  destruct (sendMessage_records_user_message fresh_world 1
              (new_chat (js "X") 0) [] (js "Hi") dead_llm)
    as (w1 & Hrec & Hcalls & _ & _ & Hview & Hsplit & Hseen & _);
    [reflexivity|].
  exists w1. split; [exact Hrec|]. split; [exact Hcalls|].
  split; [exact Hview|]. split; [exact Hsplit|].
  destruct Hseen as (times & _ & Hlen & Hseen).
  exists times. split; [exact Hlen | exact Hseen].
Defined.

(** The end-to-end scenario from the empty store, with a backend that takes
    120 ms. *)
Lemma sendMessage_end_to_end_witness :
  exists (chat : addr) (w0 w' : World),
    makeChat (js "X") init = (Ok chat, w0)
    /\ sendMessage chat (js "Hi") hello_llm w0
       = (Ok {| reply := js "Hello!" |}, w')
    /\ chat_view (heap w') chat =
       Some ({| name := js "X"; messages := 0; summary := [];
                historyString :=
                  js "[USER] Hi" ++ [newline] ++ js "[LLM] Hello!"
                  ++ [newline] |},
             [ {| role := Role_user; content := js "Hi"; timestamp := 0 |};
               {| role := Role_llm; content := js "Hello!";
                  timestamp := 120 |} ]).
Proof.
  apply (sendMessage_end_to_end init hello_llm 120).
  - reflexivity.
  - intros n prompt. reflexivity.
Defined.

(** Against the backend that fails twice (after 50 and 80 ms) and then
    answers after 120 ms, the three invocations are made at 0, 550 and
    1630 ms and the reply is stamped 1750; against the backend that never
    answers properly (10 ms, a time-out of 10000 ms, 10 ms) they are made at
    0, 510 and 11510 ms and the call ends at 11520. *)
Lemma retry_protocol_witness :
  chat_view (heap fresh_world) 1 = Some (new_chat (js "X") 0, [])
  /\ (exists w' : World,
        sendMessage 1 (js "Hi") flaky_llm fresh_world
        = (Ok {| reply := js "Hello!" |}, w')
        /\ calls w' = 3
        /\ map fst (seen w') = [0; 550; 1630]%N
        /\ now w' = 1750%N
        /\ exists c' : Chat,
             chat_view (heap w') 1
             = Some (c', [user_message (js "Hi") 0;
                          llm_message (js "Hello!") 1750]))
  /\ (exists w' : World,
        sendMessage 1 (js "Hi") dead_llm fresh_world
        = (Throw (BackendError (js "service unavailable 2")), w')
        /\ calls w' = 3
        /\ map fst (seen w') = [0; 510; 11510]%N
        /\ now w' = 11520%N)
  /\ calls (snd (callLLMWithValidation dead_llm (js "summarize")
                    [validateSummaryLength] 1 2 10000 fresh_world))
     <= calls fresh_world + 2
  /\ exists errors : list Error,
       let '(r, w') := callLLMWithValidation hello_llm (js "summarize")
                         [validateSummaryLength] 1 3 10000 fresh_world in
       calls w' = calls fresh_world + S (length errors)
       /\ S (length errors) <= 3
       /\ now w' =
          cycle_end (now fresh_world) 1
            (attempt_waits hello_llm (js "summarize") 10000
               (calls fresh_world) (S (length errors))).
Proof.
  split; [reflexivity|].
  destruct (retry_protocol fresh_world 1 (new_chat (js "X") 0) []
              (js "Hi")) as (Hbound & Hcycle & Hretry & Hfail); [reflexivity|].
  assert (Forall read_only [validateSummaryLength]) as Hro
    by (constructor; [apply validateSummaryLength_read_only | constructor]).
  split; [|split; [|split]].
  - destruct (Hretry flaky_llm (BackendError (js "quota exceeded"))
                InvalidJSON {| reply := js "Hello!" |})
      as (w' & Hsend & Hcalls & _ & Hseen & Hnow & Hview);
      [vm_compute; reflexivity | vm_compute; reflexivity
       | vm_compute; reflexivity |].
    exists w'. split; [exact Hsend|]. split; [exact Hcalls|].
    split; [exact Hseen|]. split; [exact Hnow|].
    eexists. exact Hview.
  - destruct (Hfail dead_llm (BackendError (js "service unavailable 0"))
                TimedOut (BackendError (js "service unavailable 2")))
      as (w' & Hsend & Hcalls & _ & Hseen & Hnow & _);
      [vm_compute; reflexivity | vm_compute; reflexivity
       | vm_compute; reflexivity |].
    exists w'. split; [exact Hsend|]. split; [exact Hcalls|].
    split; [exact Hseen | exact Hnow].
  - exact (Hbound dead_llm (js "summarize") [validateSummaryLength] 2
             10000%N Hro).
  - destruct (Hcycle hello_llm (js "summarize") [validateSummaryLength] 3
                10000%N) as [errors Herrors].
    + exact Hro.
    + lia.
    + exists errors. cbv zeta in Herrors.
      destruct (callLLMWithValidation _ _ _ _ _ _ _) as [r w'].
      destruct Herrors as (Hcalls & Hle & Hnow & _).
      split; [exact Hcalls|]. split; [exact Hle | exact Hnow].
Defined.

(** The history after an exchange, and one step from a new chat. *)
Lemma history_invariant_witness :
  (exists ms : list Message,
     chat_view (heap (run_ops two_chats init)) 1
     = Some (greeted_chat, ms)
     /\ historyString greeted_chat = concat (map history_line ms))
  /\ exists (c' : Chat) (added : list Message),
       heap_chat (heap (run_op (OpSendMessage 1 (js "Hi") hello_llm)
                          fresh_world)) 1 = Some c'
       /\ historyString c' =
          historyString (new_chat (js "X") 0)
          ++ concat (map history_line added).
Proof.
  destruct (history_invariant two_chats) as (Hinv & _ & _).
  destruct (history_invariant []) as (_ & _ & Hstep).
  split.
  - apply (Hinv 1 greeted_chat). vm_compute. reflexivity.
  - destruct (Hstep fresh_world (OpSendMessage 1 (js "Hi") hello_llm) 1
                (new_chat (js "X") 0))
      as (c' & added & Hc' & _ & Hh & _); [reflexivity|].
    exists c', added. split; [exact Hc' | exact Hh].
Defined.

(** Listing two chats; overwriting an object of a copy; deleting the first
    chat; and the listing of the chats A, B, C after B was deleted. *)
Lemma getChats_deep_copies_witness :
  exists (copies : list addr) (w' : World),
    getChats (run_ops two_chats init) = (Ok copies, w')
    /\ map (snapshot (heap w')) copies
       = map (snapshot (heap (run_ops two_chats init)))
           (chats (run_ops two_chats init))
    /\ map (snapshot (<[7:=OArray []]> (heap w')))
         (chats (run_ops two_chats init))
       = map (snapshot (heap (run_ops two_chats init)))
           (chats (run_ops two_chats init))
    /\ (1 ∉ chats (run_ops [OpDeleteChat 1; OpMakeChat (js "Z"); OpGetChats]
                     (run_ops two_chats init)))
    /\ chats (snd (deleteChat 1 (run_ops two_chats init))) = [5]
    /\ exists (listed : list addr) (w1 : World),
         getChats
           (run_ops [OpMakeChat (js "A"); OpMakeChat (js "B");
                     OpMakeChat (js "C"); OpDeleteChat 3] init)
         = (Ok listed, w1)
         /\ map (snapshot (heap w1)) listed
            = [Some (js "A", [], [], []); Some (js "C", [], [], [])].
Proof.
  destruct (getChats_deep_copies two_chats)
    as (copies & w' & Hrun & _ & _ & Hsame & _ & _ & _ & _ & Hindep & _ & Hdel
        & _ & _ & Hfilter & _ & _ & Hlisting).
  exists copies, w'. split; [exact Hrun|]. split; [exact Hsame|].
  split; [apply Hindep; vm_compute; lia|].
  split; [apply Hdel; vm_compute; lia|].
  split; [rewrite Hfilter; vm_compute; reflexivity|].
  exact (Hlisting [js "A"] [js "C"] (js "B")).
Defined.

(** The reply Hello!, bare and fenced, and the empty object. *)
Lemma validateLLMResponse_spec_witness :
  Forall plain (js "Hello!") /\ has_fence (js "Hello!") = false
  /\ validateLLMResponse (reply_json (js "Hello!"))
     = Ok {| reply := js "Hello!" |}
  /\ validateLLMResponse (fenced (reply_json (js "Hello!")))
     = Ok {| reply := js "Hello!" |}
  /\ ((exists e, validateLLMResponse (js "{}") = Throw e) <->
      JSON_parse (cleanJSON (js "{}")) = None
      \/ exists parsed,
           JSON_parse (cleanJSON (js "{}")) = Some parsed
           /\ (~ is_JSON_object parsed
               \/ get_property (js "reply") parsed = None
               \/ (exists v, get_property (js "reply") parsed = Some v
                             /\ ~ is_JSON_string v)
               \/ exists k, k ∈ Object_keys parsed /\ k <> js "reply")).
Proof.
  assert (Forall plain (js "Hello!")) as Hplain.
  { change (js "Hello!") with [72; 101; 108; 108; 111; 33]%N.
    repeat (apply Forall_cons; split;
              [unfold plain, dquote, backslash; lia|]).
    apply Forall_nil_2. }
  split; [exact Hplain|]. split; [reflexivity|].
  destruct (validateLLMResponse_spec (js "{}"))
    as (Hthrow & _ & _ & Hround).
  destruct (Hround (js "Hello!") Hplain eq_refl) as [Hbare Hfenced].
  split; [exact Hbare|]. split; [exact Hfenced | exact Hthrow].
Defined.

(** A labelled fence after one other code unit. *)
Lemma cleanJSON_removes_every_fence_witness :
  (backtick ∉ js "x")
  /\ remove_all fence_with_label (js "x" ++ js "```" ++ js "json{}")
     = js "x" ++ remove_all fence_with_label (js "{}").
Proof.
  assert (backtick ∉ (js "x")) as Hx.
  { change (js "x") with [120%N]. apply not_elem_of_cons.
    split; [discriminate | apply not_elem_of_nil]. }
  split; [exact Hx|].
  destruct cleanJSON_removes_every_fence as (Hremove & _ & _).
  exact (Hremove (js "x") (js "json{}") Hx).
Defined.

(** C1, as stated, fails on the program: the history of the end-to-end
    scenario reads [LLM], not [MODEL], for the reply. *)
Lemma sendMessage_end_to_end_history_not_MODEL :
  let w := snd (sendMessage 1 (js "Hi") hello_llm
                  (snd (makeChat (js "X") init))) in
  option_map historyString (heap_chat (heap w) 1)
  = Some (js "[USER] Hi" ++ [newline] ++ js "[LLM] Hello!" ++ [newline])
  /\ option_map historyString (heap_chat (heap w) 1)
     <> Some (js "[USER] Hi" ++ [newline] ++ js "[MODEL] Hello!" ++ [newline]).
Proof. vm_compute. split; [reflexivity | discriminate]. Qed.

(** ** The further theorems at sample inputs *)

(** Against the backend that fails twice, the third attempt gives the
    reply. *)
Lemma sendMessage_returns_first_valid_reply_witness :
  chat_view (heap fresh_world) 1 = Some (new_chat (js "X") 0, [])
  /\ fst (sendMessage 1 (js "Hi") flaky_llm fresh_world)
     = Ok {| reply := js "Hello!" |}
  /\ calls (snd (sendMessage 1 (js "Hi") flaky_llm fresh_world)) = 3.
Proof.
  split; [reflexivity|].
  destruct (sendMessage_returns_first_valid_reply fresh_world 1
              (new_chat (js "X") 0) [] (js "Hi") flaky_llm)
    as [Hres Hcalls]; [reflexivity|].
  split; [rewrite Hres | rewrite Hcalls]; vm_compute; reflexivity.
Defined.

(** Summarising the chat that holds one exchange: the summary Hello! has 6
    code units, the two messages have 8. *)
Lemma updateSummary_stores_checked_reply_witness :
  chat_view (heap greeted_world) 1 = Some (greeted_chat, greeted_messages)
  /\ updateSummary 1 hello_llm greeted_world
     = (Ok {| reply := js "Hello!" |},
        snd (updateSummary 1 hello_llm greeted_world))
  /\ length (js "Hello!") <= 2 * Nat.max (content_total greeted_messages) 1
  /\ chat_view (heap (snd (updateSummary 1 hello_llm greeted_world))) 1
     = Some (set_summary greeted_chat (js "Hello!"), greeted_messages).
Proof.
  split; [vm_compute; reflexivity|]. split; [vm_compute; reflexivity|].
  destruct (updateSummary_stores_checked_reply greeted_world
              (snd (updateSummary 1 hello_llm greeted_world)) 1 greeted_chat
              greeted_messages hello_llm {| reply := js "Hello!" |})
    as (_ & Hlen & Hview & _); [vm_compute; reflexivity.. |].
  split; [exact Hlen | exact Hview].
Defined.

(** A summary of 20 code units passes on messages that total 10, and still
    does after a send that fails. *)
Lemma validateSummaryLength_monotone_witness :
  chat_view (heap ten_world) 1 = Some (ten_chat, ten_messages)
  /\ fst (validateSummaryLength (js "12345678901234567890") 1 ten_world)
     = Ok tt
  /\ fst (validateSummaryLength (js "1234567890") 1 ten_world) = Ok tt
  /\ fst (validateSummaryLength (js "12345678901234567890") 1
            (snd (sendMessage 1 (js "more") dead_llm ten_world))) = Ok tt.
Proof.
  split; [vm_compute; reflexivity|]. split; [vm_compute; reflexivity|].
  destruct (validateSummaryLength_monotone ten_world 1 ten_chat ten_messages
              (js "12345678901234567890"))
    as [_ Hmono]; [vm_compute; reflexivity|].
  destruct Hmono as [Hshorter Hsend]; [vm_compute; reflexivity|].
  split; [apply Hshorter; vm_compute; lia | apply Hsend].
Defined.


(** The listing of two chats holds two new references; the first chat, at
    address 1, is not among them. *)
Lemma getChats_never_returns_a_held_reference_witness :
  1 < length (heap (run_ops two_chats init))
  /\ exists (copies : list addr) (w' : World),
       getChats (run_ops two_chats init) = (Ok copies, w')
       /\ length copies = 2
       /\ (1 ∉ copies).
Proof.
  split; [vm_compute; lia|].
  destruct (getChats_never_returns_a_held_reference two_chats 1)
    as (copies & w' & Hget & Hlen & Hnot); [vm_compute; lia|].
  exists copies, w'. split; [exact Hget|]. split; [exact Hlen | exact Hnot].
Defined.

(** The reply Hello! as a backend typically writes it: on lines of its own,
    indented, inside a fence. *)
Lemma validateLLMResponse_accepts_spaced_reply_witness :
  Forall plain (js "Hello!")
  /\ validateLLMResponse
       (spaced_reply_json [newline; 32; 32]%N [] [32]%N [newline]
          (js "Hello!"))
     = Ok {| reply := js "Hello!" |}
  /\ validateLLMResponse
       (fenced (spaced_reply_json [newline; 32; 32]%N [] [32]%N [newline]
                  (js "Hello!")))
     = Ok {| reply := js "Hello!" |}.
Proof.
  assert (Forall plain (js "Hello!")) as Hplain.
  { change (js "Hello!") with [72; 101; 108; 108; 111; 33]%N.
    repeat (apply Forall_cons; split;
              [unfold plain, dquote, backslash; lia|]).
    apply Forall_nil_2. }
  split; [exact Hplain|].
  destruct (validateLLMResponse_accepts_spaced_reply [newline; 32; 32]%N []
              [32]%N [newline] [32]%N [newline] (js "Hello!"))
    as (Hbare & _ & Hfenced & _);
    [ exact Hplain | reflexivity
    | repeat constructor | repeat constructor | repeat constructor
    | repeat constructor | repeat constructor | repeat constructor | ].
  split; [exact Hbare | exact Hfenced].
Defined.

(** A reply with a note beside it is refused; a reply given twice yields the
    later text. *)
Lemma validateLLMResponse_second_member_witness :
  validateLLMResponse (object2_json (js "reply") (js "Hi") (js "note") (js "x"))
  = Throw UnexpectedFields
  /\ validateLLMResponse
       (object2_json (js "reply") (js "Hi") (js "reply") (js "Ho"))
     = Ok {| reply := js "Ho" |}.
Proof.
  assert (forall s : jsstring,
            forallb (fun c => (32 <=? c)%N && negb (c =? 34)%N
                              && negb (c =? 92)%N) s = true ->
            Forall plain s) as Hplain.
  { intros s Hs. apply Forall_forall. intros c Hc.
    rewrite forallb_forall in Hs. apply list_elem_of_In, Hs in Hc.
    apply andb_true_iff in Hc as [[H1 H2]%andb_true_iff H3].
    apply N.leb_le in H1. apply negb_true_iff, N.eqb_neq in H2, H3.
    done. }
  destruct (validateLLMResponse_second_member (js "Hi") (js "note") (js "x"))
    as [Hnote _]; [by apply Hplain.. | reflexivity | reflexivity | reflexivity |].
  destruct (validateLLMResponse_second_member (js "Hi") (js "reply") (js "Ho"))
    as [Htwice _]; [by apply Hplain.. | reflexivity | reflexivity | reflexivity |].
  split; [exact Hnote | exact Htwice].
Defined.


(** A send against the backend that never answers properly, then one
    against the backend that does. *)
Lemma failed_send_is_not_rolled_back_witness :
  chat_view (heap fresh_world) 1 = Some (new_chat (js "X") 0, [])
  /\ fst (sendMessage 1 (js "Hi") dead_llm fresh_world)
     = Throw (BackendError (js "service unavailable 2"))
  /\ exists t : N,
       chat_view
         (heap (snd (sendMessage 1 (js "Hi again") hello_llm
                       (snd (sendMessage 1 (js "Hi") dead_llm fresh_world)))))
         1
       = Some (set_historyString (new_chat (js "X") 0)
                 (js "[USER] Hi" ++ [newline] ++ js "[USER] Hi again"
                  ++ [newline] ++ js "[LLM] Hello!" ++ [newline]),
               [user_message (js "Hi") 0; user_message (js "Hi again") 11520;
                llm_message (js "Hello!") t]).
Proof.
  split; [reflexivity|]. split; [vm_compute; reflexivity|].
  destruct (failed_send_is_not_rolled_back fresh_world
              (snd (sendMessage 1 (js "Hi") dead_llm fresh_world))
              (snd (sendMessage 1 (js "Hi again") hello_llm
                      (snd (sendMessage 1 (js "Hi") dead_llm fresh_world))))
              1 (new_chat (js "X") 0) [] (js "Hi") (js "Hi again") dead_llm
              hello_llm (BackendError (js "service unavailable 2"))
              {| reply := js "Hello!" |})
    as (t & _ & Hview); [reflexivity | vm_compute; reflexivity.. |].
  exists t. rewrite Hview. vm_compute. reflexivity.
Defined.


(** The empty object with a space on either side. *)
Lemma cleanJSON_idempotent_and_transparent_witness :
  has_fence (js " {} ") = false
  /\ cleanJSON (js " {} ") = trim (js " {} ")
  /\ validateLLMResponse (fenced (js " {} "))
     = validateLLMResponse (js " {} ").
Proof.
  split; [reflexivity|].
  destruct (cleanJSON_idempotent_and_transparent (js " {} "))
    as (_ & _ & _ & _ & Hplain).
  destruct Hplain as (Htrim & Hfenced & _); [reflexivity|].
  split; [exact Htrim | exact Hfenced].
Defined.

(** Deleting the first of two chats leaves one. *)
Lemma chats_are_registered_once_witness :
  chats (run_ops two_chats init) = [1; 5]
  /\ S (length (chats (snd (deleteChat 1 (run_ops two_chats init))))) = 2.
Proof.
  split; [vm_compute; reflexivity|].
  destruct (chats_are_registered_once two_chats) as (_ & _ & _ & _ & Hdel).
  rewrite (Hdel 1); [vm_compute; reflexivity|].
  vm_compute. constructor.
Defined.
